(** * Commute Briefing: generation orchestrator and playback engine

    A shallow embedding of the core of the Commute Briefing application, in
    five modules that follow the source files:

    - [Js]             the JavaScript values the code relies on: thrown
                       errors, settled promises, truthiness, string search
                       and join;
    - [GeminiService]  services/geminiService.ts: the base64 / PCM16 decoding
                       helpers, the prompt and the result handling of
                       summarizeArticles and generateSpeech;
    - [App]            the orchestrator of the App component: handleGenerate,
                       cut at its two awaits, the staleness guard on
                       lastGenRequestRef, getFriendlyErrorMessage and the
                       queue-empty effect;
    - [Player]         the transport logic of the Player component:
                       playAudio, pauseAudio, stopAudio, togglePlay,
                       updateProgress, the detune effect, the onended
                       handler and the time display;
    - [Component]      the App component as a whole: the form and
                       handleAddArticle, the remove and clear buttons, the
                       auto-generate effect with its timer and the gating of
                       the generate button, on top of [App].

    The facts proved about them follow in [JsFacts], [GeminiServiceFacts],
    [AppFacts] and [PlayerFacts], and in [GeminiServiceMore], [AppMore],
    [ComponentFacts] and [PlayerMore].

    Conventions.  JavaScript numbers that hold clock readings, progress
    values and samples are modelled by exact rationals [Q] (statements about
    them are up to [==], the idealisation of floating point); cents and
    millisecond timestamps are integers [Z].  React state setters are
    modelled as taking effect at once, followed by the effects whose
    dependencies changed.  Values read from the environment
    (audioContext.currentTime, Date.now(), generateId(), process.env.API_KEY,
    the replies of the remote model, the answer to window.confirm) are
    explicit arguments.  Text typed into the form and error messages are
    modelled as ASCII strings. *)

From Stdlib Require Import ZArith QArith Qminmax Qround Lqa Lia Bool Sorted Ascii String.
From stdpp Require Import base option list strings pretty.

(* ===================================================================== *)
(** * JavaScript values the code relies on *)
(* ===================================================================== *)

Module Js.

(** A thrown value, as the catch block reads it: [error.message], which may
    be absent.  Messages are modelled as ASCII strings. *)
Record Error := mkError { message : option string }.

Definition newError (msg : string) : Error := mkError (Some msg).

(** A computation that returns normally or throws. *)
Inductive Result (A : Type) : Type :=
| Ok (a : A)
| Throw (e : Error).
Arguments Ok {A} a.
Arguments Throw {A} e.

#[global] Instance result_ret : MRet Result := fun A a => Ok a.
#[global] Instance result_bind : MBind Result := fun A B f m =>
  match m with
  | Ok a => f a
  | Throw e => Throw e
  end.

(** How an awaited promise settles. *)
Inductive Settled (R : Type) : Type :=
| Fulfilled (r : R)
| Rejected (e : Error).
Arguments Fulfilled {R} r.
Arguments Rejected {R} e.

(** [await p] inside a try block. *)
Definition await {R : Type} (p : Settled R) : Result R :=
  match p with
  | Fulfilled r => Ok r
  | Rejected e => Throw e
  end.

(** Truthiness of a [string | undefined]: undefined and the empty string
    are falsy. *)
Definition truthy (s : option string) : bool :=
  match s with
  | Some (String _ _) => true
  | _ => false
  end.

(** [s || d] on a [string | undefined]. *)
Definition orElse (s : option string) (d : string) : string :=
  match s with
  | Some (String c r) => String c r
  | _ => d
  end.

Definition lower (c : ascii) : ascii :=
  let n := N_of_ascii c in
  if (65 <=? n)%N && (n <=? 90)%N then ascii_of_N (n + 32) else c.

(** [s.toLowerCase()] *)
Fixpoint toLowerCase (s : string) : string :=
  match s with
  | EmptyString => EmptyString
  | String c r => String (lower c) (toLowerCase r)
  end.

(** [s.includes(needle)] *)
Fixpoint includes (s needle : string) : bool :=
  String.prefix needle s ||
  match s with
  | EmptyString => false
  | String _ r => includes r needle
  end.

(** [s.charCodeAt(i)] for every position of a binary string. *)
Definition charCodes (s : string) : list Z :=
  map (fun c => Z.of_N (N_of_ascii c)) (list_ascii_of_string s).

(** The ranges of a Uint8Array element and of an Int16Array element. *)
Definition is_byte (b : Z) : Prop := (0 <= b < 256)%Z.
Definition is_int16 (k : Z) : Prop := (-32768 <= k <= 32767)%Z.

(** [xs.join(sep)] *)
Fixpoint join (sep : string) (xs : list string) : string :=
  match xs with
  | [] => EmptyString
  | [x] => x
  | x :: rest => x +:+ sep +:+ join sep rest
  end.

Definition line_feed : string := String (ascii_of_N 10) EmptyString.

Definition double_quote : string := String (ascii_of_N 34) EmptyString.

(** [m] holds the keyword [kw] somewhere, in any mix of upper and lower case. *)
Definition mentions (m kw : string) : Prop :=
  exists pre mid post, m = pre +:+ mid +:+ post /\ toLowerCase mid = kw.

End Js.


(* ===================================================================== *)
(** * services/geminiService.ts *)
(* ===================================================================== *)

Module GeminiService.
Import Js.

(** ** Browser functions the decoding helpers call *)

(** The messages of the exceptions the browser raises; they differ between
    browsers, so they are parameters. *)
Record Platform := mkPlatform {
  InvalidCharacterError : Error;   (* atob on a string that is not base64 *)
  RangeError : Error;              (* Int16Array over an odd number of bytes *)
  NotSupportedError : Error        (* createBuffer with no channel or no frame *)
}.

(** The value of a character of the base64 alphabet. *)
Definition base64_value (c : ascii) : option Z :=
  let n := Z.of_N (N_of_ascii c) in
  if (65 <=? n)%Z && (n <=? 90)%Z then Some (n - 65)%Z
  else if (97 <=? n)%Z && (n <=? 122)%Z then Some (n - 71)%Z
  else if (48 <=? n)%Z && (n <=? 57)%Z then Some (n + 4)%Z
  else if (n =? 43)%Z then Some 62%Z
  else if (n =? 47)%Z then Some 63%Z
  else None.

Definition is_ascii_whitespace (c : ascii) : bool :=
  let n := N_of_ascii c in
  (n =? 9)%N || (n =? 10)%N || (n =? 12)%N || (n =? 13)%N || (n =? 32)%N.

Definition is_equals_sign (c : ascii) : bool := (N_of_ascii c =? 61)%N.

(** Remove one or two trailing [=] when the length is a multiple of four. *)
Definition strip_padding (l : list ascii) : list ascii :=
  if (length l mod 4 =? 0)%nat then
    match rev l with
    | a :: b :: r =>
        if is_equals_sign a then
          if is_equals_sign b then rev r else rev (b :: r)
        else l
    | _ => l
    end
  else l.

(** Sextets to octets, 24 bits at a time; a last group of 18 or 12 bits
    drops its low 2 or 4 bits. *)
Fixpoint octets (l : list Z) : list Z :=
  match l with
  | a :: b :: c :: d :: rest =>
      let w := Z.lor (Z.lor (Z.shiftl a 18) (Z.shiftl b 12))
                     (Z.lor (Z.shiftl c 6) d) in
      Z.shiftr w 16 :: Z.land (Z.shiftr w 8) 255 :: Z.land w 255 :: octets rest
  | [a; b; c] =>
      let w := Z.shiftr (Z.lor (Z.lor (Z.shiftl a 12) (Z.shiftl b 6)) c) 2 in
      [Z.shiftr w 8; Z.land w 255]
  | [a; b] => [Z.shiftr (Z.lor (Z.shiftl a 6) b) 4]
  | _ => []
  end.

(** The character of the base64 alphabet that stands for [v]. *)
Definition base64_code (v : Z) : Z :=
  if (v <? 26)%Z then (v + 65)%Z
  else if (v <? 52)%Z then (v + 71)%Z
  else if (v <? 62)%Z then (v - 4)%Z
  else if (v =? 62)%Z then 43%Z
  else 47%Z.

Definition base64_char (v : Z) : ascii := ascii_of_N (Z.to_N (base64_code v)).

Definition equals_sign : ascii := ascii_of_N 61.

(** The standard base64 encoding of a list of bytes, with padding: the
    encoding that [atob] is meant to undo.  It is not part of the program and
    only serves to state what [decode] returns. *)
Fixpoint base64_encode (bytes : list Z) : list ascii :=
  match bytes with
  | a :: b :: c :: rest =>
      base64_char (Z.shiftr a 2)
      :: base64_char (Z.lor (Z.shiftl (Z.land a 3) 4) (Z.shiftr b 4))
      :: base64_char (Z.lor (Z.shiftl (Z.land b 15) 2) (Z.shiftr c 6))
      :: base64_char (Z.land c 63)
      :: base64_encode rest
  | [a; b] =>
      [base64_char (Z.shiftr a 2);
       base64_char (Z.lor (Z.shiftl (Z.land a 3) 4) (Z.shiftr b 4));
       base64_char (Z.shiftl (Z.land b 15) 2);
       equals_sign]
  | [a] =>
      [base64_char (Z.shiftr a 2);
       base64_char (Z.shiftl (Z.land a 3) 4);
       equals_sign; equals_sign]
  | [] => []
  end.

Definition btoa (bytes : list Z) : string :=
  string_of_list_ascii (base64_encode bytes).

Definition is_sextet (v : Z) : Prop := (0 <= v < 64)%Z.

(** [l] is the encoding of [bytes]: alphabet characters for sextets that
    [octets] turns back into [bytes], followed by the padding that fills the
    last group of four. *)
Definition encodes (bytes : list Z) (l : list ascii) : Prop :=
  exists sx pad,
    l = map base64_char sx ++ pad /\
    Forall is_sextet sx /\
    octets sx = bytes /\
    ((pad = [] /\ length sx mod 4 = 0%nat) \/
     (pad = [equals_sign; equals_sign] /\ length sx mod 4 = 2%nat) \/
     (pad = [equals_sign] /\ length sx mod 4 = 3%nat)).

Section WithPlatform.
Variable pf : Platform.

(** The binary string whose character codes are the given bytes. *)
Definition binaryString (bytes : list Z) : string :=
  string_of_list_ascii (map (fun b => ascii_of_N (Z.to_N b)) bytes).

(** Modelled from the platform's definition: [atob], the forgiving base64
    decoder of the HTML standard.  It returns a binary string, one character
    per decoded byte. *)
Definition atob (base64 : string) : Result string :=
  let data := filter (fun c => is_ascii_whitespace c = false)
                     (list_ascii_of_string base64) in
  let data := strip_padding data in
  if (length data mod 4 =? 1)%nat then Throw (InvalidCharacterError pf)
  else
    match mapM base64_value data with
    | Some sextets => Ok (binaryString (octets sextets))
    | None => Throw (InvalidCharacterError pf)
    end.

(** [decode]: the bytes of [atob(base64)], [bytes[i] = binaryString.charCodeAt(i)]. *)
Definition decode (base64 : string) : Result (list Z) :=
  binaryString ← atob base64;
  mret (charCodes binaryString).

(** Two bytes, low byte first, read as a signed 16-bit integer. *)
Definition int16_of_bytes (lo hi : Z) : Z :=
  let u := Z.lor lo (Z.shiftl hi 8) in
  if (u <? 32768)%Z then u else (u - 65536)%Z.

Fixpoint int16_pairs (bytes : list Z) : option (list Z) :=
  match bytes with
  | [] => Some []
  | lo :: hi :: rest => cons (int16_of_bytes lo hi) <$> int16_pairs rest
  | [_] => None
  end.

(** [new Int16Array(data.buffer)] *)
Definition Int16Array (bytes : list Z) : Result (list Z) :=
  match int16_pairs bytes with
  | Some l => Ok l
  | None => Throw (RangeError pf)
  end.

(** An AudioBuffer: channel count, length in sample frames, sample rate and
    the samples of each channel. *)
Record AudioBuffer := mkAudioBuffer {
  numberOfChannels : nat;
  frames : nat;
  sampleRate : Z;
  channelData : list (list Q)
}.

Definition duration (b : AudioBuffer) : Q :=
  (inject_Z (Z.of_nat (frames b)) / inject_Z (sampleRate b))%Q.

(** [ctx.createBuffer(numChannels, frameCount, sampleRate)]: a silent buffer;
    refused without a channel or without a frame.  (The platform's upper
    limits on channels and rates are not modelled.) *)
Definition createBuffer (numChannels frameCount : nat) (rate : Z) : Result AudioBuffer :=
  if (numChannels =? 0)%nat || (frameCount =? 0)%nat
  then Throw (NotSupportedError pf)
  else Ok (mkAudioBuffer numChannels frameCount rate
             (replicate numChannels (replicate frameCount 0%Q))).

(** The samples the two nested loops store into channel [channel]. *)
Definition fill_channel (dataInt16 : list Z) (numChannels frameCount channel : nat)
    : list Q :=
  map (fun i => (inject_Z (default 0%Z (dataInt16 !! (i * numChannels + channel)%nat))
                 / 32768)%Q)
      (seq 0 frameCount).

Definition decodeAudioData (data : list Z) (rate : Z) (numChannels : nat)
    : Result AudioBuffer :=
  dataInt16 ← Int16Array data;
  let frameCount := (length dataInt16 / numChannels)%nat in
  buffer ← createBuffer numChannels frameCount rate;
  mret (mkAudioBuffer (numberOfChannels buffer) (frames buffer) (sampleRate buffer)
          (map (fill_channel dataInt16 numChannels frameCount) (seq 0 numChannels))).

(** ** The two remote operations *)

(** What the code reads of a generateContent response. *)
Record Blob := mkBlob { data : option string }.
Record Part := mkPart { inlineData : option Blob }.
Record Content := mkContent { parts : option (list Part) }.
Record Candidate := mkCandidate { content : option Content }.
Record GenerateContentResponse := mkResponse {
  text : option string;
  candidates : option (list Candidate)
}.

Variable API_KEY : option string.

Definition getAIClient : Result unit :=
  if truthy API_KEY then Ok tt
  else Throw (newError "API_KEY environment variable is missing."%string).

Definition summary_fallback : string :=
  "I'm sorry, I couldn't generate a summary at this time."%string.

(** [summarizeArticles], given how the generateContent call settles. *)
Definition summarizeArticles (reply : Settled GenerateContentResponse) : Result string :=
  _ ← getAIClient;
  response ← await reply;
  mret (orElse (text response) summary_fallback).

(** [response.candidates?.[0]?.content?.parts?.[0]?.inlineData?.data] *)
Definition inlineAudio (response : GenerateContentResponse) : option string :=
  cs ← candidates response;
  c ← cs !! 0%nat;
  ct ← content c;
  ps ← parts ct;
  p ← ps !! 0%nat;
  b ← inlineData p;
  data b.

(** [generateSpeech], given how the generateContent call settles. *)
Definition generateSpeech (reply : Settled GenerateContentResponse) : Result AudioBuffer :=
  _ ← getAIClient;
  response ← await reply;
  let base64Audio := inlineAudio response in
  if negb (truthy base64Audio)
  then Throw (newError "No audio data returned from Gemini."%string)
  else
    let sampleRate := 24000%Z in
    audioBytes ← decode (default EmptyString base64Audio);
    decodeAudioData audioBytes sampleRate 1.

End WithPlatform.

(** ** The prompt of summarizeArticles *)

(** [`--- ARTICLE ${i + 1} ---\n${a}\n`] *)
Definition labelled (i : nat) (a : string) : string :=
  "--- ARTICLE " +:+ pretty (i + 1)%nat +:+ " ---" +:+ line_feed +:+ a +:+ line_feed.

(** The template literal, line by line. *)
Definition prompt (articles : list string) : string :=
  join line_feed
    [ EmptyString;
      "    You are a professional, friendly news anchor preparing a daily briefing.";
      "    I will provide you with several text content pieces.";
      "    ";
      "    Your task:";
      "    1. Synthesize these articles into a single, cohesive spoken-word script.";
      "    2. Use a conversational, engaging tone suitable for a morning commute listener.";
      "    3. Smoothly transition between topics.";
      "    4. Keep the total length around 300-500 words.";
      "    5. Do not include markdown formatting, bullet points, or special characters that are hard to read aloud (like URLs). Write it exactly as it should be spoken.";
      "    6. Start with a friendly greeting like " +:+ double_quote
        +:+ "Good morning, here is your personalized briefing." +:+ double_quote;
      EmptyString;
      "    Articles:";
      "    " +:+ join line_feed (imap labelled articles);
      "  " ]%string.

(** The form of a buffer built from mono 16-bit PCM at 24 kHz: one channel,
    at least one frame, as many samples as frames, each within [-1, 1]. *)
Record speechBuffer (b : AudioBuffer) : Prop := mkSpeechBuffer {
  speech_mono : numberOfChannels b = 1%nat;
  speech_rate : sampleRate b = 24000%Z;
  speech_frames : (1 <= frames b)%nat;
  speech_channel : exists chan, channelData b = [chan] /\ length chan = frames b /\
                                Forall (fun x => (-1 <= x <= 1)%Q) chan;
  speech_duration : (0 < duration b)%Q
}.

(** A fulfilled reply whose first part carries [payload] as inline data. *)
Definition audioReplyOf (payload : string) : Settled GenerateContentResponse :=
  Fulfilled (mkResponse None
    (Some [mkCandidate (Some (mkContent (Some [mkPart (Some (mkBlob (Some payload)))])))])).

(** One browser's exception messages, for running the model. *)
Definition examplePlatform : Platform :=
  mkPlatform
    (newError "Failed to execute 'atob' on 'Window': The string to be decoded is not correctly encoded."%string)
    (newError "byte length of Int16Array should be a multiple of 2"%string)
    (newError "Failed to execute 'createBuffer' on 'BaseAudioContext': The number of frames provided (0) is less than or equal to the minimum bound (0)."%string).

End GeminiService.


(* ===================================================================== *)
(** * The App component: the generation orchestrator *)
(* ===================================================================== *)

Module App.
Import Js GeminiService.

(** ** types.ts *)

Record Article := mkArticle {
  id : string;
  title : string;
  content : string;
  timestamp : Z
}.

Inductive TTSVoice := Kore | Puck | Fenrir | Charon | Zephyr.

Inductive Status := idle | summarizing | generating_audio | ready | error.

Record GenerationState := mkGenerationState {
  status : Status;
  error_message : option string     (* the optional [error] field *)
}.

Definition state_of (st : Status) : GenerationState := mkGenerationState st None.

Record AudioContext := mkAudioContext { contextSampleRate : Z }.

(** ** getFriendlyErrorMessage *)

Definition getFriendlyErrorMessage (e : Error) : string :=
  let msg := toLowerCase (orElse (message e) EmptyString) in
  if includes msg "api_key" || includes msg "apikey" then
    "API Key is missing or invalid. Please check your settings."%string
  else if includes msg "quota" || includes msg "429" then
    "API usage limit exceeded. Please try again later."%string
  else if includes msg "safety" || includes msg "blocked" || includes msg "harmful" then
    "Content was flagged by safety filters. Please review and edit your articles."%string
  else if includes msg "network" || includes msg "fetch" || includes msg "connection" then
    "Network connection error. Please check your internet and try again."%string
  else if includes msg "503" || includes msg "overloaded"
          || includes msg "service unavailable" then
    "The AI service is currently overloaded. Please wait a moment and try again."%string
  else if includes msg "no audio data" then
    "Audio generation failed to return data. Please try again."%string
  else orElse (message e) "An unexpected error occurred. Please try again.".

(** ** Component state *)

(** The useState cells and refs of the component that the orchestrator
    reads or writes. *)
Record State := mkState {
  articles : list Article;
  generationState : GenerationState;
  summaryText : option string;
  audioBuffer : option AudioBuffer;
  selectedVoice : TTSVoice;
  audioContextRef : option AudioContext;
  lastGenRequestRef : Z
}.

(** The component once mounted: the first effect has created the context. *)
Definition initial : State :=
  mkState [] (state_of idle) None None Kore (Some (mkAudioContext 24000)) 0.

Definition setGenerationState (g : GenerationState) (s : State) : State :=
  mkState (articles s) g (summaryText s) (audioBuffer s) (selectedVoice s)
          (audioContextRef s) (lastGenRequestRef s).

Definition setSummaryText (t : option string) (s : State) : State :=
  mkState (articles s) (generationState s) t (audioBuffer s) (selectedVoice s)
          (audioContextRef s) (lastGenRequestRef s).

Definition setAudioBuffer (b : option AudioBuffer) (s : State) : State :=
  mkState (articles s) (generationState s) (summaryText s) b (selectedVoice s)
          (audioContextRef s) (lastGenRequestRef s).

Definition setSelectedVoice (v : TTSVoice) (s : State) : State :=
  mkState (articles s) (generationState s) (summaryText s) (audioBuffer s) v
          (audioContextRef s) (lastGenRequestRef s).

Definition set_lastGenRequestRef (t : Z) (s : State) : State :=
  mkState (articles s) (generationState s) (summaryText s) (audioBuffer s)
          (selectedVoice s) (audioContextRef s) t.

(** The effect on [articles.length]: "Clear state when list becomes empty". *)
Definition queueEmptyEffect (s : State) : State :=
  if (length (articles s) =? 0)%nat then
    setGenerationState (state_of idle) (setSummaryText None (setAudioBuffer None s))
  else s.

(** [setArticles(l)]; the effect above re-runs when the length changed. *)
Definition setArticles (l : list Article) (s : State) : State :=
  let s' := mkState l (generationState s) (summaryText s) (audioBuffer s)
                    (selectedVoice s) (audioContextRef s) (lastGenRequestRef s) in
  if (length l =? length (articles s))%nat then s' else queueEmptyEffect s'.

Definition handleRemoveArticle (i : string) (s : State) : State :=
  setArticles (filter (fun a => id a <> i) (articles s)) s.

(** [confirmed] is the answer to window.confirm. *)
Definition handleClearAll (confirmed : bool) (s : State) : State :=
  if (length (articles s) =? 0)%nat then s
  else if confirmed then setArticles [] s else s.

(** ** handleGenerate, cut at its awaits *)

Inductive Stage :=
| AwaitSummarize                    (* suspended in [await summarizeArticles] *)
| AwaitSpeech (summary : string)    (* suspended in [await generateSpeech] *)
| Returned.

(** One call of handleGenerate: what its closure holds. *)
Record Request := mkRequest {
  currentRequestTime : Z;
  contentList : list string;
  voice : TTSVoice;
  stage : Stage
}.

Definition newline : string := String (ascii_of_N 10) EmptyString.

Definition describe (a : Article) : string :=
  ("Title: " +:+ title a +:+ newline +:+ "Content: " +:+ content a)%string.

(** From the call to the first await; [now] is what Date.now() returns. *)
Definition handleGenerate_call (now : Z) (s : State) : State * option Request :=
  if (length (articles s) =? 0)%nat then (s, None)
  else
    match audioContextRef s with
    | None => (s, None)
    | Some _ =>
        let currentRequestTime := now in
        let s1 := set_lastGenRequestRef currentRequestTime s in
        let s2 := setSummaryText None s1 in
        let s3 := setAudioBuffer None s2 in
        let s4 := setGenerationState (state_of summarizing) s3 in
        (s4, Some (mkRequest currentRequestTime (map describe (articles s))
                             (selectedVoice s) AwaitSummarize))
    end.

(** [lastGenRequestRef.current !== currentRequestTime] *)
Definition stale (r : Request) (s : State) : bool :=
  negb (lastGenRequestRef s =? currentRequestTime r)%Z.

(** The catch block. *)
Definition handleGenerate_catch (r : Request) (e : Error) (s : State) : State :=
  if stale r s then s
  else setGenerationState
         (mkGenerationState error (Some (getFriendlyErrorMessage e))) s.

(** From the first await to the second. *)
Definition handleGenerate_summarized (r : Request) (res : Result string) (s : State)
    : State * Stage :=
  match res with
  | Ok summary =>
      if stale r s then (s, Returned)
      else
        let s1 := setSummaryText (Some summary) s in
        let s2 := setGenerationState (state_of generating_audio) s1 in
        (s2, AwaitSpeech summary)
  | Throw e => (handleGenerate_catch r e s, Returned)
  end.

(** From the second await to the end. *)
Definition handleGenerate_synthesized (r : Request) (res : Result AudioBuffer)
    (s : State) : State :=
  match res with
  | Ok buffer =>
      if stale r s then s
      else setGenerationState (state_of ready) (setAudioBuffer (Some buffer) s)
  | Throw e => handleGenerate_catch r e s
  end.

(** ** The component together with its pending calls *)

(** [requests] lists every call of handleGenerate that got past its guards,
    in the order of issue. *)
Record World := mkWorld {
  app : State;
  requests : list Request
}.

Definition initialWorld : World := mkWorld initial [].

Definition with_stage (st : Stage) (r : Request) : Request :=
  mkRequest (currentRequestTime r) (contentList r) (voice r) st.

Inductive Event :=
| SetArticles (l : list Article)
| RemoveArticle (i : string)
| ClearAll (confirmed : bool)
| SelectVoice (v : TTSVoice)
| Generate (now : Z)
| Summarized (rid : nat) (reply : Settled GenerateContentResponse)
| Synthesized (rid : nat) (reply : Settled GenerateContentResponse).

Section WithEnvironment.
Variable pf : Platform.
Variable API_KEY : option string.

Definition step (ev : Event) (w : World) : World :=
  match ev with
  | SetArticles l => mkWorld (setArticles l (app w)) (requests w)
  | RemoveArticle i => mkWorld (handleRemoveArticle i (app w)) (requests w)
  | ClearAll c => mkWorld (handleClearAll c (app w)) (requests w)
  | SelectVoice v => mkWorld (setSelectedVoice v (app w)) (requests w)
  | Generate now =>
      match handleGenerate_call now (app w) with
      | (s, Some r) => mkWorld s (requests w ++ [r])
      | (s, None) => mkWorld s (requests w)
      end
  | Summarized rid reply =>
      match requests w !! rid with
      | Some r =>
          match stage r with
          | AwaitSummarize =>
              let '(s, st) := handleGenerate_summarized r
                                (summarizeArticles API_KEY reply) (app w) in
              mkWorld s (<[rid := with_stage st r]> (requests w))
          | _ => w
          end
      | None => w
      end
  | Synthesized rid reply =>
      match requests w !! rid with
      | Some r =>
          match stage r with
          | AwaitSpeech _ =>
              let s := handleGenerate_synthesized r
                         (generateSpeech pf API_KEY reply) (app w) in
              mkWorld s (<[rid := with_stage Returned r]> (requests w))
          | _ => w
          end
      | None => w
      end
  end.

Definition run (evs : list Event) (w : World) : World :=
  fold_left (fun w ev => step ev w) evs w.

End WithEnvironment.

(** The issue timestamps of the calls so far, oldest first. *)
Definition issueTimes (w : World) : list Z := map currentRequestTime (requests w).

(** The most recently issued call. *)
Definition lastIssued (w : World) : option nat :=
  match length (requests w) with
  | O => None
  | S n => Some n
  end.

(** The ref holds the timestamp of the last call issued. *)
Definition ref_is_last (w : World) : Prop :=
  forall t, last (issueTimes w) = Some t -> lastGenRequestRef (app w) = t.

(** An event other than the completion of a superseded call. *)
Definition live (w : World) (ev : Event) : bool :=
  match ev with
  | Summarized rid _ | Synthesized rid _ => bool_decide (lastIssued w = Some rid)
  | _ => true
  end.

(** The run from which the completions of superseded calls are left out. *)
Fixpoint run_live (pf : Platform) (API_KEY : option string)
    (evs : list Event) (w : World) : World :=
  match evs with
  | [] => w
  | ev :: evs' =>
      run_live pf API_KEY evs' (if live w ev then step pf API_KEY ev w else w)
  end.

(** Two worlds that show the same component state and agree on the calls
    issued and on the last of them. *)
Record same_view (w w' : World) : Prop := mkSameView {
  view_app : app w = app w';
  view_times : issueTimes w = issueTimes w';
  view_last : last (requests w) = last (requests w')
}.

(** Sample data for running the model. *)
Definition sampleArticle : Article :=
  mkArticle "k3x9" "Markets" "Stocks rose on Tuesday." 1700000000000.

Definition textReply (t : string) : Settled GenerateContentResponse :=
  Fulfilled (mkResponse (Some t) None).

Definition audioReply (payload : string) : Settled GenerateContentResponse :=
  Fulfilled (mkResponse None
    (Some [mkCandidate (Some (mkContent (Some [mkPart (Some (mkBlob (Some payload)))])))])).

(** What the component shows of a generation. *)
Definition published (s : State) : GenerationState * option string * option AudioBuffer :=
  (generationState s, summaryText s, audioBuffer s).

(** What the published state satisfies after every event: a ready state has
    its buffer, a published buffer has the form of decoded speech, the error
    state and the error text go together, and the audio context stays. *)
Record coherent (s : State) : Prop := mkCoherent {
  coherent_ready : status (generationState s) = ready -> is_Some (audioBuffer s);
  coherent_buffer : forall b, audioBuffer s = Some b -> speechBuffer b;
  coherent_error : status (generationState s) = error
                   <-> is_Some (error_message (generationState s));
  coherent_message : forall m, error_message (generationState s) = Some m ->
                     m <> EmptyString;
  coherent_context : audioContextRef s = Some (mkAudioContext 24000)
}.


End App.


(* ===================================================================== *)
(** * The Player component *)
(* ===================================================================== *)

Module Player.

(** An AudioBufferSourceNode, as far as the component touches it. *)
Record AudioBufferSourceNode := mkSource {
  detune : Z;        (* source.detune.value, in cents *)
  onended : bool;    (* the handler installed by playAudio is still attached *)
  startOffset : Q;   (* the offset given to source.start(0, offset) *)
  stopped : bool     (* source.stop() has been called *)
}.

(** The useState cells and useRef boxes of the component.  [nodes] is the
    heap of source nodes created so far; [sourceNodeRef] points into it.
    [animationFrameRef] records whether a requestAnimationFrame callback is
    pending. *)
Record State := mkState {
  isPlaying : bool;
  progress : Q;
  pitch : Z;
  sourceNodeRef : option nat;
  startTimeRef : Q;
  pauseTimeRef : Q;
  animationFrameRef : bool;
  nodes : list AudioBufferSourceNode
}.

Definition initial : State :=
  mkState false 0%Q 0%Z None 0%Q 0%Q false [].

Definition pitchInput_step : Z := 10%Z.


(** ** Field updates *)

Definition with_progress (p : Q) (s : State) : State :=
  mkState (isPlaying s) p (pitch s) (sourceNodeRef s) (startTimeRef s)
          (pauseTimeRef s) (animationFrameRef s) (nodes s).

Definition with_sourceNodeRef (r : option nat) (s : State) : State :=
  mkState (isPlaying s) (progress s) (pitch s) r (startTimeRef s)
          (pauseTimeRef s) (animationFrameRef s) (nodes s).

Definition with_startTimeRef (t : Q) (s : State) : State :=
  mkState (isPlaying s) (progress s) (pitch s) (sourceNodeRef s) t
          (pauseTimeRef s) (animationFrameRef s) (nodes s).

Definition with_pauseTimeRef (t : Q) (s : State) : State :=
  mkState (isPlaying s) (progress s) (pitch s) (sourceNodeRef s)
          (startTimeRef s) t (animationFrameRef s) (nodes s).

Definition with_animationFrameRef (b : bool) (s : State) : State :=
  mkState (isPlaying s) (progress s) (pitch s) (sourceNodeRef s)
          (startTimeRef s) (pauseTimeRef s) b (nodes s).

Definition with_nodes (l : list AudioBufferSourceNode) (s : State) : State :=
  mkState (isPlaying s) (progress s) (pitch s) (sourceNodeRef s)
          (startTimeRef s) (pauseTimeRef s) (animationFrameRef s) l.

(** ** Operations on a source node *)

Definition set_detune (v : Z) (n : AudioBufferSourceNode) :=
  mkSource v (onended n) (startOffset n) (stopped n).

(** [node.onended = null; node.stop()] *)
Definition detach_and_stop (n : AudioBufferSourceNode) :=
  mkSource (detune n) false (startOffset n) true.

Definition update_node (k : nat) (f : AudioBufferSourceNode -> AudioBufferSourceNode)
    (s : State) : State :=
  match nodes s !! k with
  | Some n => with_nodes (<[k := f n]> (nodes s)) s
  | None => s
  end.

(** The node [sourceNodeRef.current] points to, if any. *)
Definition currentSource (s : State) : option AudioBufferSourceNode :=
  match sourceNodeRef s with
  | Some k => nodes s !! k
  | None => None
  end.

(** ** State setters together with the effects that depend on them *)

(** [setIsPlaying(b)].  A change of [isPlaying] re-runs the effect that
    requests an animation frame when playing and cancels it otherwise; an
    unchanged value causes no render and no effect. *)
Definition setIsPlaying (b : bool) (s : State) : State :=
  if Bool.eqb (isPlaying s) b then s
  else mkState b (progress s) (pitch s) (sourceNodeRef s) (startTimeRef s)
               (pauseTimeRef s) b (nodes s).

Definition setProgress (p : Q) (s : State) : State := with_progress p s.

(** [setPitch(v)] followed by the detune effect:
    [if (sourceNodeRef.current) sourceNodeRef.current.detune.value = pitch]. *)
Definition setPitch (v : Z) (s : State) : State :=
  if Z.eqb (pitch s) v then s
  else
    let s1 := mkState (isPlaying s) (progress s) v (sourceNodeRef s)
                      (startTimeRef s) (pauseTimeRef s) (animationFrameRef s)
                      (nodes s) in
    match sourceNodeRef s1 with
    | Some k => update_node k (set_detune v) s1
    | None => s1
    end.

(** ** Transport *)

Definition playAudio (now : Q) (s : State) : State :=
  let source := mkSource (pitch s) true (pauseTimeRef s) false in
  let k := length (nodes s) in
  let s1 := with_nodes (nodes s ++ [source]) s in
  let s2 := with_startTimeRef now s1 in
  let s3 := with_sourceNodeRef (Some k) s2 in
  setIsPlaying true s3.

Definition pauseAudio (now : Q) (s : State) : State :=
  match sourceNodeRef s with
  | Some k =>
      let s1 := update_node k detach_and_stop s in
      let s2 := with_sourceNodeRef None s1 in
      let s3 := with_pauseTimeRef (pauseTimeRef s2 + (now - startTimeRef s2))%Q s2 in
      setIsPlaying false s3
  | None => s
  end.

Definition stopAudio (s : State) : State :=
  let s1 := match sourceNodeRef s with
            | Some k => with_sourceNodeRef None (update_node k detach_and_stop s)
            | None => s
            end in
  let s2 := setIsPlaying false s1 in
  let s3 := with_pauseTimeRef 0%Q s2 in
  let s4 := setProgress 0%Q s3 in
  with_animationFrameRef false s4.

Definition togglePlay (now : Q) (s : State) : State :=
  if isPlaying s then pauseAudio now s
  else
    let s1 := if Qle_bool 100 (progress s) then with_pauseTimeRef 0%Q s else s in
    playAudio now s1.

(** The body of the handler that playAudio installs as [source.onended]. *)
Definition onended_handler (s : State) : State :=
  match sourceNodeRef s with
  | Some _ =>
      let s1 := setIsPlaying false s in
      let s2 := with_pauseTimeRef 0%Q s1 in
      let s3 := setProgress 100%Q s2 in
      with_sourceNodeRef None s3
  | None => s
  end.

(** [ended] is dispatched on node [k]: its handler runs if one is attached. *)
Definition ended (k : nat) (s : State) : State :=
  match nodes s !! k with
  | Some n => if onended n then onended_handler s else s
  | None => s
  end.

(** When the browser can dispatch [ended] on node [k]: the node was halted
    with stop(), or it is the source now sounding and has played to its end.
    (The event is dispatched once per node; a node that already ended
    naturally is neither stopped nor current any more.) *)
Definition dispatchable (k : nat) (s : State) : bool :=
  match nodes s !! k with
  | Some n => stopped n || bool_decide (sourceNodeRef s = Some k)
  | None => false
  end.

Definition Qltb (x y : Q) : bool := negb (Qle_bool y x).

Section WithBuffer.

(** [audioBuffer.duration] of the buffer handed to the component. *)
Variable duration : Q.

Definition elapsedAt (now : Q) (s : State) : Q :=
  (now - startTimeRef s + pauseTimeRef s)%Q.

Definition updateProgress (now : Q) (s : State) : State :=
  let elapsed := elapsedAt now s in
  let p := Qmin ((elapsed / duration) * 100) 100 in
  let s1 := setProgress p s in
  if Qltb elapsed duration && isPlaying s
  then with_animationFrameRef true s1
  else with_animationFrameRef false s1.

(** The value [updateProgress] reports at clock reading [now]. *)
Definition progressAt (now : Q) (s : State) : Q :=
  Qmin ((elapsedAt now s / duration) * 100) 100.

(** A pending animation frame fires. *)
Definition animationFrame (now : Q) (s : State) : State :=
  if animationFrameRef s then updateProgress now s else s.

(** ** Everything that can happen to a mounted component *)

Inductive Event :=
| TogglePlay (now : Q)      (* click on the play / pause button *)
| StopClick                 (* click on the restart button *)
| PitchInput (v : Z)        (* onChange of the range input *)
| Frame (now : Q)           (* animation frame *)
| Ended (k : nat).          (* [ended] dispatched on source node [k] *)

Definition step (ev : Event) (s : State) : State :=
  match ev with
  | TogglePlay now => togglePlay now s
  | StopClick => stopAudio s
  | PitchInput v => setPitch v s
  | Frame now => animationFrame now s
  | Ended k => if dispatchable k s then ended k s else s
  end.

Definition run (evs : list Event) (s : State) : State :=
  fold_left (fun s ev => step ev s) evs s.

Inductive reachable : State -> Prop :=
| reachable_initial : reachable initial
| reachable_step ev s : reachable s -> reachable (step ev s).



(** The context clock never runs backwards: successive readings, starting
    from [t], do not decrease. *)
Fixpoint clockMonotone (t : Q) (evs : list Event) : Prop :=
  match evs with
  | [] => True
  | TogglePlay now :: evs' => (t <= now)%Q /\ clockMonotone now evs'
  | Frame now :: evs' => (t <= now)%Q /\ clockMonotone now evs'
  | _ :: evs' => clockMonotone t evs'
  end.

End WithBuffer.

(** The invariant of the refs: the transport flag mirrors the presence of a
    source, the current source carries the handler and the current pitch, and
    every node that was halted with stop() has had its handler removed. *)
Record Inv (s : State) : Prop := mkInv {
  inv_playing : isPlaying s = bool_decide (is_Some (sourceNodeRef s));
  inv_current : forall k, sourceNodeRef s = Some k ->
      exists n, nodes s !! k = Some n /\ onended n = true /\ detune n = pitch s
                /\ stopped n = false;
  inv_detached : forall k n, nodes s !! k = Some n -> stopped n = true ->
      onended n = false;
  inv_frame : animationFrameRef s = true -> isPlaying s = true
}.

(** Nodes halted with stop() in [s] are still there, and still halted, in [s']. *)
Definition halted_kept (s s' : State) : Prop :=
  forall k n, nodes s !! k = Some n -> stopped n = true ->
    exists n', nodes s' !! k = Some n' /\ stopped n' = true.

(** ** The time display *)

(** Truncation toward zero, and [x % y] on numbers. *)
Definition Qtrunc (x : Q) : Z := if Qle_bool 0 x then Qfloor x else Qceiling x.

Definition Qrem (x y : Q) : Q := (x - y * inject_Z (Qtrunc (x / y)))%Q.

(** [s.padStart(n, c)] for a pad of one character. *)
Definition padStart (n : nat) (c : ascii) (s : string) : string :=
  string_of_list_ascii (repeat c (n - String.length s)) +:+ s.

Definition formatTime (seconds : Q) : string :=
  let m := Qfloor (seconds / 60) in
  let s := Qfloor (Qrem seconds 60) in
  pretty m +:+ ":" +:+ padStart 2 "0" (pretty s).

Definition currentSeconds (duration : Q) (s : State) : Q :=
  ((progress s / 100) * duration)%Q.

(** ** Which sources sound *)

(** A source sounds from its start() until stop() is called on it or its
    [ended] event is dispatched.  [sounding] follows the sources that sound
    through the events of a run. *)
Definition halted (s : State) (k : nat) : bool :=
  match nodes s !! k with
  | Some n => stopped n
  | None => false
  end.

(** The nodes created, and started, between [s] and [s']. *)
Definition started (s s' : State) : list nat :=
  seq (length (nodes s)) (length (nodes s') - length (nodes s)).

Definition sounding_step (duration : Q) (ev : Event) (s : State) (snd : list nat)
    : list nat :=
  let s' := step duration ev s in
  let after := filter (fun k => halted s' k = false) (snd ++ started s s') in
  match ev with
  | Ended k => if dispatchable k s then filter (fun j => j <> k) after else after
  | _ => after
  end.

Fixpoint sounding (duration : Q) (evs : list Event) (s : State) (snd : list nat)
    : list nat :=
  match evs with
  | [] => snd
  | ev :: evs' => sounding duration evs' (step duration ev s) (sounding_step duration ev s snd)
  end.

(** The source the ref points to, as a list. *)
Definition current (s : State) : list nat :=
  match sourceNodeRef s with
  | Some k => [k]
  | None => []
  end.

(** ** The refs against the clock *)

(** The clock reading after the events of a run that started at reading [t]. *)
Fixpoint clockAfter (t : Q) (evs : list Event) : Q :=
  match evs with
  | [] => t
  | TogglePlay now :: evs' => clockAfter now evs'
  | Frame now :: evs' => clockAfter now evs'
  | _ :: evs' => clockAfter t evs'
  end.

Record inBounds (t : Q) (s : State) : Prop := mkInBounds {
  bounds_progress : (0 <= progress s <= 100)%Q;
  bounds_pause : (0 <= pauseTimeRef s)%Q;
  bounds_start : isPlaying s = true -> (startTimeRef s <= t)%Q;
  bounds_offsets : Forall (fun n => (0 <= startOffset n)%Q) (nodes s)
}.

End Player.

(* ===================================================================== *)
(** * The App component as a whole: form, queue buttons, auto-update *)
(* ===================================================================== *)

Module Component.
Import Js GeminiService App.

Definition MAX_CHARS : nat := 5000.

(** ** String.prototype.trim *)

(** White space and line terminators among the ASCII characters: TAB, LF,
    VT, FF, CR and SPACE.  (Text typed into the form is modelled as ASCII.) *)
Definition is_white_space (c : ascii) : bool :=
  let n := N_of_ascii c in
  ((9 <=? n) && (n <=? 13) || (n =? 32))%N.

Fixpoint trimStart (s : string) : string :=
  match s with
  | EmptyString => EmptyString
  | String c r => if is_white_space c then trimStart r else s
  end.

Fixpoint trimEnd (s : string) : string :=
  match s with
  | EmptyString => EmptyString
  | String c r =>
      match trimEnd r with
      | EmptyString => if is_white_space c then EmptyString else String c EmptyString
      | r' => String c r'
      end
  end.

Definition trim (s : string) : string := trimEnd (trimStart s).

(** ** State *)

#[global] Instance TTSVoice_eq_dec : EqDecision TTSVoice.
Proof. solve_decision. Defined.

(** The orchestrator's state and pending calls, the two form fields, the
    auto-update switch, and whether the timeout set by the auto-generate
    effect is pending (the effect's cleanup clears the previous one, so there
    is at most one). *)
Record State := mkComponent {
  world : World;
  inputText : string;
  inputTitle : string;
  autoGenerate : bool;
  timer : bool
}.

Definition initial : State :=
  mkComponent initialWorld EmptyString EmptyString false false.

Definition queue (s : State) : list Article := articles (app (world s)).

Definition on_world (f : World -> World) (s : State) : State :=
  mkComponent (f (world s)) (inputText s) (inputTitle s) (autoGenerate s) (timer s).

Definition on_app (f : App.State -> App.State) (s : State) : State :=
  on_world (fun w => mkWorld (f (app w)) (requests w)) s.

Definition setInputText (v : string) (s : State) : State :=
  mkComponent (world s) v (inputTitle s) (autoGenerate s) (timer s).

Definition setInputTitle (v : string) (s : State) : State :=
  mkComponent (world s) (inputText s) v (autoGenerate s) (timer s).

Definition with_timer (b : bool) (s : State) : State :=
  mkComponent (world s) (inputText s) (inputTitle s) (autoGenerate s) b.

(** ** The auto-generate effect *)

(** One run of the effect on [articles, autoGenerate, handleGenerate]: the
    cleanup of the previous run clears its timeout, then a new one is set
    "if (autoGenerate && articles.length > 0)". *)
Definition autoGenerateEffect (s : State) : State :=
  with_timer (autoGenerate s && (0 <? length (queue s))%nat) s.

(** [setArticles(l)] is always given a fresh array, so the effect re-runs. *)
Definition setArticles (l : list Article) (s : State) : State :=
  autoGenerateEffect (on_app (App.setArticles l) s).

(** A new voice gives a new handleGenerate, so the effect re-runs; the same
    voice causes no render. *)
Definition setSelectedVoice (v : TTSVoice) (s : State) : State :=
  if bool_decide (selectedVoice (app (world s)) = v) then s
  else autoGenerateEffect (on_app (App.setSelectedVoice v) s).

Definition setAutoGenerate (b : bool) (s : State) : State :=
  if Bool.eqb (autoGenerate s) b then s
  else autoGenerateEffect
         (mkComponent (world s) (inputText s) (inputTitle s) b (timer s)).

(** ** Handlers *)

(** [newId] is what generateId() returns and [now] what Date.now() returns. *)
Definition handleAddArticle (newId : string) (now : Z) (s : State) : State :=
  if negb (truthy (Some (trim (inputText s)))) then s
  else
    let newArticle :=
      mkArticle newId
        (orElse (Some (trim (inputTitle s)))
                ("Article " +:+ pretty (length (queue s) + 1)%nat))
        (trim (inputText s))
        now in
    let s1 := setArticles (queue s ++ [newArticle]) s in
    let s2 := setInputText EmptyString s1 in
    setInputTitle EmptyString s2.

Definition handleRemoveArticle (i : string) (s : State) : State :=
  setArticles (filter (fun a => id a <> i) (queue s)) s.

Definition handleClearAll (confirmed : bool) (s : State) : State :=
  if (length (queue s) =? 0)%nat then s
  else if confirmed then setArticles [] s else s.

(** The generate button is rendered and enabled. *)
Definition generateButton (s : State) : bool :=
  (0 <? length (queue s))%nat
  && match status (generationState (app (world s))) with
     | idle | error | ready => true
     | summarizing | generating_audio => false
     end
  && negb (autoGenerate s).

(** ** Everything that can happen to the mounted component *)

Inductive Event :=
| InputText (v : string)              (* onChange of the textarea *)
| InputTitle (v : string)             (* onChange of the title field *)
| AddClick (newId : string) (now : Z) (* "Add to Briefing" *)
| RemoveClick (k : nat)               (* the remove button of the k-th article shown *)
| ClearAllClick (confirmed : bool)    (* "Clear All" and the answer to the dialog *)
| VoiceChange (v : TTSVoice)
| AutoToggle (checked : bool)
| GenerateClick (now : Z)
| TimerFired (now : Z)                (* the timeout of the effect runs out *)
| SummaryReply (rid : nat) (reply : Settled GenerateContentResponse)
| SpeechReply (rid : nat) (reply : Settled GenerateContentResponse).

Section WithEnvironment.
Variable pf : Platform.
Variable API_KEY : option string.

Definition step (ev : Event) (s : State) : State :=
  match ev with
  | InputText v =>
      (* maxLength={MAX_CHARS} *)
      if (String.length v <=? MAX_CHARS)%nat then setInputText v s else s
  | InputTitle v => setInputTitle v s
  | AddClick newId now => handleAddArticle newId now s
  | RemoveClick k =>
      match queue s !! k with
      | Some a => handleRemoveArticle (id a) s
      | None => s
      end
  | ClearAllClick c => handleClearAll c s
  | VoiceChange v => setSelectedVoice v s
  | AutoToggle b => setAutoGenerate b s
  | GenerateClick now =>
      if generateButton s then on_world (App.step pf API_KEY (Generate now)) s else s
  | TimerFired now =>
      if timer s
      then on_world (App.step pf API_KEY (Generate now)) (with_timer false s)
      else s
  | SummaryReply rid reply => on_world (App.step pf API_KEY (Summarized rid reply)) s
  | SpeechReply rid reply => on_world (App.step pf API_KEY (Synthesized rid reply)) s
  end.

Definition run (evs : list Event) (s : State) : State :=
  fold_left (fun s ev => step ev s) evs s.

End WithEnvironment.

(** A pending timer belongs to an enabled switch and a non-empty queue. *)
Definition armed (s : State) : Prop :=
  timer s = true -> autoGenerate s = true /\ queue s <> [].

(** What is asked of every queued article. *)
Record clean (a : Article) : Prop := mkClean {
  clean_content : content a <> EmptyString;
  clean_trimmed : trim (content a) = content a;
  clean_length : (String.length (content a) <= MAX_CHARS)%nat;
  clean_title : title a <> EmptyString
}.

End Component.

(* ===================================================================== *)
(** * Facts about the string operations *)
(* ===================================================================== *)

Module JsFacts.
Import Js.

Lemma append_cons c (a b : string) : String c a +:+ b = String c (a +:+ b).
Proof. reflexivity. Qed.

Lemma append_nil_l (b : string) : EmptyString +:+ b = b.
Proof. reflexivity. Qed.

Ltac unfold_app := rewrite ?append_cons, ?append_nil_l in *.

Lemma append_assoc_s (a b c : string) : (a +:+ b) +:+ c = a +:+ (b +:+ c).
Proof. induction a as [|x a IH]; unfold_app; [done|by f_equal]. Qed.

Lemma append_nil_r (a : string) : a +:+ EmptyString = a.
Proof. induction a as [|x a IH]; unfold_app; [done|by f_equal]. Qed.

Lemma prefix_spec s : forall n,
  String.prefix n s = true <-> exists post, s = n +:+ post.
Proof.
  induction s as [|d s IH]; intros [|c n]; simpl.
  - split; [by exists EmptyString|done].
  - split; [done|]. intros [post H]. unfold_app. discriminate.
  - split; [eauto|done].
  - destruct (ascii_dec c d) as [->|Hne].
    + rewrite IH. split; intros [post H]; exists post; unfold_app.
      * by rewrite H.
      * by injection H.
    + split; [done|]. intros [post H]. unfold_app. injection H as H1 H2. congruence.
Qed.

(** [includes] finds the needle exactly when the string splits around it. *)
Lemma includes_spec s : forall n,
  includes s n = true <-> exists pre post, s = pre +:+ n +:+ post.
Proof.
  induction s as [|c s IH]; intros n.
  - cbn [includes]. rewrite orb_false_r, prefix_spec. split.
    + intros [post H]. by exists EmptyString, post.
    + intros (pre & post & H). destruct pre; unfold_app; [eauto|discriminate].
  - cbn [includes]. rewrite orb_true_iff, prefix_spec, IH. split.
    + intros [[post H]|(pre & post & H)].
      * by exists EmptyString, post.
      * exists (String c pre), post. unfold_app. by rewrite H.
    + intros (pre & post & H). destruct pre as [|d pre]; unfold_app.
      * left. eauto.
      * right. injection H as _ H. eauto.
Qed.

Lemma toLowerCase_app a b : toLowerCase (a +:+ b) = toLowerCase a +:+ toLowerCase b.
Proof.
  induction a as [|c a IH]; unfold_app; [done|].
  cbn [toLowerCase]. unfold_app. by f_equal.
Qed.

Lemma toLowerCase_split x : forall m y,
  toLowerCase m = x +:+ y ->
  exists a b, m = a +:+ b /\ toLowerCase a = x /\ toLowerCase b = y.
Proof.
  induction x as [|c x IH]; intros m y H; unfold_app.
  - by exists EmptyString, m.
  - destruct m as [|d m]; [discriminate|]. cbn [toLowerCase] in H.
    injection H as Hc H.
    destruct (IH m y H) as (a & b & -> & Ha & Hb).
    exists (String d a), b. cbn [toLowerCase]. by rewrite Hc, Ha.
Qed.

(** Searching the lower-cased message finds a lower-case keyword exactly
    when the message holds it in some mix of cases. *)
Lemma includes_toLowerCase m kw :
  includes (toLowerCase m) kw = true <-> mentions m kw.
Proof.
  rewrite includes_spec. unfold mentions. split.
  - intros (pre & post & H).
    destruct (toLowerCase_split pre m _ H) as (a & rest & -> & Ha & Hrest).
    destruct (toLowerCase_split kw rest _ Hrest) as (b & c & -> & Hb & Hc).
    by exists a, b, c.
  - intros (pre & mid & post & -> & Hmid).
    exists (toLowerCase pre), (toLowerCase post).
    by rewrite !toLowerCase_app, Hmid.
Qed.

Lemma includes_false_iff m kw :
  includes (toLowerCase m) kw = false <-> ~ mentions m kw.
Proof.
  rewrite <- includes_toLowerCase. by destruct (includes _ _).
Qed.

Lemma join_cons sep x y l :
  join sep (x :: y :: l) = x +:+ sep +:+ join sep (y :: l).
Proof. done. Qed.

(** An element of a joined list, with what comes before and after it. *)
Lemma join_middle sep l1 x l2 :
  exists pre post,
    join sep (l1 ++ x :: l2) = pre +:+ x +:+ post /\
    (l2 = [] -> post = EmptyString) /\
    (l2 <> [] -> post = sep +:+ join sep l2).
Proof.
  induction l1 as [|z l1 (pre & post & E & H2 & H3)].
  - destruct l2 as [|y l2].
    + exists EmptyString, EmptyString. cbn [app join]. unfold_app.
      by rewrite append_nil_r.
    + exists EmptyString, (sep +:+ join sep (y :: l2)). by repeat split.
  - exists (z +:+ sep +:+ pre), post. repeat split; try done.
    destruct (l1 ++ x :: l2) as [|w r] eqn:El.
    { by destruct l1. }
    rewrite <- app_comm_cons, El, join_cons, E.
    by rewrite !append_assoc_s.
Qed.

End JsFacts.

(* ===================================================================== *)
(** * Facts about the decoding helpers *)
(* ===================================================================== *)

Module GeminiServiceFacts.
Import Js GeminiService.
Local Open Scope Z_scope.

Lemma charCodes_bytes s : Forall is_byte (charCodes s).
Proof.
  unfold charCodes. apply Forall_fmap, Forall_forall. intros c _.
  unfold is_byte, compose. pose proof (N_ascii_bounded c). lia.
Qed.

(** The test vectors of RFC 4648, white space that is skipped, and strings
    that are refused. *)
Example atob_vectors :
  atob examplePlatform "Zg==" = Ok "f"%string /\
  atob examplePlatform "Zm8=" = Ok "fo"%string /\
  atob examplePlatform "Zm9v" = Ok "foo"%string /\
  atob examplePlatform "Zm9vYg" = Ok "foob"%string /\
  atob examplePlatform "Zm9vYmE=" = Ok "fooba"%string /\
  atob examplePlatform " Zm9v YmFy " = Ok "foobar"%string /\
  atob examplePlatform EmptyString = Ok EmptyString /\
  atob examplePlatform "Z" = Throw (InvalidCharacterError examplePlatform) /\
  atob examplePlatform "Zg=" = Throw (InvalidCharacterError examplePlatform) /\
  atob examplePlatform "Zm9v-mFy" = Throw (InvalidCharacterError examplePlatform).
Proof. repeat split. Qed.

(** ** atob undoes the standard encoding *)

Lemma land_shiftl_low hi lo k :
  0 <= k -> 0 <= lo < 2 ^ k -> Z.land (Z.shiftl hi k) lo = 0.
Proof.
  intros Hk [Hlo Hlt]. apply Z.bits_inj'. intros n Hn.
  rewrite Z.land_spec, Z.bits_0.
  destruct (Z.lt_ge_cases n k) as [Hnk|Hnk].
  - by rewrite (Z.shiftl_spec_low hi k n Hnk).
  - assert (Z.testbit lo n = false) as ->; [|apply andb_false_r].
    destruct (Z.eq_dec lo 0) as [->|Hne]; [apply Z.bits_0|].
    apply Z.bits_above_log2; [done|].
    assert (Z.log2 lo < k); [|lia].
    apply Z.log2_lt_pow2; lia.
Qed.

Lemma lor_shiftl_add hi lo k :
  0 <= k -> 0 <= lo < 2 ^ k -> Z.lor (Z.shiftl hi k) lo = hi * 2 ^ k + lo.
Proof.
  intros Hk Hlo. rewrite <- Z.add_nocarry_lor by (by apply land_shiftl_low).
  by rewrite Z.shiftl_mul_pow2.
Qed.

Lemma land_ones_mod a k m :
  0 <= k -> m = Z.ones k -> Z.land a m = a mod 2 ^ k.
Proof. intros Hk ->. by apply Z.land_ones. Qed.

(** Three bytes, their four sextets, and back. *)
Lemma sextets_of_three a b c :
  is_byte a -> is_byte b -> is_byte c ->
  let s1 := Z.shiftr a 2 in
  let s2 := Z.lor (Z.shiftl (Z.land a 3) 4) (Z.shiftr b 4) in
  let s3 := Z.lor (Z.shiftl (Z.land b 15) 2) (Z.shiftr c 6) in
  let s4 := Z.land c 63 in
  let w := Z.lor (Z.lor (Z.shiftl s1 18) (Z.shiftl s2 12)) (Z.lor (Z.shiftl s3 6) s4) in
  (is_sextet s1 /\ is_sextet s2 /\ is_sextet s3 /\ is_sextet s4) /\
  Z.shiftr w 16 = a /\ Z.land (Z.shiftr w 8) 255 = b /\ Z.land w 255 = c.
Proof.
  intros Ha Hb Hc s1 s2 s3 s4 w. unfold is_byte, is_sextet in *.
  assert (E1 : s1 = a / 4) by (subst s1; by rewrite Z.shiftr_div_pow2).
  assert (E2 : s2 = (a mod 4) * 16 + b / 16).
  { subst s2. rewrite (land_ones_mod a 2 3), Z.shiftr_div_pow2 by done.
    rewrite lor_shiftl_add; [done|lia|]. change (2 ^ 4) with 16.
    Z.div_mod_to_equations. lia. }
  assert (E3 : s3 = (b mod 16) * 4 + c / 64).
  { subst s3. rewrite (land_ones_mod b 4 15), Z.shiftr_div_pow2 by done.
    rewrite lor_shiftl_add; [done|lia|]. change (2 ^ 2) with 4. change (2 ^ 6) with 64.
    Z.div_mod_to_equations. lia. }
  assert (E4 : s4 = c mod 64) by (subst s4; by rewrite (land_ones_mod c 6 63)).
  assert (R : (0 <= s1 < 64 /\ 0 <= s2 < 64 /\ 0 <= s3 < 64 /\ 0 <= s4 < 64)).
  { rewrite E1, E2, E3, E4. change (2 ^ 2) with 4. change (2 ^ 4) with 16.
    Z.div_mod_to_equations. lia. }
  split; [exact R|].
  assert (Ew : w = s1 * 262144 + s2 * 4096 + s3 * 64 + s4).
  { subst w. rewrite (lor_shiftl_add s3 s4 6) by lia.
    rewrite (Z.shiftl_mul_pow2 s2 12) by lia.
    change (2 ^ 12) with 4096. change (2 ^ 6) with 64.
    rewrite (lor_shiftl_add s1 (s2 * 4096) 18);
      [|lia|change (2 ^ 18) with 262144; lia].
    change (2 ^ 18) with 262144.
    replace (s1 * 262144 + s2 * 4096) with (Z.shiftl (s1 * 64 + s2) 12)
      by (rewrite Z.shiftl_mul_pow2 by lia; change (2 ^ 12) with 4096; lia).
    rewrite lor_shiftl_add; [|lia|change (2 ^ 12) with 4096; lia].
    rewrite Z.shiftl_mul_pow2 by lia. change (2 ^ 12) with 4096. lia. }
  rewrite Ew, !Z.shiftr_div_pow2 by lia.
  rewrite (land_ones_mod _ 8 255), (land_ones_mod _ 8 255) by done.
  rewrite E1, E2, E3, E4.
  change (2 ^ 16) with 65536. change (2 ^ 8) with 256.
  change (2 ^ 2) with 4. change (2 ^ 4) with 16. change (2 ^ 6) with 64.
  Z.div_mod_to_equations. lia.
Qed.

(** Two bytes and their three sextets. *)
Lemma sextets_of_two a b :
  is_byte a -> is_byte b ->
  let s1 := Z.shiftr a 2 in
  let s2 := Z.lor (Z.shiftl (Z.land a 3) 4) (Z.shiftr b 4) in
  let s3 := Z.shiftl (Z.land b 15) 2 in
  let w := Z.shiftr (Z.lor (Z.lor (Z.shiftl s1 12) (Z.shiftl s2 6)) s3) 2 in
  (is_sextet s1 /\ is_sextet s2 /\ is_sextet s3) /\
  Z.shiftr w 8 = a /\ Z.land w 255 = b.
Proof.
  intros Ha Hb s1 s2 s3 w. unfold is_byte, is_sextet in *.
  assert (E1 : s1 = a / 4) by (subst s1; by rewrite Z.shiftr_div_pow2).
  assert (E2 : s2 = (a mod 4) * 16 + b / 16).
  { subst s2. rewrite (land_ones_mod a 2 3), Z.shiftr_div_pow2 by done.
    rewrite lor_shiftl_add; [done|lia|]. change (2 ^ 4) with 16.
    Z.div_mod_to_equations. lia. }
  assert (E3 : s3 = (b mod 16) * 4).
  { subst s3. by rewrite (land_ones_mod b 4 15), Z.shiftl_mul_pow2. }
  assert (R : (0 <= s1 < 64 /\ 0 <= s2 < 64 /\ 0 <= s3 < 64)).
  { rewrite E1, E2, E3. change (2 ^ 2) with 4. change (2 ^ 4) with 16.
    Z.div_mod_to_equations. lia. }
  split; [exact R|].
  assert (Ew : w = (s1 * 4096 + s2 * 64 + s3) / 4).
  { subst w. rewrite Z.shiftr_div_pow2 by lia. change (2 ^ 2) with 4. f_equal.
    rewrite (Z.shiftl_mul_pow2 s2 6) by lia. change (2 ^ 6) with 64.
    rewrite (lor_shiftl_add s1 (s2 * 64) 12);
      [|lia|change (2 ^ 12) with 4096; lia].
    change (2 ^ 12) with 4096.
    replace (s1 * 4096 + s2 * 64) with (Z.shiftl (s1 * 64 + s2) 6)
      by (rewrite Z.shiftl_mul_pow2 by lia; change (2 ^ 6) with 64; lia).
    rewrite lor_shiftl_add; [|lia|change (2 ^ 6) with 64; lia].
    rewrite Z.shiftl_mul_pow2 by lia. change (2 ^ 6) with 64. lia. }
  rewrite Ew, !Z.shiftr_div_pow2 by lia. rewrite (land_ones_mod _ 8 255) by done.
  rewrite E1, E2, E3.
  change (2 ^ 8) with 256. change (2 ^ 2) with 4. change (2 ^ 4) with 16.
  Z.div_mod_to_equations. lia.
Qed.

(** One byte and its two sextets. *)
Lemma sextets_of_one a :
  is_byte a ->
  let s1 := Z.shiftr a 2 in
  let s2 := Z.shiftl (Z.land a 3) 4 in
  (is_sextet s1 /\ is_sextet s2) /\
  Z.shiftr (Z.lor (Z.shiftl s1 6) s2) 4 = a.
Proof.
  intros Ha s1 s2. unfold is_byte, is_sextet in *.
  assert (E1 : s1 = a / 4) by (subst s1; by rewrite Z.shiftr_div_pow2).
  assert (E2 : s2 = (a mod 4) * 16).
  { subst s2. by rewrite (land_ones_mod a 2 3), Z.shiftl_mul_pow2. }
  assert (R : (0 <= s1 < 64 /\ 0 <= s2 < 64)).
  { rewrite E1, E2. change (2 ^ 2) with 4. Z.div_mod_to_equations. lia. }
  split; [exact R|].
  rewrite lor_shiftl_add; [|lia|change (2 ^ 6) with 64; lia].
  rewrite Z.shiftr_div_pow2 by lia. rewrite E1, E2.
  change (2 ^ 6) with 64. change (2 ^ 4) with 16. change (2 ^ 2) with 4.
  Z.div_mod_to_equations. lia.
Qed.

Lemma base64_char_code v :
  is_sextet v -> N_of_ascii (base64_char v) = Z.to_N (base64_code v).
Proof.
  intros Hv. unfold base64_char. apply N_ascii_embedding.
  unfold is_sextet, base64_code in *.
  repeat match goal with |- context [if ?b then _ else _] => destruct b eqn:? end; lia.
Qed.

Lemma base64_char_facts v :
  is_sextet v ->
  base64_value (base64_char v) = Some v /\
  is_ascii_whitespace (base64_char v) = false /\
  is_equals_sign (base64_char v) = false.
Proof.
  intros Hv. unfold base64_value, is_ascii_whitespace, is_equals_sign.
  rewrite (base64_char_code v Hv). unfold is_sextet, base64_code in *.
  cbv zeta.
  destruct (Z.ltb_spec v 26); [|destruct (Z.ltb_spec v 52);
    [|destruct (Z.ltb_spec v 62); [|destruct (Z.eqb_spec v 62)]]].
  all: rewrite Z2N.id by lia.
  all: repeat match goal with
       | |- context [(?x <=? ?y)%Z] => destruct (Z.leb_spec x y); try lia
       | |- context [(?x =? ?y)%Z] => destruct (Z.eqb_spec x y); try lia
       end; simpl.
  all: repeat split; try (f_equal; lia).
  all: repeat match goal with
       | |- context [(?x =? ?y)%N] => destruct (N.eqb_spec x y); try lia
       end; done.
Qed.

Lemma encodes_encode n : forall bytes,
  (length bytes <= 3 * n)%nat -> Forall is_byte bytes ->
  encodes bytes (base64_encode bytes).
Proof.
  induction n as [|n IH]; intros bytes Hlen Hb.
  { destruct bytes; [|simpl in Hlen; lia].
    exists [], []. split; [done|]. split; [constructor|]. split; [done|by left]. }
  destruct bytes as [|a [|b [|c rest]]].
  - exists [], []. split; [done|]. split; [constructor|]. split; [done|by left].
  - apply Forall_cons in Hb as [Ha _].
    destruct (sextets_of_one a Ha) as ((H1 & H2) & E).
    exists [Z.shiftr a 2; Z.shiftl (Z.land a 3) 4], [equals_sign; equals_sign].
    split; [done|].
    split; [repeat (apply Forall_cons; split; [done|]); by apply Forall_nil|].
    split; [cbn [octets]; by rewrite E|].
    right; left. by split.
  - apply Forall_cons in Hb as [Ha Hb]. apply Forall_cons in Hb as [Hb' _].
    destruct (sextets_of_two a b Ha Hb') as ((H1 & H2 & H3) & E1 & E2).
    exists [Z.shiftr a 2; Z.lor (Z.shiftl (Z.land a 3) 4) (Z.shiftr b 4);
            Z.shiftl (Z.land b 15) 2], [equals_sign].
    split; [done|].
    split; [repeat (apply Forall_cons; split; [done|]); by apply Forall_nil|].
    split; [cbn [octets]; by rewrite E1, E2|].
    right; right. by split.
  - apply Forall_cons in Hb as [Ha Hb]. apply Forall_cons in Hb as [Hb' Hb].
    apply Forall_cons in Hb as [Hc Hb].
    destruct (sextets_of_three a b c Ha Hb' Hc) as ((H1 & H2 & H3 & H4) & E1 & E2 & E3).
    destruct (IH rest) as (sx & pad & El & Hsx & Hoct & Hpad); [simpl in Hlen; lia|done|].
    exists (Z.shiftr a 2 :: Z.lor (Z.shiftl (Z.land a 3) 4) (Z.shiftr b 4)
            :: Z.lor (Z.shiftl (Z.land b 15) 2) (Z.shiftr c 6) :: Z.land c 63 :: sx), pad.
    split; [|split; [|split]].
    + cbn [base64_encode map app]. by rewrite El.
    + repeat (apply Forall_cons; split; [done|]). done.
    + cbn [octets]. by rewrite E1, E2, E3, Hoct.
    + cbn [length].
      replace (S (S (S (S (length sx)))) mod 4)%nat with (length sx mod 4)%nat; [done|].
      change (S (S (S (S (length sx))))) with (4 + length sx)%nat.
      rewrite <- (Nat.Div0.add_mod_idemp_l 4 _ 4). done.
Qed.

Section Decoding.
Variable pf : Platform.

Lemma mapM_base64_value sx :
  Forall is_sextet sx -> mapM base64_value (map base64_char sx) = Some sx.
Proof.
  induction 1 as [|v sx Hv _ IH]; [done|].
  cbn [map mapM]. destruct (base64_char_facts v Hv) as (-> & _). simpl.
  by rewrite IH.
Qed.

Lemma filter_alphabet sx :
  Forall is_sextet sx ->
  filter (fun c => is_ascii_whitespace c = false) (map base64_char sx)
  = map base64_char sx.
Proof.
  induction 1 as [|v sx Hv _ IH]; [done|].
  cbn [map]. destruct (base64_char_facts v Hv) as (_ & Hw & _).
  rewrite filter_cons_True by done. by rewrite IH.
Qed.

Lemma rev_alphabet sx :
  Forall is_sextet sx ->
  match rev (map base64_char sx) with
  | c :: _ => is_equals_sign c = false
  | [] => True
  end.
Proof.
  intros Hsx. rewrite <- map_rev.
  apply Forall_rev in Hsx. destruct Hsx as [|v r Hv _]; [done|].
  by destruct (base64_char_facts v Hv) as (_ & _ & ?).
Qed.

Lemma atob_encodes bytes l :
  encodes bytes l -> atob pf (string_of_list_ascii l) = Ok (binaryString bytes).
Proof.
  intros (sx & pad & -> & Hsx & <- & Hpad). unfold atob.
  rewrite list_ascii_of_string_of_list_ascii, filter_app, (filter_alphabet sx Hsx).
  pose proof (rev_alphabet sx Hsx) as Hrev.
  assert (Hstrip : strip_padding
            (map base64_char sx ++
             filter (fun c => is_ascii_whitespace c = false) pad)
          = map base64_char sx /\ (length sx mod 4 <> 1)%nat).
  { unfold strip_padding.
    destruct Hpad as [[-> Hm]|[[-> Hm]|[-> Hm]]]; simpl filter.
    - rewrite app_nil_r, length_map, Hm. split; [|lia]. simpl.
      destruct (rev (map base64_char sx)) as [|c [|d r]]; try done.
      by rewrite Hrev.
    - rewrite length_app, length_map. simpl length.
      replace ((length sx + 2) mod 4)%nat with 0%nat
        by (rewrite <- Nat.Div0.add_mod_idemp_l, Hm; done).
      split; [|lia]. simpl. rewrite rev_app_distr. simpl.
      by rewrite rev_involutive.
    - rewrite length_app, length_map. simpl length.
      replace ((length sx + 1) mod 4)%nat with 0%nat
        by (rewrite <- Nat.Div0.add_mod_idemp_l, Hm; done).
      split; [|lia]. simpl. rewrite rev_app_distr. simpl.
      destruct (rev (map base64_char sx)) as [|c r] eqn:Er.
      + apply (f_equal (@length ascii)) in Er.
        rewrite length_rev, length_map in Er. rewrite Er in Hm. done.
      + rewrite Hrev. by rewrite <- (rev_involutive (map base64_char sx)), Er. }
  destruct Hstrip as [-> Hne]. rewrite length_map.
  destruct (Nat.eqb_spec (length sx mod 4) 1); [done|].
  by rewrite (mapM_base64_value sx Hsx).
Qed.

Lemma charCodes_binaryString bytes :
  Forall is_byte bytes -> charCodes (binaryString bytes) = bytes.
Proof.
  intros Hb. unfold charCodes, binaryString.
  rewrite list_ascii_of_string_of_list_ascii, <- list_fmap_compose.
  rewrite <- (list_fmap_id bytes) at 2. apply Forall_fmap_ext_1.
  eapply Forall_impl; [exact Hb|]. intros b [Hlo Hhi]. simpl.
  rewrite N_ascii_embedding by lia. lia.
Qed.

(** [decode] returns exactly the bytes whose standard base64 encoding it
    is given. *)
Lemma decode_btoa bytes :
  Forall is_byte bytes -> decode pf (btoa bytes) = Ok bytes.
Proof.
  intros Hb. unfold decode, btoa.
  rewrite (atob_encodes bytes); [|by apply (encodes_encode (length bytes)); [lia|]].
  simpl. by rewrite charCodes_binaryString.
Qed.

End Decoding.

(** ** Two bytes as a signed 16-bit integer *)

Lemma land_low_high lo hi :
  is_byte lo -> (0 <= hi)%Z -> Z.land lo (Z.shiftl hi 8) = 0%Z.
Proof.
  intros [Hlo Hlt] Hhi. apply Z.bits_inj'. intros n Hn.
  rewrite Z.land_spec, Z.bits_0.
  destruct (Z.lt_ge_cases n 8) as [Hn8|Hn8].
  - rewrite (Z.shiftl_spec_low hi 8 n Hn8). apply andb_false_r.
  - assert (Z.testbit lo n = false) as ->; [|done].
    destruct (Z.eq_dec lo 0) as [->|Hne]; [apply Z.bits_0|].
    apply Z.bits_above_log2; [done|].
    assert (Z.log2 lo < 8)%Z; [|lia].
    apply Z.log2_lt_pow2; lia.
Qed.

Lemma int16_of_bytes_value lo hi :
  is_byte lo -> is_byte hi ->
  int16_of_bytes lo hi =
    (if (lo + 256 * hi <? 32768)%Z then lo + 256 * hi else lo + 256 * hi - 65536)%Z.
Proof.
  intros Hlo Hhi. unfold int16_of_bytes.
  rewrite <- Z.add_nocarry_lor by (apply land_low_high; [done|apply Hhi]).
  rewrite Z.shiftl_mul_pow2 by lia.
  replace (hi * 2 ^ 8)%Z with (256 * hi)%Z by lia. done.
Qed.

Lemma int16_of_bytes_range lo hi :
  is_byte lo -> is_byte hi -> is_int16 (int16_of_bytes lo hi).
Proof.
  intros Hlo Hhi. rewrite int16_of_bytes_value by done.
  unfold is_byte, is_int16 in *.
  destruct (Z.ltb_spec (lo + 256 * hi) 32768); lia.
Qed.

(** ** The Int16Array view *)

Lemma int16_pairs_spec n : forall bytes,
  length bytes = (2 * n)%nat -> Forall is_byte bytes ->
  exists samples,
    int16_pairs bytes = Some samples /\
    length samples = n /\
    Forall is_int16 samples /\
    (forall i lo hi,
       bytes !! (2 * i)%nat = Some lo -> bytes !! (2 * i + 1)%nat = Some hi ->
       samples !! i = Some (int16_of_bytes lo hi)).
Proof.
  induction n as [|n IH]; intros bytes Hlen Hb.
  - destruct bytes; [|done]. exists []. repeat split; [constructor|].
    intros i lo hi H. by rewrite lookup_nil in H.
  - destruct bytes as [|lo [|hi rest]]; simpl in Hlen; try lia.
    apply Forall_cons in Hb as [Hlo Hb]. apply Forall_cons in Hb as [Hhi Hb].
    destruct (IH rest) as (samples & Hs & Hl & Hr & Hi); [lia|done|].
    exists (int16_of_bytes lo hi :: samples).
    simpl. rewrite Hs. simpl. repeat split.
    + by rewrite Hl.
    + constructor; [by apply int16_of_bytes_range|done].
    + intros [|i] lo' hi'; simpl.
      * by intros [= <-] [= <-].
      * replace (i + S (i + 0))%nat with (S (2 * i))%nat by lia.
        replace (S (2 * i) + 1)%nat with (S (2 * i + 1))%nat by lia.
        simpl. apply Hi.
Qed.

(** ** Filling the single channel *)

Lemma fill_channel_mono (dataInt16 : list Z) :
  fill_channel dataInt16 1 (length dataInt16) 0
  = map (fun k => (inject_Z k / 32768)%Q) dataInt16.
Proof.
  unfold fill_channel. apply list_eq. intros i.
  rewrite !list_lookup_fmap.
  destruct (decide (i < length dataInt16)%nat) as [Hlt|Hge].
  - rewrite lookup_seq_lt by done. simpl.
    replace (i * 1 + 0)%nat with i by lia.
    destruct (lookup_lt_is_Some_2 dataInt16 i Hlt) as [k ->]. done.
  - rewrite lookup_seq_ge by lia. rewrite lookup_ge_None_2 by lia. done.
Qed.

Lemma normalize_range k : is_int16 k -> (-1 <= inject_Z k / 32768 <= 1)%Q.
Proof.
  intros [Hlo Hhi]. unfold Qle, Qdiv, Qmult, Qinv, inject_Z. simpl. lia.
Qed.

(** ** From the payload to the buffer *)

Lemma decode_bytes pf base64 bytes :
  decode pf base64 = Ok bytes ->
  Forall is_byte bytes /\
  exists binaryString, atob pf base64 = Ok binaryString /\ bytes = charCodes binaryString.
Proof.
  unfold decode. destruct (atob pf base64) as [bin|e]; simpl; [|done].
  intros [= <-]. split; [apply charCodes_bytes|eauto].
Qed.

Lemma decodeAudioData_mono pf bytes samples :
  Int16Array pf bytes = Ok samples -> samples <> [] ->
  decodeAudioData pf bytes 24000 1
  = Ok (mkAudioBuffer 1 (length samples) 24000
          [map (fun k => (inject_Z k / 32768)%Q) samples]).
Proof.
  intros Hview Hne. unfold decodeAudioData. rewrite Hview.
  cbn [mbind result_bind]. rewrite Nat.div_1_r. unfold createBuffer.
  destruct samples as [|k samples]; [done|].
  cbn [length Nat.eqb orb mbind result_bind mret result_ret numberOfChannels frames
       sampleRate seq map].
  change (S (length samples)) with (length (k :: samples)).
  by rewrite (fill_channel_mono (k :: samples)).
Qed.

(** Every buffer generateSpeech returns has a positive duration. *)
Lemma generateSpeech_duration_positive pf API_KEY reply buffer :
  generateSpeech pf API_KEY reply = Ok buffer -> (0 < duration buffer)%Q.
Proof.
  unfold generateSpeech.
  destruct getAIClient; [|done]. cbn [mbind result_bind].
  destruct (await reply) as [response|]; [|done]. cbn [mbind result_bind].
  destruct (negb _); [done|].
  destruct (decode pf _) as [bytes|]; [|done]. cbn [mbind result_bind].
  unfold decodeAudioData.
  destruct (Int16Array pf bytes) as [samples|]; [|done]. cbn [mbind result_bind].
  unfold createBuffer. rewrite Nat.div_1_r.
  destruct samples as [|k samples]; [done|].
  cbn [length Nat.eqb orb mbind result_bind mret result_ret numberOfChannels frames
       sampleRate].
  intros [= <-]. unfold duration. cbn [frames sampleRate]. reflexivity.
Qed.

(** Whatever string the reply carries, if it decodes to an even, non-zero
    number of bytes the buffer holds one sample per pair of bytes. *)
Lemma decoded_payload_to_buffer
    (pf : Platform) (API_KEY : option string) (resp : GenerateContentResponse)
    (base64 : string) (bytes : list Z) (n : nat) :
  truthy API_KEY = true ->
  inlineAudio resp = Some base64 ->
  decode pf base64 = Ok bytes ->
  length bytes = (2 * S n)%nat ->
  exists samples,
    Int16Array pf bytes = Ok samples /\
    length samples = S n /\
    (forall i lo hi,
       bytes !! (2 * i)%nat = Some lo -> bytes !! (2 * i + 1)%nat = Some hi ->
       samples !! i = Some (int16_of_bytes lo hi) /\
       int16_of_bytes lo hi =
         (if lo + 256 * hi <? 32768 then lo + 256 * hi else lo + 256 * hi - 65536)) /\
    generateSpeech pf API_KEY (Fulfilled resp)
      = Ok (mkAudioBuffer 1 (S n) 24000
              [map (fun k => (inject_Z k / 32768)%Q) samples]) /\
    Forall (fun x => (-1 <= x <= 1)%Q) (map (fun k => (inject_Z k / 32768)%Q) samples).
Proof.
  intros Hkey Hdata Hdec Hlen.
  destruct (decode_bytes pf base64 bytes Hdec) as (Hbytes & Hbin).
  destruct (int16_pairs_spec (S n) bytes Hlen Hbytes) as (samples & Hs & Hl & Hr & Hi).
  assert (Hview : Int16Array pf bytes = Ok samples).
  { unfold Int16Array. by rewrite Hs. }
  exists samples. repeat split; try done.
  - by apply Hi.
  - apply int16_of_bytes_value.
    + eapply Forall_lookup_1; eauto.
    + eapply Forall_lookup_1; eauto.
  - unfold generateSpeech, getAIClient. rewrite Hkey. simpl. rewrite Hdata.
    assert (Htruthy : truthy (Some base64) = true).
    { destruct base64; [|done]. vm_compute in Hdec. injection Hdec as <-. done. }
    rewrite Htruthy. simpl. rewrite Hdec. simpl.
    rewrite (decodeAudioData_mono pf bytes samples Hview).
    + by rewrite Hl.
    + intros ->. done.
  - apply Forall_fmap. eapply Forall_impl; [exact Hr|].
    intros k Hk. by apply normalize_range.
Qed.

(** C9.  With an API key present, for every reply whose inline data is the
    base64 encoding of an even, non-zero number of bytes (16-bit mono PCM):
    decode returns exactly those bytes; the Int16Array view reads each pair,
    low byte first, as a signed 16-bit integer; and generateSpeech returns a
    buffer with one channel, sample rate 24000 and one frame per 16-bit
    integer, whose sample [i] is the [i]-th integer divided by 32768, every
    sample lying within [-1, 1]. *)
Theorem pcm16_payload_to_buffer
    (pf : Platform) (API_KEY : option string) (resp : GenerateContentResponse)
    (bytes : list Z) (n : nat) :
  truthy API_KEY = true ->
  Forall is_byte bytes ->
  length bytes = (2 * S n)%nat ->
  inlineAudio resp = Some (btoa bytes) ->
  exists samples,
    decode pf (btoa bytes) = Ok bytes /\
    Int16Array pf bytes = Ok samples /\
    length samples = S n /\
    (forall i lo hi,
       bytes !! (2 * i)%nat = Some lo -> bytes !! (2 * i + 1)%nat = Some hi ->
       samples !! i = Some (int16_of_bytes lo hi) /\
       int16_of_bytes lo hi =
         (if lo + 256 * hi <? 32768 then lo + 256 * hi else lo + 256 * hi - 65536)) /\
    generateSpeech pf API_KEY (Fulfilled resp)
      = Ok (mkAudioBuffer 1 (S n) 24000
              [map (fun k => (inject_Z k / 32768)%Q) samples]) /\
    Forall (fun x => (-1 <= x <= 1)%Q) (map (fun k => (inject_Z k / 32768)%Q) samples).
Proof.
  intros Hkey Hbytes Hlen Hdata.
  pose proof (decode_btoa pf bytes Hbytes) as Hdec.
  destruct (decoded_payload_to_buffer pf API_KEY resp (btoa bytes) bytes n
              Hkey Hdata Hdec Hlen) as (samples & H).
  exists samples. by split.
Qed.

Lemma pcm16_payload_to_buffer_witness :
  exists samples,
    decode examplePlatform (btoa [0; 0; 255; 127; 0; 128; 255; 255])
      = Ok [0; 0; 255; 127; 0; 128; 255; 255] /\
    Int16Array examplePlatform [0; 0; 255; 127; 0; 128; 255; 255] = Ok samples /\
    length samples = 4%nat /\
    (forall i lo hi,
       [0; 0; 255; 127; 0; 128; 255; 255] !! (2 * i)%nat = Some lo ->
       [0; 0; 255; 127; 0; 128; 255; 255] !! (2 * i + 1)%nat = Some hi ->
       samples !! i = Some (int16_of_bytes lo hi) /\
       int16_of_bytes lo hi =
         (if lo + 256 * hi <? 32768 then lo + 256 * hi else lo + 256 * hi - 65536)) /\
    generateSpeech examplePlatform (Some "key"%string)
        (Fulfilled (mkResponse None
           (Some [mkCandidate (Some (mkContent (Some
              [mkPart (Some (mkBlob (Some "AAD/fwCA//8="%string)))])))])))
      = Ok (mkAudioBuffer 1 4 24000
              [map (fun k => (inject_Z k / 32768)%Q) samples]) /\
    Forall (fun x => (-1 <= x <= 1)%Q) (map (fun k => (inject_Z k / 32768)%Q) samples).
Proof.
  apply (pcm16_payload_to_buffer examplePlatform (Some "key"%string)
           (mkResponse None
              (Some [mkCandidate (Some (mkContent (Some
                 [mkPart (Some (mkBlob (Some "AAD/fwCA//8="%string)))])))]))
           [0; 0; 255; 127; 0; 128; 255; 255] 3).
  - reflexivity.
  - repeat (apply Forall_cons; split; [unfold is_byte; lia|]). by apply Forall_nil.
  - reflexivity.
  - reflexivity.
Defined.

(** The same payload, evaluated: 0, 32767, -32768 and -1 become 0,
    32767/32768, -1 and -1/32768. *)
Example decoded_samples :
  generateSpeech examplePlatform (Some "key"%string)
      (Fulfilled (mkResponse None
         (Some [mkCandidate (Some (mkContent (Some
            [mkPart (Some (mkBlob (Some "AAD/fwCA//8="%string)))])))])))
  = Ok (mkAudioBuffer 1 4 24000
          [[0 # 32768; 32767 # 32768; -32768 # 32768; -1 # 32768]%Q]).
Proof. reflexivity. Qed.

End GeminiServiceFacts.

(* ===================================================================== *)
(** * Facts about the orchestrator *)
(* ===================================================================== *)

Module AppFacts.
Import Js GeminiService App.

(** ** What each piece leaves alone *)

Lemma lastGenRequestRef_setArticles l s :
  lastGenRequestRef (setArticles l s) = lastGenRequestRef s.
Proof.
  unfold setArticles, queueEmptyEffect. simpl.
  destruct (length l =? length (articles s))%nat; [done|].
  by destruct (length l =? 0)%nat.
Qed.

Lemma lastGenRequestRef_handleClearAll c s :
  lastGenRequestRef (handleClearAll c s) = lastGenRequestRef s.
Proof.
  unfold handleClearAll. destruct (length (articles s) =? 0)%nat; [done|].
  destruct c; [apply lastGenRequestRef_setArticles|done].
Qed.

Lemma lastGenRequestRef_catch r e s :
  lastGenRequestRef (handleGenerate_catch r e s) = lastGenRequestRef s.
Proof. unfold handleGenerate_catch. by destruct (stale r s). Qed.

Lemma lastGenRequestRef_summarized r res s :
  lastGenRequestRef (handleGenerate_summarized r res s).1 = lastGenRequestRef s.
Proof.
  unfold handleGenerate_summarized. destruct res as [summary|e]; simpl.
  - by destruct (stale r s).
  - apply lastGenRequestRef_catch.
Qed.

Lemma lastGenRequestRef_synthesized r res s :
  lastGenRequestRef (handleGenerate_synthesized r res s) = lastGenRequestRef s.
Proof.
  unfold handleGenerate_synthesized. destruct res as [b|e].
  - by destruct (stale r s).
  - apply lastGenRequestRef_catch.
Qed.

(** A stale call changes nothing, however its awaited operation ended. *)
Lemma stale_summarized r res s :
  stale r s = true -> handleGenerate_summarized r res s = (s, Returned).
Proof.
  intros H. unfold handleGenerate_summarized, handleGenerate_catch.
  destruct res; by rewrite H.
Qed.

Lemma stale_synthesized r res s :
  stale r s = true -> handleGenerate_synthesized r res s = s.
Proof.
  intros H. unfold handleGenerate_synthesized, handleGenerate_catch.
  destruct res; by rewrite H.
Qed.

Lemma issueTimes_restage (l : list Request) rid r st :
  l !! rid = Some r ->
  map currentRequestTime (<[rid := with_stage st r]> l) = map currentRequestTime l.
Proof.
  revert rid. induction l as [|x l IH]; intros [|rid] H; simpl in *; try done.
  - by injection H as ->.
  - f_equal. by apply IH.
Qed.

Section WithEnvironment.
Variable pf : Platform.
Variable API_KEY : option string.

(** ** The ref holds the timestamp of the last call issued *)

Lemma ref_is_last_initial : ref_is_last initialWorld.
Proof. intros t. discriminate. Qed.

Lemma issueTimes_step ev w :
  issueTimes (step pf API_KEY ev w) = issueTimes w \/
  exists now, ev = Generate now /\
    issueTimes (step pf API_KEY ev w) = issueTimes w ++ [now] /\
    lastGenRequestRef (app (step pf API_KEY ev w)) = now.
Proof.
  destruct ev as [l|i|c|v|now|rid reply|rid reply]; simpl; try by left.
  - unfold handleGenerate_call.
    destruct (length (articles (app w)) =? 0)%nat; [by left|].
    destruct (audioContextRef (app w)); [|by left].
    right. exists now. unfold issueTimes. simpl. by rewrite map_app.
  - left. destruct (requests w !! rid) as [r|] eqn:Hr; [|done].
    destruct (stage r); try done.
    destruct (handleGenerate_summarized _ _ _) as [s st]. unfold issueTimes. simpl.
    by apply issueTimes_restage.
  - left. destruct (requests w !! rid) as [r|] eqn:Hr; [|done].
    destruct (stage r); try done. unfold issueTimes. simpl.
    by apply issueTimes_restage.
Qed.

Lemma lastGenRequestRef_step ev w :
  (forall now, ev <> Generate now) ->
  lastGenRequestRef (app (step pf API_KEY ev w)) = lastGenRequestRef (app w).
Proof.
  intros Hne. destruct ev as [l|i|c|v|now|rid reply|rid reply]; simpl.
  - apply lastGenRequestRef_setArticles.
  - apply lastGenRequestRef_setArticles.
  - apply lastGenRequestRef_handleClearAll.
  - done.
  - by destruct (Hne now).
  - destruct (requests w !! rid) as [r|]; [|done].
    destruct (stage r); try done.
    pose proof (lastGenRequestRef_summarized r (summarizeArticles API_KEY reply) (app w)) as E.
    by destruct (handleGenerate_summarized _ _ _).
  - destruct (requests w !! rid) as [r|]; [|done].
    destruct (stage r); try done. simpl.
    apply lastGenRequestRef_synthesized.
Qed.

Lemma ref_is_last_step ev w : ref_is_last w -> ref_is_last (step pf API_KEY ev w).
Proof.
  intros Hw t. destruct (issueTimes_step ev w) as [E|(now & -> & E & Href)].
  - rewrite E. intros Ht. rewrite <- (Hw t Ht).
    destruct ev as [l|i|c|v|now|rid reply|rid reply];
      try (apply lastGenRequestRef_step; intros now; discriminate).
    revert E. simpl. unfold handleGenerate_call.
    destruct (length (articles (app w)) =? 0)%nat; [done|].
    destruct (audioContextRef (app w)); [|done].
    unfold issueTimes. simpl. rewrite map_app. simpl. intros E.
    apply (f_equal length) in E. rewrite length_app in E. simpl in E. lia.
  - rewrite E, last_snoc, Href. by intros [= ->].
Qed.

Lemma ref_is_last_run evs w : ref_is_last w -> ref_is_last (run pf API_KEY evs w).
Proof.
  revert w. induction evs as [|ev evs IH]; intros w Hw; simpl; [done|].
  by apply IH, ref_is_last_step.
Qed.

(** ** Superseded calls *)

Lemma lastIssued_spec w rid :
  lastIssued w = Some rid <-> length (requests w) = S rid.
Proof.
  unfold lastIssued. destruct (length (requests w)); split; intros H; congruence.
Qed.

Lemma last_is_current w rid r :
  ref_is_last w -> lastIssued w = Some rid -> requests w !! rid = Some r ->
  stale r (app w) = false.
Proof.
  intros Hw Hl Hr. apply lastIssued_spec in Hl.
  unfold stale. rewrite (Hw (currentRequestTime r)); [by rewrite Z.eqb_refl|].
  rewrite last_lookup. unfold issueTimes. rewrite length_map, Hl. simpl.
  by rewrite list_lookup_fmap, Hr.
Qed.

Lemma not_last_is_stale w rid r :
  ref_is_last w -> NoDup (issueTimes w) ->
  requests w !! rid = Some r -> lastIssued w <> Some rid ->
  stale r (app w) = true.
Proof.
  intros Hw Hnd Hr Hne.
  destruct (length (requests w)) as [|n] eqn:Hlen.
  { apply lookup_lt_Some in Hr. lia. }
  destruct (lookup_lt_is_Some_2 (requests w) n) as [rl Hrl]; [lia|].
  assert (Hl : lastIssued w = Some n) by by apply lastIssued_spec.
  pose proof (last_is_current w n rl Hw Hl Hrl) as Hcur.
  unfold stale in *. apply negb_false_iff, Z.eqb_eq in Hcur.
  apply negb_true_iff, Z.eqb_neq. rewrite Hcur. intros Heq.
  apply Hne. rewrite Hl. f_equal.
  apply (NoDup_lookup (issueTimes w) n rid (currentRequestTime rl)); [done| |].
  - unfold issueTimes. by rewrite list_lookup_fmap, Hrl.
  - unfold issueTimes. by rewrite list_lookup_fmap, Hr, Heq.
Qed.

Lemma stale_settlement rid w :
  (forall r, requests w !! rid = Some r -> stale r (app w) = true) ->
  forall reply,
    app (step pf API_KEY (Summarized rid reply) w) = app w /\
    app (step pf API_KEY (Synthesized rid reply) w) = app w.
Proof.
  intros Hst reply. simpl.
  destruct (requests w !! rid) as [r|] eqn:Hr; [|done].
  specialize (Hst r eq_refl).
  destruct (stage r); try done; split; try done.
  - by rewrite stale_summarized.
  - simpl. by rewrite stale_synthesized.
Qed.

(** ** A run without the superseded completions *)

Lemma last_insert_other (l : list Request) rid x :
  S rid <> length l -> last (<[rid := x]> l) = last l.
Proof.
  intros Hne. rewrite !last_lookup, length_insert.
  destruct (decide (rid < length l)%nat) as [Hlt|Hge].
  - apply list_lookup_insert_ne. lia.
  - by rewrite list_insert_ge by lia.
Qed.

Lemma last_insert_last (l : list Request) rid x :
  length l = S rid -> last (<[rid := x]> l) = Some x.
Proof.
  intros Hlen. rewrite last_lookup, length_insert, Hlen. simpl.
  apply list_lookup_insert_eq. lia.
Qed.

Lemma issueTimes_extends ev w :
  exists more, issueTimes (step pf API_KEY ev w) = issueTimes w ++ more.
Proof.
  destruct (issueTimes_step ev w) as [E|(now & _ & E & _)].
  - exists []. by rewrite E, app_nil_r.
  - eauto.
Qed.

Lemma issueTimes_run_extends evs w :
  exists more, issueTimes (run pf API_KEY evs w) = issueTimes w ++ more.
Proof.
  revert w. induction evs as [|ev evs IH]; intros w; simpl.
  - exists []. by rewrite app_nil_r.
  - destruct (IH (step pf API_KEY ev w)) as [m2 E2].
    destruct (issueTimes_extends ev w) as [m1 E1].
    exists (m1 ++ m2). by rewrite E2, E1, app_assoc.
Qed.

Lemma same_view_length w w' :
  same_view w w' -> length (requests w) = length (requests w').
Proof.
  intros [_ E _]. apply (f_equal length) in E. unfold issueTimes in E.
  by rewrite !length_map in E.
Qed.

Lemma same_view_step ev w w' :
  ref_is_last w -> NoDup (issueTimes w) -> same_view w w' ->
  same_view (step pf API_KEY ev w) (if live w' ev then step pf API_KEY ev w' else w').
Proof.
  intros Href Hnd Hv. pose proof (same_view_length w w' Hv) as Hlen.
  destruct Hv as [Happ Htimes Hlast].
  assert (Hsettle : forall rid st s x,
            requests w !! rid = Some x ->
            lastIssued w' <> Some rid -> s = app w ->
            same_view (mkWorld s (<[rid := with_stage st x]> (requests w))) w').
  { intros rid st s x Hx Hne ->. split; simpl.
    - done.
    - unfold issueTimes. simpl. by rewrite (issueTimes_restage _ _ _ _ Hx).
    - rewrite last_insert_other; [done|].
      intros E. apply Hne. apply lastIssued_spec. by rewrite <- Hlen. }
  assert (Hlive : forall rid, lastIssued w' = Some rid ->
            requests w !! rid = requests w' !! rid /\ length (requests w) = S rid).
  { intros rid Hl. apply lastIssued_spec in Hl. split; [|by rewrite Hlen].
    rewrite !last_lookup, Hlen, Hl in Hlast. done. }
  destruct ev as [l|i|c|v|now|rid reply|rid reply]; simpl.
  - split; simpl; [by rewrite Happ|done|done].
  - split; simpl; [by rewrite Happ|done|done].
  - split; simpl; [by rewrite Happ|done|done].
  - split; simpl; [by rewrite Happ|done|done].
  - rewrite <- Happ. destruct (handleGenerate_call now (app w)) as [s [r|]].
    + split; simpl; [done| |by rewrite !last_snoc].
      unfold issueTimes in *. simpl. by rewrite !map_app, Htimes.
    + split; simpl; done.
  - case_bool_decide as Hl.
    + destruct (Hlive rid Hl) as [Hsame Hlen'].
      rewrite <- Hsame, <- Happ.
      destruct (requests w !! rid) as [r|] eqn:Hr; [|by split].
      destruct (stage r); try by split.
      destruct (handleGenerate_summarized _ _ _) as [s st]. split; simpl.
      * done.
      * unfold issueTimes. simpl.
        rewrite (issueTimes_restage _ _ _ _ Hr).
        symmetry in Hsame. by rewrite (issueTimes_restage _ _ _ _ Hsame).
      * rewrite !last_insert_last; [done|by rewrite <- Hlen|done].
    + destruct (requests w !! rid) as [r|] eqn:Hr; [|by split].
      destruct (stage r); try by split.
      assert (Hst : stale r (app w) = true).
      { apply (not_last_is_stale w rid r Href Hnd Hr).
        intros E. apply Hl. apply lastIssued_spec. rewrite <- Hlen.
        by apply lastIssued_spec. }
      rewrite stale_summarized by done. by apply Hsettle.
  - case_bool_decide as Hl.
    + destruct (Hlive rid Hl) as [Hsame Hlen'].
      rewrite <- Hsame, <- Happ.
      destruct (requests w !! rid) as [r|] eqn:Hr; [|by split].
      destruct (stage r); try by split.
      split; simpl.
      * done.
      * unfold issueTimes. simpl.
        rewrite (issueTimes_restage _ _ _ _ Hr).
        symmetry in Hsame. by rewrite (issueTimes_restage _ _ _ _ Hsame).
      * rewrite !last_insert_last; [done|by rewrite <- Hlen|done].
    + destruct (requests w !! rid) as [r|] eqn:Hr; [|by split].
      destruct (stage r); try by split.
      assert (Hst : stale r (app w) = true).
      { apply (not_last_is_stale w rid r Href Hnd Hr).
        intros E. apply Hl. apply lastIssued_spec. rewrite <- Hlen.
        by apply lastIssued_spec. }
      simpl. rewrite stale_synthesized by done. by apply Hsettle.
Qed.

Lemma same_view_run evs : forall w w',
  ref_is_last w -> NoDup (issueTimes (run pf API_KEY evs w)) -> same_view w w' ->
  same_view (run pf API_KEY evs w) (run_live pf API_KEY evs w').
Proof.
  induction evs as [|ev evs IH]; intros w w' Href Hnd Hv; simpl in *; [done|].
  apply IH.
  - by apply ref_is_last_step.
  - done.
  - apply same_view_step; [done| |done].
    destruct (issueTimes_run_extends evs (step pf API_KEY ev w)) as [m2 E2].
    destruct (issueTimes_extends ev w) as [m1 E1].
    rewrite E2, E1 in Hnd. apply NoDup_app in Hnd as [Hnd _].
    by apply NoDup_app in Hnd as [Hnd _].
Qed.

(** With distinct timestamps, the component state after any run is the one
    reached when the completions of superseded calls are left out
    altogether. *)
Lemma superseded_completions_are_invisible evs :
  NoDup (issueTimes (run pf API_KEY evs initialWorld)) ->
  app (run pf API_KEY evs initialWorld) = app (run_live pf API_KEY evs initialWorld).
Proof.
  intros Hnd. apply same_view_run; [apply ref_is_last_initial|done|by split].
Qed.

End WithEnvironment.

(** C1, as the code has it.  After any sequence of events, provided the
    issue timestamps (the Date.now() readings) of the calls made so far are
    pairwise distinct: the completion of any call other than the last one
    issued, at either await and whether the awaited operation succeeded or
    failed, leaves the whole component state as it was; the last call issued
    is the one whose results pass the staleness guard; and the component
    state is the one reached when the completions of superseded calls are
    left out of the sequence altogether. *)
Theorem superseded_completion_changes_nothing
    (pf : Platform) (API_KEY : option string) (evs : list Event) :
  let w := run pf API_KEY evs initialWorld in
  NoDup (issueTimes w) ->
  (forall rid reply, lastIssued w <> Some rid ->
     app (step pf API_KEY (Summarized rid reply) w) = app w /\
     app (step pf API_KEY (Synthesized rid reply) w) = app w) /\
  (forall rid r, lastIssued w = Some rid -> requests w !! rid = Some r ->
     stale r (app w) = false) /\
  app w = app (run_live pf API_KEY evs initialWorld).
Proof.
  intros w Hnd.
  assert (Hw : ref_is_last w) by apply ref_is_last_run, ref_is_last_initial.
  split; [|split].
  - intros rid reply Hne. apply stale_settlement.
    intros r Hr. by apply (not_last_is_stale w rid r).
  - intros rid r Hl Hr. by apply (last_is_current w rid r).
  - by apply superseded_completions_are_invisible.
Qed.

Lemma superseded_completion_changes_nothing_witness :
  let evs := [SetArticles [sampleArticle]; Generate 1000; Generate 2500;
              Summarized 0 (textReply "old"); Summarized 1 (textReply "new")] in
  let w := run examplePlatform (Some "key"%string) evs initialWorld in
  NoDup (issueTimes w) /\
  app (step examplePlatform (Some "key"%string)
         (Synthesized 0 (audioReply "AAD/fwCA//8=")) w) = app w /\
  (forall r, requests w !! 1%nat = Some r -> stale r (app w) = false) /\
  app w = app (run_live examplePlatform (Some "key"%string) evs initialWorld).
Proof.
  intros evs w.
  assert (Hnd : NoDup (issueTimes w)).
  { vm_compute. apply NoDup_cons. split; [|apply NoDup_singleton].
    rewrite list_elem_of_singleton. discriminate. }
  destruct (superseded_completion_changes_nothing examplePlatform
              (Some "key"%string) evs Hnd) as (Hold & Hlast & Hlive).
  split; [exact Hnd|]. split; [|split].
  - apply (Hold 0%nat (audioReply "AAD/fwCA//8=")). discriminate.
  - intros r. apply (Hlast 1%nat r). reflexivity.
  - exact Hlive.
Defined.

(** C1, as stated, fails: two calls that read the same Date.now() share a
    timestamp, and then the completion of the earlier one passes the guard
    and publishes its summary although a later call has been issued. *)
Lemma same_timestamp_publishes_earlier_call :
  let w := run examplePlatform (Some "key"%string)
             [SetArticles [sampleArticle]; Generate 1000; Generate 1000]
             initialWorld in
  let w' := step examplePlatform (Some "key"%string)
              (Summarized 0 (textReply "old")) w in
  lastIssued w = Some 1%nat /\
  summaryText (app w) = None /\
  summaryText (app w') = Some "old"%string /\
  status (generationState (app w')) = generating_audio /\
  app w' <> app w.
Proof.
  vm_compute. repeat split; discriminate.
Qed.

(** ** The queue becomes empty during a generation *)

Lemma stale_setArticles l r s : stale r (setArticles l s) = stale r s.
Proof. unfold stale. by rewrite lastGenRequestRef_setArticles. Qed.

(** Emptying a non-empty queue resets what is shown, but leaves
    lastGenRequestRef alone: a call that was current stays current. *)
Lemma queue_empty_reset s r :
  articles s <> [] ->
  published (setArticles [] s) = (state_of idle, None, None) /\
  stale r (setArticles [] s) = stale r s.
Proof.
  intros Hne. split; [|apply stale_setArticles].
  unfold setArticles, queueEmptyEffect. simpl.
  destruct (articles s); [done|]. reflexivity.
Qed.

(** C2 on the code.  One article is queued and a generation is started at
    time 1000; the queue is then emptied while the call is suspended in
    summarizeArticles.  The state is reset to idle, but the call is not made
    stale: when the summary arrives it is published and the state moves to
    generating_audio, and when the audio arrives the state becomes ready with
    a buffer, all with an empty queue. *)
Theorem queue_emptied_while_summarizing :
  let env := step examplePlatform (Some "key"%string) in
  let w1 := env (Generate 1000) (env (SetArticles [sampleArticle]) initialWorld) in
  let w2 := env (SetArticles []) w1 in
  let w3 := env (Summarized 0 (textReply "Good morning.")) w2 in
  let w4 := env (Synthesized 0 (audioReply "AAD/fwCA//8=")) w3 in
  status (generationState (app w1)) = summarizing /\
  published (app w2) = (state_of idle, None, None) /\
  articles (app w3) = [] /\
  published (app w3) = (state_of generating_audio, Some "Good morning."%string, None) /\
  status (generationState (app w4)) = ready /\
  (frames <$> audioBuffer (app w4)) = Some 4%nat.
Proof. vm_compute. repeat split. Qed.

(** ** A summarization reply without text *)

Section Replies.
Variable pf : Platform.
Variable API_KEY : option string.
Hypothesis have_key : truthy API_KEY = true.



Lemma generateSpeech_no_payload resp :
  truthy (inlineAudio resp) = false ->
  generateSpeech pf API_KEY (Fulfilled resp)
  = Throw (newError "No audio data returned from Gemini.").
Proof.
  intros H. unfold generateSpeech, getAIClient. rewrite have_key. simpl.
  by rewrite H.
Qed.

End Replies.





(** ** A synthesis reply without audio *)

(** C4.  For a call that is still current and suspended in generateSpeech,
    with an API key present: when the reply carries no inline audio data
    (absent anywhere along the path, or empty), the state becomes error with
    the message reserved for that case, and neither an audio buffer nor a
    different summary is published. *)
Theorem missing_audio_payload_is_classified
    (pf : Platform) (API_KEY : option string) (w : World) (rid : nat) (r : Request)
    (summary : string) (resp : GenerateContentResponse) :
  truthy API_KEY = true ->
  requests w !! rid = Some r ->
  stage r = AwaitSpeech summary ->
  stale r (app w) = false ->
  truthy (inlineAudio resp) = false ->
  let w' := step pf API_KEY (Synthesized rid (Fulfilled resp)) w in
  generationState (app w')
    = mkGenerationState error
        (Some "Audio generation failed to return data. Please try again."%string) /\
  audioBuffer (app w') = audioBuffer (app w) /\
  summaryText (app w') = summaryText (app w) /\
  requests w' !! rid = Some (with_stage Returned r).
Proof.
  intros Hkey Hr Hst Hcur Hno. simpl. rewrite Hr, Hst.
  rewrite (generateSpeech_no_payload pf _ Hkey _ Hno).
  unfold handleGenerate_synthesized, handleGenerate_catch. rewrite Hcur. simpl.
  repeat split.
  apply list_lookup_insert_eq. eapply lookup_lt_Some; eauto.
Qed.

Lemma missing_audio_payload_is_classified_witness :
  let w := run examplePlatform (Some "key"%string)
             [SetArticles [sampleArticle]; Generate 1000;
              Summarized 0 (textReply "Good morning.")] initialWorld in
  let w' := step examplePlatform (Some "key"%string)
              (Synthesized 0 (Fulfilled (mkResponse None (Some [])))) w in
  generationState (app w')
    = mkGenerationState error
        (Some "Audio generation failed to return data. Please try again."%string) /\
  audioBuffer (app w') = audioBuffer (app w) /\
  summaryText (app w') = summaryText (app w) /\
  requests w' !! 0%nat
    = Some (with_stage Returned
              (mkRequest 1000 [describe sampleArticle] Kore (AwaitSpeech "Good morning."))).
Proof.
  apply (missing_audio_payload_is_classified examplePlatform (Some "key"%string)
           (run examplePlatform (Some "key"%string)
              [SetArticles [sampleArticle]; Generate 1000;
               Summarized 0 (textReply "Good morning.")] initialWorld)
           0%nat
           (mkRequest 1000 [describe sampleArticle] Kore (AwaitSpeech "Good morning."))
           "Good morning."%string (mkResponse None (Some [])));
    reflexivity.
Defined.

End AppFacts.

(* ===================================================================== *)
(** * Facts about the Player component *)
(* ===================================================================== *)

Module PlayerFacts.
Import Player.

Lemma lookup_insert_node (l : list AudioBufferSourceNode) k k' n n' :
  l !! k = Some n ->
  <[k := n']> l !! k' = (if decide (k = k') then Some n' else l !! k').
Proof.
  intros Hk. destruct (decide (k = k')) as [->|Hne].
  - apply list_lookup_insert_eq. eapply lookup_lt_Some; eauto.
  - by apply list_lookup_insert_ne.
Qed.

Ltac flat s := destruct s as [ip pr pi sr st pt af ns]; simpl in *.

Lemma setIsPlaying_fields b s :
  isPlaying (setIsPlaying b s) = b /\
  progress (setIsPlaying b s) = progress s /\
  pitch (setIsPlaying b s) = pitch s /\
  sourceNodeRef (setIsPlaying b s) = sourceNodeRef s /\
  startTimeRef (setIsPlaying b s) = startTimeRef s /\
  pauseTimeRef (setIsPlaying b s) = pauseTimeRef s /\
  nodes (setIsPlaying b s) = nodes s.
Proof.
  unfold setIsPlaying. destruct (Bool.eqb (isPlaying s) b) eqn:E; simpl.
  - apply Bool.eqb_prop in E. repeat split; done.
  - repeat split; done.
Qed.

Lemma pauseAudio_idle now s : sourceNodeRef s = None -> pauseAudio now s = s.
Proof. intros Hs. unfold pauseAudio. by rewrite Hs. Qed.

(** ** The invariant holds in every reachable state *)

Lemma Inv_initial : Inv initial.
Proof. split; simpl; done. Qed.

Lemma Inv_setPitch v s : Inv s -> Inv (setPitch v s).
Proof.
  intros [Hp Hc Hd Hf]. unfold setPitch.
  destruct (Z.eqb (pitch s) v) eqn:E; [by split|].
  flat s. destruct sr as [k|].
  - destruct (Hc k eq_refl) as (n & Hn & Ho & Hdt & Hst).
    unfold update_node; simpl. rewrite Hn.
    split; simpl; try done.
    + intros k' [= <-]. exists (set_detune v n).
      rewrite (lookup_insert_node _ _ _ _ _ Hn), decide_True by done.
      by simpl.
    + intros k' n'. rewrite (lookup_insert_node _ _ _ _ _ Hn).
      case_decide as Hkk.
      * intros [= <-]. simpl. rewrite Hst. done.
      * intros Hn' Hne. eapply Hd; eauto.
  - split; simpl; try done.
Qed.

Lemma Inv_halt k s :
  Inv s -> sourceNodeRef s = Some k ->
  Inv (setIsPlaying false (with_sourceNodeRef None (update_node k detach_and_stop s))).
Proof.
  intros [Hp Hc Hd Hf] Hs. flat s. subst sr.
  destruct (Hc k eq_refl) as (n & Hn & Ho & Hdt & Hst).
  unfold update_node; simpl. rewrite Hn. subst ip.
  unfold setIsPlaying; simpl.
  split; simpl; try done.
  intros k' n'. rewrite (lookup_insert_node _ _ _ _ _ Hn).
  case_decide as Hkk; [by intros [= <-]|].
  intros Hn' Hst'. eapply Hd; eauto.
Qed.

Lemma Inv_irrelevant s s' :
  Inv s -> isPlaying s' = isPlaying s -> sourceNodeRef s' = sourceNodeRef s ->
  pitch s' = pitch s -> nodes s' = nodes s ->
  (animationFrameRef s' = true -> isPlaying s = true) ->
  Inv s'.
Proof.
  intros [Hp Hc Hd Hf] E1 E2 E3 E4 E5.
  split; rewrite ?E1, ?E2, ?E3, ?E4; auto.
Qed.

Lemma setIsPlaying_with_pauseTimeRef b x s :
  setIsPlaying b (with_pauseTimeRef x s) = with_pauseTimeRef x (setIsPlaying b s).
Proof. unfold setIsPlaying; simpl. by destruct (Bool.eqb (isPlaying s) b). Qed.

Lemma Inv_with_pauseTimeRef x s : Inv s -> Inv (with_pauseTimeRef x s).
Proof. intros HI. apply (Inv_irrelevant s); auto. apply HI. Qed.

Lemma Inv_with_progress x s : Inv s -> Inv (with_progress x s).
Proof. intros HI. apply (Inv_irrelevant s); auto. apply HI. Qed.

Lemma Inv_with_startTimeRef x s : Inv s -> Inv (with_startTimeRef x s).
Proof. intros HI. apply (Inv_irrelevant s); auto. apply HI. Qed.

Lemma Inv_frame_off s : Inv s -> Inv (with_animationFrameRef false s).
Proof. intros HI. apply (Inv_irrelevant s); auto. simpl. done. Qed.

Lemma Inv_frame_on s : Inv s -> isPlaying s = true -> Inv (with_animationFrameRef true s).
Proof. intros HI Hp. apply (Inv_irrelevant s); auto. Qed.

Lemma Inv_pauseAudio now s : Inv s -> Inv (pauseAudio now s).
Proof.
  intros HI. unfold pauseAudio.
  destruct (sourceNodeRef s) as [k|] eqn:Hs; [|done].
  cbv zeta. rewrite setIsPlaying_with_pauseTimeRef.
  apply Inv_with_pauseTimeRef. by apply Inv_halt.
Qed.

Lemma Inv_setIsPlaying_false_idle s :
  Inv s -> sourceNodeRef s = None -> setIsPlaying false s = s.
Proof.
  intros [Hp _ _ _] Hs. unfold setIsPlaying. rewrite Hp, Hs. done.
Qed.

Lemma Inv_stopAudio s : Inv s -> Inv (stopAudio s).
Proof.
  intros HI. unfold stopAudio, setProgress. cbv zeta.
  apply Inv_frame_off, Inv_with_progress, Inv_with_pauseTimeRef.
  destruct (sourceNodeRef s) as [k|] eqn:Hs.
  - by apply Inv_halt.
  - by rewrite Inv_setIsPlaying_false_idle.
Qed.

Lemma Inv_playAudio now s :
  Inv s -> sourceNodeRef s = None -> Inv (playAudio now s).
Proof.
  intros [Hp Hc Hd Hf] Hs. unfold playAudio, setIsPlaying. flat s. subst sr ip.
  simpl. split; simpl; try done.
  - intros k [= <-]. exists (mkSource pi true pt false). split; [|done].
    rewrite lookup_app_r by lia. by rewrite Nat.sub_diag.
  - intros k n Hk Hstop.
    destruct (decide (k < length ns)) as [Hlt|Hge].
    + rewrite lookup_app_l in Hk by done. eapply Hd; eauto.
    + rewrite lookup_app_r in Hk by lia.
      destruct (k - length ns) as [|j]; simpl in Hk; [|done].
      injection Hk as <-. done.
Qed.

Lemma Inv_togglePlay now s : Inv s -> Inv (togglePlay now s).
Proof.
  intros HI. unfold togglePlay.
  destruct (isPlaying s) eqn:Hp; [by apply Inv_pauseAudio|].
  assert (Hs : sourceNodeRef s = None).
  { destruct HI as [Hp' _ _ _]. rewrite Hp in Hp'.
    destruct (sourceNodeRef s); [discriminate|done]. }
  destruct (Qle_bool 100 (progress s)).
  - apply Inv_playAudio; [by apply Inv_with_pauseTimeRef|done].
  - by apply Inv_playAudio.
Qed.

Lemma Inv_onended_handler s : Inv s -> Inv (onended_handler s).
Proof.
  intros HI. unfold onended_handler.
  destruct (sourceNodeRef s) as [k|] eqn:Hs; [|done].
  destruct HI as [Hp Hc Hd Hf]. unfold setIsPlaying, setProgress.
  flat s. subst sr ip. simpl.
  split; simpl; done.
Qed.

Lemma Inv_ended k s : Inv s -> Inv (ended k s).
Proof.
  intros HI. unfold ended. destruct (nodes s !! k) as [n|]; [|done].
  destruct (onended n); [by apply Inv_onended_handler|done].
Qed.

Section WithBuffer.
Variable duration : Q.

Lemma Inv_updateProgress now s : Inv s -> Inv (updateProgress duration now s).
Proof.
  intros HI. unfold updateProgress, setProgress. cbv zeta.
  destruct (Qltb _ _ && isPlaying s) eqn:E.
  - apply andb_prop in E as [_ E].
    apply Inv_frame_on; [by apply Inv_with_progress|done].
  - by apply Inv_frame_off, Inv_with_progress.
Qed.

Lemma Inv_step ev s : Inv s -> Inv (step duration ev s).
Proof.
  intros HI. destruct ev as [now| |v|now|k]; simpl.
  - by apply Inv_togglePlay.
  - by apply Inv_stopAudio.
  - by apply Inv_setPitch.
  - unfold animationFrame. destruct (animationFrameRef s); [|done].
    by apply Inv_updateProgress.
  - destruct (dispatchable k s); [by apply Inv_ended|done].
Qed.

Lemma Inv_reachable s : reachable duration s -> Inv s.
Proof.
  induction 1 as [|ev s _ IH]; [apply Inv_initial|by apply Inv_step].
Qed.

Lemma Inv_run evs s : Inv s -> Inv (run duration evs s).
Proof.
  revert s. induction evs as [|ev evs IH]; intros s HI; simpl; [done|].
  apply IH. by apply Inv_step.
Qed.

Lemma reachable_run evs s : reachable duration s -> reachable duration (run duration evs s).
Proof.
  revert s. induction evs as [|ev evs IH]; intros s Hr; simpl; [done|].
  apply IH. by constructor.
Qed.

End WithBuffer.

(** ** Halted nodes stay halted *)

Lemma halted_kept_refl s : halted_kept s s.
Proof. intros k n Hk Hs. eauto. Qed.

Lemma halted_kept_trans s1 s2 s3 :
  halted_kept s1 s2 -> halted_kept s2 s3 -> halted_kept s1 s3.
Proof.
  intros H12 H23 k n Hk Hs.
  destruct (H12 k n Hk Hs) as (n' & Hk' & Hs'). eauto.
Qed.

Lemma halted_kept_same_nodes s s' : nodes s' = nodes s -> halted_kept s s'.
Proof. intros E k n Hk Hs. rewrite E. eauto. Qed.

Lemma halted_kept_update_node j f s :
  (forall n, stopped n = true -> stopped (f n) = true) ->
  halted_kept s (update_node j f s).
Proof.
  intros Hf k n Hk Hs. unfold update_node.
  destruct (nodes s !! j) as [m|] eqn:Hj; [|eauto].
  simpl. rewrite (lookup_insert_node _ _ _ _ _ Hj).
  case_decide as E; [|eauto].
  subst j. rewrite Hk in Hj. injection Hj as <-. eauto.
Qed.

Lemma nodes_setIsPlaying b s : nodes (setIsPlaying b s) = nodes s.
Proof. unfold setIsPlaying. by destruct (Bool.eqb _ _). Qed.

Lemma halted_kept_setPitch v s : halted_kept s (setPitch v s).
Proof.
  unfold setPitch. destruct (Z.eqb _ _); [apply halted_kept_refl|].
  simpl. destruct (sourceNodeRef s) as [k|]; [|by apply halted_kept_same_nodes].
  eapply halted_kept_trans; [|apply halted_kept_update_node; by intros []].
  by apply halted_kept_same_nodes.
Qed.

Lemma halted_kept_pauseAudio now s : halted_kept s (pauseAudio now s).
Proof.
  unfold pauseAudio. destruct (sourceNodeRef s) as [k|]; [|apply halted_kept_refl].
  cbv zeta. eapply halted_kept_trans.
  - apply (halted_kept_update_node k detach_and_stop). by intros [].
  - apply halted_kept_same_nodes. by rewrite nodes_setIsPlaying.
Qed.

Lemma halted_kept_stopAudio s : halted_kept s (stopAudio s).
Proof.
  unfold stopAudio, setProgress. cbv zeta.
  destruct (sourceNodeRef s) as [k|].
  - eapply halted_kept_trans.
    + apply (halted_kept_update_node k detach_and_stop). by intros [].
    + apply halted_kept_same_nodes. simpl. by rewrite nodes_setIsPlaying.
  - apply halted_kept_same_nodes. simpl. by rewrite nodes_setIsPlaying.
Qed.

Lemma halted_kept_playAudio now s : halted_kept s (playAudio now s).
Proof.
  intros k n Hk Hs. unfold playAudio. cbv zeta. rewrite nodes_setIsPlaying. simpl.
  exists n. split; [|done]. rewrite lookup_app_l; [done|].
  eapply lookup_lt_Some; eauto.
Qed.

Lemma halted_kept_onended_handler s : halted_kept s (onended_handler s).
Proof.
  unfold onended_handler. destruct (sourceNodeRef s); [|apply halted_kept_refl].
  apply halted_kept_same_nodes. simpl. by rewrite nodes_setIsPlaying.
Qed.

Lemma halted_kept_step duration ev s : halted_kept s (step duration ev s).
Proof.
  destruct ev as [now| |v|now|k]; simpl.
  - unfold togglePlay. destruct (isPlaying s); [apply halted_kept_pauseAudio|].
    destruct (Qle_bool 100 (progress s)).
    + eapply halted_kept_trans; [|apply halted_kept_playAudio].
      by apply halted_kept_same_nodes.
    + apply halted_kept_playAudio.
  - apply halted_kept_stopAudio.
  - apply halted_kept_setPitch.
  - unfold animationFrame. destruct (animationFrameRef s); [|apply halted_kept_refl].
    apply halted_kept_same_nodes. unfold updateProgress. cbv zeta.
    by destruct (Qltb _ _ && isPlaying s).
  - destruct (dispatchable k s); [|apply halted_kept_refl].
    unfold ended. destruct (nodes s !! k) as [n|]; [|apply halted_kept_refl].
    destruct (onended n); [apply halted_kept_onended_handler|apply halted_kept_refl].
Qed.

Lemma halted_kept_run duration evs s : halted_kept s (run duration evs s).
Proof.
  revert s. induction evs as [|ev evs IH]; intros s; simpl; [apply halted_kept_refl|].
  eapply halted_kept_trans; [apply halted_kept_step|apply IH].
Qed.

(** A node that was halted with stop() no longer reacts to [ended]. *)
Lemma ended_halted_node k n s :
  Inv s -> nodes s !! k = Some n -> stopped n = true -> ended k s = s.
Proof.
  intros HI Hk Hs. unfold ended. rewrite Hk.
  by rewrite (inv_detached s HI k n Hk Hs).
Qed.

Lemma pauseAudio_halts k s now :
  Inv s -> sourceNodeRef s = Some k ->
  exists n, nodes (pauseAudio now s) !! k = Some n /\ stopped n = true.
Proof.
  intros HI Hs. destruct (inv_current s HI k Hs) as (n & Hn & _).
  unfold pauseAudio. rewrite Hs. cbv zeta. rewrite nodes_setIsPlaying. simpl.
  unfold update_node. rewrite Hn. simpl.
  exists (detach_and_stop n). split; [|done].
  by rewrite (lookup_insert_node _ _ _ _ _ Hn), decide_True.
Qed.

Lemma stopAudio_halts k s :
  Inv s -> sourceNodeRef s = Some k ->
  exists n, nodes (stopAudio s) !! k = Some n /\ stopped n = true.
Proof.
  intros HI Hs. destruct (inv_current s HI k Hs) as (n & Hn & _).
  unfold stopAudio, setProgress. rewrite Hs. cbv zeta. simpl.
  rewrite nodes_setIsPlaying. simpl.
  unfold update_node. rewrite Hn. simpl.
  exists (detach_and_stop n). split; [|done].
  by rewrite (lookup_insert_node _ _ _ _ _ Hn), decide_True.
Qed.

(** ** Natural completion and intentional halts *)

(** C8.  In every reachable state with an active source [k]: if [k] runs to
    its natural end, the handler installed by playAudio resets the paused
    offset to zero, leaves the transport stopped, sets progress to 100 and
    clears the source ref; whereas after pauseAudio or stopAudio the handler is
    detached, so that an [ended] event on node [k] changes nothing, neither
    right away nor after any later events. *)
Theorem natural_completion_and_detached_handler
    (duration : Q) (s : State) (k : nat) :
  reachable duration s ->
  sourceNodeRef s = Some k ->
  (let s' := ended k s in
   pauseTimeRef s' = 0%Q /\ isPlaying s' = false /\ progress s' = 100%Q /\
   sourceNodeRef s' = None) /\
  (forall now evs,
     let s' := run duration evs (pauseAudio now s) in ended k s' = s') /\
  (forall evs,
     let s' := run duration evs (stopAudio s) in ended k s' = s').
Proof.
  intros Hr Hs. pose proof (Inv_reachable _ _ Hr) as HI.
  split; [|split].
  - destruct (inv_current s HI k Hs) as (n & Hn & Ho & _).
    unfold ended. rewrite Hn, Ho. unfold onended_handler. rewrite Hs.
    unfold setProgress. simpl.
    by destruct (setIsPlaying_fields false s) as (-> & _).
  - intros now evs s'. subst s'.
    destruct (pauseAudio_halts k s now HI Hs) as (n & Hn & Hst).
    destruct (halted_kept_run duration evs _ k n Hn Hst) as (n' & Hn' & Hst').
    eapply ended_halted_node; eauto.
    by apply Inv_run, Inv_pauseAudio.
  - intros evs s'. subst s'.
    destruct (stopAudio_halts k s HI Hs) as (n & Hn & Hst).
    destruct (halted_kept_run duration evs _ k n Hn Hst) as (n' & Hn' & Hst').
    eapply ended_halted_node; eauto.
    by apply Inv_run, Inv_stopAudio.
Qed.

Lemma natural_completion_and_detached_handler_witness :
  let s := run 10 [TogglePlay 0] initial in
  (let s' := ended 0 s in
   pauseTimeRef s' = 0%Q /\ isPlaying s' = false /\ progress s' = 100%Q /\
   sourceNodeRef s' = None) /\
  (forall now evs,
     let s' := run 10 evs (pauseAudio now s) in ended 0 s' = s') /\
  (forall evs,
     let s' := run 10 evs (stopAudio s) in ended 0 s' = s').
Proof.
  apply (natural_completion_and_detached_handler 10 (run 10 [TogglePlay 0] initial) 0).
  - apply reachable_run. constructor.
  - reflexivity.
Defined.

(** ** pauseAudio without a source *)

(** C10.  With no active source, pauseAudio returns the state it was given:
    offset, progress, pitch and transport flag are all untouched. *)
Theorem pauseAudio_without_source (now : Q) (s : State) :
  sourceNodeRef s = None ->
  pauseAudio now s = s /\
  pauseTimeRef (pauseAudio now s) = pauseTimeRef s /\
  progress (pauseAudio now s) = progress s /\
  pitch (pauseAudio now s) = pitch s /\
  isPlaying (pauseAudio now s) = isPlaying s.
Proof. intros Hs. by rewrite pauseAudio_idle. Qed.

Lemma pauseAudio_without_source_witness :
  let s := run 10 [TogglePlay 0; Frame 2; TogglePlay 3] initial in
  pauseAudio 5 s = s /\
  pauseTimeRef (pauseAudio 5 s) = pauseTimeRef s /\
  progress (pauseAudio 5 s) = progress s /\
  pitch (pauseAudio 5 s) = pitch s /\
  isPlaying (pauseAudio 5 s) = isPlaying s.
Proof.
  apply (pauseAudio_without_source 5 (run 10 [TogglePlay 0; Frame 2; TogglePlay 3] initial)).
  reflexivity.
Defined.

(** In reachable states "no active source" and "not playing" coincide, so
    the same holds whenever the transport is not playing. *)
Lemma pauseAudio_not_playing (duration now : Q) (s : State) :
  reachable duration s -> isPlaying s = false -> pauseAudio now s = s.
Proof.
  intros Hr Hp. apply pauseAudio_idle.
  pose proof (inv_playing s (Inv_reachable _ _ Hr)) as E. rewrite Hp in E.
  destruct (sourceNodeRef s); [discriminate|done].
Qed.

(** ** Pitch *)

Lemma currentSource_playAudio now s :
  currentSource (playAudio now s) = Some (mkSource (pitch s) true (pauseTimeRef s) false).
Proof.
  unfold currentSource, playAudio. cbv zeta.
  destruct (setIsPlaying_fields true
    (with_sourceNodeRef (Some (length (nodes s)))
       (with_startTimeRef now
          (with_nodes (nodes s ++ [mkSource (pitch s) true (pauseTimeRef s) false]) s))))
    as (_ & _ & _ & -> & _ & _ & ->).
  simpl. rewrite lookup_app_r by lia. by rewrite Nat.sub_diag.
Qed.




(** ** stop / pause followed by play *)

Lemma pauseAudio_fields now k s :
  sourceNodeRef s = Some k ->
  pauseTimeRef (pauseAudio now s) = (pauseTimeRef s + (now - startTimeRef s))%Q /\
  isPlaying (pauseAudio now s) = false /\
  sourceNodeRef (pauseAudio now s) = None /\
  progress (pauseAudio now s) = progress s /\
  pitch (pauseAudio now s) = pitch s.
Proof.
  intros Hs. unfold pauseAudio. rewrite Hs. cbv zeta.
  match goal with |- context [setIsPlaying false ?x] =>
    destruct (setIsPlaying_fields false x) as (-> & -> & -> & -> & _ & -> & _) end.
  unfold update_node. by destruct (nodes s !! k).
Qed.

Lemma stopAudio_fields s :
  pauseTimeRef (stopAudio s) = 0%Q /\ progress (stopAudio s) = 0%Q /\
  isPlaying (stopAudio s) = false /\ sourceNodeRef (stopAudio s) = None /\
  animationFrameRef (stopAudio s) = false /\ pitch (stopAudio s) = pitch s.
Proof.
  unfold stopAudio, setProgress. cbv zeta. simpl.
  match goal with |- context [setIsPlaying false ?x] =>
    destruct (setIsPlaying_fields false x) as (-> & _ & -> & -> & _) end.
  destruct (sourceNodeRef s) as [k|] eqn:Hs; [|by rewrite Hs].
  simpl. unfold update_node. by destruct (nodes s !! k).
Qed.


(** A buffer of 10 seconds at unity pitch: play at clock 0, pause at clock
    3.  The offset is 3, the transport is not playing, and the last frame,
    at clock 3, reported 30 percent. *)
Example play_then_pause_after_three_seconds :
  let s := run 10 [TogglePlay 0; Frame 1; Frame 3; TogglePlay 3] initial in
  pauseTimeRef s == 3 /\ isPlaying s = false /\ progress s == 30 /\ pitch s = 0%Z.
Proof. vm_compute. repeat split; discriminate. Qed.

(** The play button after a pause at full displayed progress.  With the
    pitch at -400 the source of a 10 second buffer is still sounding at clock
    11 although the frame at clock 10 already reported 100; pausing then
    leaves offset 11, and the next click on play starts again from 0. *)
Example togglePlay_restarts_at_full_progress :
  let paused := run 10 [TogglePlay 0; PitchInput (-400); Frame 10; TogglePlay 11] initial in
  let resumed := togglePlay 12 paused in
  progress paused == 100 /\ pauseTimeRef paused == 11 /\
  startOffset <$> currentSource resumed = Some 0%Q /\
  startOffset <$> currentSource (playAudio 12 paused) = Some (pauseTimeRef paused).
Proof. vm_compute. repeat split; discriminate. Qed.

(** ** Progress *)

Section Progress.
Variable duration : Q.
Hypothesis duration_pos : (0 < duration)%Q.

Lemma progress_updateProgress now s :
  progress (updateProgress duration now s) = progressAt duration now s.
Proof.
  unfold updateProgress, progressAt, setProgress. cbv zeta.
  by destruct (Qltb _ _ && isPlaying s).
Qed.

Lemma refs_updateProgress now s :
  startTimeRef (updateProgress duration now s) = startTimeRef s /\
  pauseTimeRef (updateProgress duration now s) = pauseTimeRef s /\
  isPlaying (updateProgress duration now s) = isPlaying s.
Proof.
  unfold updateProgress, setProgress. cbv zeta.
  by destruct (Qltb _ _ && isPlaying s).
Qed.






End Progress.



End PlayerFacts.

(* ===================================================================== *)
(** * More about services/geminiService.ts *)
(* ===================================================================== *)

Module GeminiServiceMore.
Import Js GeminiService JsFacts GeminiServiceFacts.
Local Open Scope Z_scope.

(** ** decode *)

(** X1.  [decode] undoes the standard base64 encoding: given the encoding of
    any list of bytes it returns exactly those bytes, and [atob] returns the
    binary string that has them as character codes. *)
Theorem decode_round_trip (pf : Platform) (bytes : list Z) :
  Forall is_byte bytes ->
  decode pf (btoa bytes) = Ok bytes /\
  atob pf (btoa bytes) = Ok (binaryString bytes) /\
  charCodes (binaryString bytes) = bytes.
Proof.
  intros Hb. split; [by apply decode_btoa|]. split.
  - apply atob_encodes. by apply (encodes_encode (length bytes)); [lia|].
  - by apply charCodes_binaryString.
Qed.

Lemma decode_round_trip_witness :
  decode examplePlatform (btoa [72; 105; 33; 0; 255])
    = Ok [72; 105; 33; 0; 255] /\
  atob examplePlatform (btoa [72; 105; 33; 0; 255])
    = Ok (binaryString [72; 105; 33; 0; 255]) /\
  charCodes (binaryString [72; 105; 33; 0; 255]) = [72; 105; 33; 0; 255].
Proof.
  apply (decode_round_trip examplePlatform [72; 105; 33; 0; 255]).
  repeat (apply Forall_cons; split; [unfold is_byte; lia|]). by apply Forall_nil.
Defined.

(** ** decodeAudioData *)

Lemma int16_pairs_even n : forall data,
  length data = (2 * n)%nat ->
  exists l, int16_pairs data = Some l /\ length l = n.
Proof.
  induction n as [|n IH]; intros data Hlen.
  - destruct data; [|done]. by exists [].
  - destruct data as [|lo [|hi rest]]; simpl in Hlen; try lia.
    destruct (IH rest) as (l & Hl & Hn); [lia|].
    exists (int16_of_bytes lo hi :: l). simpl. rewrite Hl. simpl. by rewrite Hn.
Qed.

Lemma int16_pairs_odd n : forall data,
  length data = (2 * n + 1)%nat -> int16_pairs data = None.
Proof.
  induction n as [|n IH]; intros data Hlen.
  - destruct data as [|lo [|hi rest]]; simpl in Hlen; try lia. done.
  - destruct data as [|lo [|hi rest]]; simpl in Hlen; try lia.
    simpl. rewrite (IH rest); [done|lia].
Qed.

Lemma int16_pairs_length data : forall l,
  int16_pairs data = Some l -> length data = (2 * length l)%nat.
Proof.
  destruct (Nat.Even_or_Odd (length data)) as [[n Hn]|[n Hn]].
  - destruct (int16_pairs_even n data Hn) as (l' & -> & Hl).
    intros l [= <-]. lia.
  - by rewrite (int16_pairs_odd n data Hn).
Qed.

Lemma fill_channel_lookup samples c f ch i :
  (i < f)%nat ->
  fill_channel samples c f ch !! i
  = Some (inject_Z (default 0%Z (samples !! (i * c + ch)%nat)) / 32768)%Q.
Proof.
  intros Hi. unfold fill_channel.
  by rewrite list_lookup_fmap, lookup_seq_lt.
Qed.

Lemma length_fill_channel samples c f ch : length (fill_channel samples c f ch) = f.
Proof. unfold fill_channel. by rewrite length_map, length_seq. Qed.

(** X2.  [decodeAudioData] de-interleaves.  For [c >= 1] channels and
    [f >= 1] frames, given [2 * c * f] bytes, it returns a buffer with [c]
    channels of [f] frames at the given rate in which frame [i] of channel
    [ch] is the 16-bit integer at position [i * c + ch] of the data (low
    byte first, signed) divided by 32768, a value within [-1, 1].  Stated
    for what every platform's createBuffer accepts: at most 32 channels and
    a rate from 8000 to 96000. *)
Theorem decodeAudioData_channels
    (pf : Platform) (data : list Z) (rate : Z) (c f : nat) :
  Forall is_byte data ->
  (1 <= c <= 32)%nat -> (1 <= f)%nat ->
  (8000 <= rate <= 96000)%Z ->
  length data = (2 * (c * f))%nat ->
  exists buffer,
    decodeAudioData pf data rate c = Ok buffer /\
    numberOfChannels buffer = c /\ frames buffer = f /\ sampleRate buffer = rate /\
    length (channelData buffer) = c /\
    forall ch i, (ch < c)%nat -> (i < f)%nat ->
      exists chan lo hi,
        channelData buffer !! ch = Some chan /\ length chan = f /\
        data !! (2 * (i * c + ch))%nat = Some lo /\
        data !! (2 * (i * c + ch) + 1)%nat = Some hi /\
        chan !! i = Some (inject_Z (int16_of_bytes lo hi) / 32768)%Q /\
        (-1 <= inject_Z (int16_of_bytes lo hi) / 32768 <= 1)%Q.
Proof.
  intros Hb [Hc _] Hf _ Hlen.
  destruct (int16_pairs_spec (c * f) data Hlen Hb) as (samples & Hs & Hl & Hr & Hi).
  unfold decodeAudioData, Int16Array. rewrite Hs. cbn [mbind result_bind].
  rewrite Hl, Nat.mul_comm, Nat.div_mul by lia.
  unfold createBuffer.
  destruct (Nat.eqb_spec c 0); [lia|]. destruct (Nat.eqb_spec f 0); [lia|].
  cbn [orb mbind result_bind mret result_ret numberOfChannels frames sampleRate].
  eexists. split; [reflexivity|]. cbn [numberOfChannels frames sampleRate channelData].
  rewrite length_map, length_seq. repeat split; try done.
  intros ch i Hch Hi'.
  assert (Hj : (i * c + ch < length samples)%nat) by (rewrite Hl; nia).
  destruct (lookup_lt_is_Some_2 samples _ Hj) as [k Hk].
  assert (Hj2 : (2 * (i * c + ch) + 1 < length data)%nat) by (rewrite Hlen; nia).
  destruct (lookup_lt_is_Some_2 data (2 * (i * c + ch)) ltac:(lia)) as [lo Hlo].
  destruct (lookup_lt_is_Some_2 data _ Hj2) as [hi Hhi].
  pose proof (Hi _ lo hi Hlo Hhi) as Hk'. rewrite Hk in Hk'. injection Hk' as ->.
  exists (fill_channel samples c f ch), lo, hi.
  rewrite list_lookup_fmap, lookup_seq_lt by done.
  rewrite length_fill_channel, fill_channel_lookup, Hk by done.
  repeat split; try done.
  all: apply normalize_range; eapply Forall_lookup_1; eauto.
Qed.

Lemma decodeAudioData_channels_witness :
  exists buffer,
    decodeAudioData examplePlatform [1; 0; 2; 0; 255; 255; 0; 128] 48000 2 = Ok buffer /\
    numberOfChannels buffer = 2%nat /\ frames buffer = 2%nat /\
    sampleRate buffer = 48000 /\
    length (channelData buffer) = 2%nat /\
    forall ch i, (ch < 2)%nat -> (i < 2)%nat ->
      exists chan lo hi,
        channelData buffer !! ch = Some chan /\ length chan = 2%nat /\
        [1; 0; 2; 0; 255; 255; 0; 128] !! (2 * (i * 2 + ch))%nat = Some lo /\
        [1; 0; 2; 0; 255; 255; 0; 128] !! (2 * (i * 2 + ch) + 1)%nat = Some hi /\
        chan !! i = Some (inject_Z (int16_of_bytes lo hi) / 32768)%Q /\
        (-1 <= inject_Z (int16_of_bytes lo hi) / 32768 <= 1)%Q.
Proof.
  apply (decodeAudioData_channels examplePlatform [1; 0; 2; 0; 255; 255; 0; 128] 48000 2 2).
  - repeat (apply Forall_cons; split; [unfold is_byte; lia|]). by apply Forall_nil.
  - lia.
  - lia.
  - lia.
  - reflexivity.
Defined.

(** X3.  When [decodeAudioData] refuses.  An odd number of bytes raises the
    RangeError of the Int16Array view; an even number with no channel, or
    with fewer 16-bit integers than channels, raises the NotSupportedError of
    createBuffer; and a buffer is returned only for an even number of bytes
    that holds at least one integer per channel, for at least one channel,
    with as many frames as whole times the channels go into the integers
    (createBuffer truncates the quotient the code passes). *)
Theorem decodeAudioData_refusals
    (pf : Platform) (data : list Z) (rate : Z) (c : nat) :
  (forall n, length data = (2 * n + 1)%nat ->
     decodeAudioData pf data rate c = Throw (RangeError pf)) /\
  (forall n, length data = (2 * n)%nat -> (c = 0%nat \/ (n < c)%nat) ->
     decodeAudioData pf data rate c = Throw (NotSupportedError pf)) /\
  (forall buffer, decodeAudioData pf data rate c = Ok buffer ->
     exists n, length data = (2 * n)%nat /\ (1 <= c <= n)%nat /\
               numberOfChannels buffer = c /\ frames buffer = (n / c)%nat).
Proof.
  split; [|split].
  - intros n Hn. unfold decodeAudioData, Int16Array.
    by rewrite (int16_pairs_odd n data Hn).
  - intros n Hn Hc. unfold decodeAudioData, Int16Array.
    destruct (int16_pairs_even n data Hn) as (l & -> & Hl).
    cbn [mbind result_bind]. unfold createBuffer. rewrite Hl.
    destruct Hc as [->|Hlt]; [done|].
    rewrite (Nat.div_small n c Hlt).
    by destruct (c =? 0)%nat.
  - intros buffer. unfold decodeAudioData, Int16Array.
    destruct (int16_pairs data) as [l|] eqn:Hl; [|done].
    cbn [mbind result_bind]. unfold createBuffer.
    destruct (Nat.eqb_spec c 0) as [|Hc]; [done|].
    destruct (Nat.eqb_spec (length l / c) 0) as [|Hf]; [done|].
    cbn [orb mbind result_bind mret result_ret numberOfChannels frames sampleRate].
    intros [= <-]. exists (length l). split; [by apply int16_pairs_length|].
    cbn [numberOfChannels frames]. repeat split; try lia.
    destruct (Nat.le_gt_cases c (length l)) as [|Hlt]; [done|].
    by rewrite (Nat.div_small _ _ Hlt) in Hf.
Qed.

(** ** generateSpeech *)

Lemma generateSpeech_inversion pf API_KEY reply buffer :
  generateSpeech pf API_KEY reply = Ok buffer ->
  truthy API_KEY = true /\
  (exists resp, reply = Fulfilled resp /\ truthy (inlineAudio resp) = true) /\
  speechBuffer buffer.
Proof.
  intros H. pose proof (generateSpeech_duration_positive _ _ _ _ H) as Hd.
  revert H. unfold generateSpeech, getAIClient.
  destruct (truthy API_KEY); [|done]. cbn [mbind result_bind].
  destruct reply as [resp|e]; [|done]. cbn [await mbind result_bind].
  destruct (truthy (inlineAudio resp)) eqn:Ht; [|done]. cbn [negb].
  destruct (decode pf _) as [bytes|] eqn:Hdec; [|done]. cbn [mbind result_bind].
  destruct (decode_bytes _ _ _ Hdec) as [Hbytes _].
  unfold decodeAudioData, Int16Array.
  destruct (int16_pairs bytes) as [samples|] eqn:Hs; [|done].
  cbn [mbind result_bind]. rewrite Nat.div_1_r. unfold createBuffer.
  destruct samples as [|k samples]; [done|].
  cbn [length Nat.eqb orb mbind result_bind mret result_ret numberOfChannels frames
       sampleRate seq map].
  intros [= <-].
  split; [done|]. split; [by exists resp|].
  split; cbn [numberOfChannels frames sampleRate channelData]; try done; try lia.
  exists (fill_channel (k :: samples) 1 (S (length samples)) 0).
  split; [done|]. split; [apply length_fill_channel|].
  change (S (length samples)) with (length (k :: samples)).
  rewrite fill_channel_mono. apply Forall_fmap.
  pose proof (int16_pairs_length _ _ Hs) as Hlen.
  destruct (int16_pairs_spec _ bytes Hlen Hbytes) as (s' & Hs' & _ & Hr & _).
  rewrite Hs in Hs'. injection Hs' as <-.
  eapply Forall_impl; [exact Hr|]. intros x Hx. by apply normalize_range.
Qed.

(** X4.  Whatever the reply, a buffer that [generateSpeech] returns has
    exactly one channel, sample rate 24000 and at least one frame, holds as
    many samples as frames, every sample within [-1, 1], and has a positive
    duration; and it is returned only with an API key present and a fulfilled
    reply that carries inline audio data. *)
Theorem generateSpeech_buffer_shape
    (pf : Platform) (API_KEY : option string)
    (reply : Settled GenerateContentResponse) (buffer : AudioBuffer) :
  generateSpeech pf API_KEY reply = Ok buffer ->
  truthy API_KEY = true /\
  (exists resp, reply = Fulfilled resp /\ truthy (inlineAudio resp) = true) /\
  numberOfChannels buffer = 1%nat /\
  sampleRate buffer = 24000 /\
  (1 <= frames buffer)%nat /\
  (exists chan, channelData buffer = [chan] /\ length chan = frames buffer /\
                Forall (fun x => (-1 <= x <= 1)%Q) chan) /\
  (0 < duration buffer)%Q.
Proof.
  intros H. destruct (generateSpeech_inversion _ _ _ _ H) as (Hk & Hr & []).
  done.
Qed.

Lemma generateSpeech_buffer_shape_witness :
  let buffer := mkAudioBuffer 1 4 24000
                  [[0 # 32768; 32767 # 32768; -32768 # 32768; -1 # 32768]%Q] in
  truthy (Some "key"%string) = true /\
  (exists resp, audioReplyOf "AAD/fwCA//8=" = Fulfilled resp /\
                truthy (inlineAudio resp) = true) /\
  numberOfChannels buffer = 1%nat /\
  sampleRate buffer = 24000 /\
  (1 <= frames buffer)%nat /\
  (exists chan, channelData buffer = [chan] /\ length chan = frames buffer /\
                Forall (fun x => (-1 <= x <= 1)%Q) chan) /\
  (0 < duration buffer)%Q.
Proof.
  apply (generateSpeech_buffer_shape examplePlatform (Some "key"%string)
           (audioReplyOf "AAD/fwCA//8=")).
  reflexivity.
Defined.

(** ** The prompt *)

Lemma prompt_split articles :
  exists pre post,
    prompt articles = pre +:+ join line_feed (imap labelled articles) +:+ post.
Proof.
  unfold prompt.
  match goal with |- context [join line_feed ?l] =>
    match l with
    | [?a1; ?a2; ?a3; ?a4; ?a5; ?a6; ?a7; ?a8; ?a9; ?a10; ?a11; ?a12; ?a13; ?x; ?z] =>
        destruct (join_middle line_feed
                    [a1; a2; a3; a4; a5; a6; a7; a8; a9; a10; a11; a12; a13] x [z])
          as (pre & post & E & _)
    end
  end.
  cbn [app] in E. rewrite E.
  exists (pre +:+ "    "), post. by rewrite !append_assoc_s.
Qed.

Lemma includes_trans s m n :
  includes s m = true -> includes m n = true -> includes s n = true.
Proof.
  rewrite !includes_spec. intros (p1 & q1 & ->) (p2 & q2 & ->).
  exists (p1 +:+ p2), (q2 +:+ q1). by rewrite !append_assoc_s.
Qed.

Lemma includes_labelled i a : includes (labelled i a) a = true.
Proof.
  apply includes_spec. unfold labelled.
  exists ("--- ARTICLE " +:+ pretty (i + 1)%nat +:+ " ---" +:+ line_feed)%string, line_feed.
  by rewrite !append_assoc_s.
Qed.

Lemma prompt_includes_labelled articles i a :
  articles !! i = Some a -> includes (prompt articles) (labelled i a) = true.
Proof.
  intros Hi.
  destruct (prompt_split articles) as (P & Q & Hp).
  set (L := imap labelled articles) in *.
  assert (HLi : L !! i = Some (labelled i a)).
  { unfold L. by rewrite list_lookup_imap, Hi. }
  pose proof (take_drop_middle L i _ HLi) as Hsplit.
  apply includes_spec.
  destruct (join_middle line_feed (take i L) (labelled i a) (drop (S i) L))
    as (pre & post & E & _).
  rewrite Hsplit in E. rewrite Hp, E.
  exists (P +:+ pre), (post +:+ Q). by rewrite !append_assoc_s.
Qed.

(** X5.  The prompt of [summarizeArticles] holds every article it is given,
    under the heading that carries its position counted from 1, and holds
    them in the order of the list. *)
Theorem prompt_holds_every_article (articles : list string) (i : nat) (a : string) :
  articles !! i = Some a ->
  includes (prompt articles) (labelled i a) = true /\
  labelled i a
    = ("--- ARTICLE " +:+ pretty (i + 1)%nat +:+ " ---" +:+ line_feed
       +:+ a +:+ line_feed)%string /\
  (forall j b, (i < j)%nat -> articles !! j = Some b ->
     exists pre mid post,
       prompt articles
       = pre +:+ labelled i a +:+ mid +:+ labelled j b +:+ post).
Proof.
  intros Hi.
  destruct (prompt_split articles) as (P & Q & Hp).
  set (L := imap labelled articles) in *.
  assert (HLi : L !! i = Some (labelled i a)).
  { unfold L. by rewrite list_lookup_imap, Hi. }
  pose proof (take_drop_middle L i _ HLi) as Hsplit.
  split; [by apply prompt_includes_labelled|]. split; [done|].
  intros j b Hij Hj.
  assert (HLj : drop (S i) L !! (j - S i)%nat = Some (labelled j b)).
  { rewrite lookup_drop. replace (S i + (j - S i))%nat with j by lia.
    unfold L. by rewrite list_lookup_imap, Hj. }
  pose proof (take_drop_middle _ _ _ HLj) as Hsplit2.
  destruct (join_middle line_feed (take i L) (labelled i a) (drop (S i) L))
    as (pre & post & E & _ & Hpost).
  rewrite Hsplit in E.
  assert (Hne : drop (S i) L <> []).
  { intros E0. by rewrite E0 in HLj. }
  rewrite (Hpost Hne) in E.
  destruct (join_middle line_feed (take (j - S i) (drop (S i) L)) (labelled j b)
              (drop (S (j - S i)) (drop (S i) L))) as (pre2 & post2 & E2 & _).
  rewrite Hsplit2 in E2. rewrite E2 in E. rewrite Hp, E.
  exists (P +:+ pre), (line_feed +:+ pre2), (post2 +:+ Q).
  by rewrite !append_assoc_s.
Qed.

Lemma prompt_holds_every_article_witness :
  let articles := ["Title: Markets"; "Title: Weather"; "Title: Sport"]%string in
  includes (prompt articles) (labelled 1 "Title: Weather") = true /\
  labelled 1 "Title: Weather"
    = ("--- ARTICLE " +:+ pretty (1 + 1)%nat +:+ " ---" +:+ line_feed
       +:+ "Title: Weather" +:+ line_feed)%string /\
  (forall j b, (1 < j)%nat -> articles !! j = Some b ->
     exists pre mid post,
       prompt articles
       = pre +:+ labelled 1 "Title: Weather" +:+ mid +:+ labelled j b +:+ post).
Proof.
  apply (prompt_holds_every_article
           ["Title: Markets"; "Title: Weather"; "Title: Sport"]%string 1 "Title: Weather").
  reflexivity.
Defined.

(** ** A payload that is not base64 *)

Lemma strip_padding_keeps (c : ascii) (l : list ascii) :
  c ∈ l -> is_equals_sign c = false -> c ∈ strip_padding l.
Proof.
  intros Hc Hne. unfold strip_padding.
  destruct (length l mod 4 =? 0)%nat; [|done].
  destruct (rev l) as [|a [|b r]] eqn:Hr; [done|done|].
  assert (Hl : l = rev r ++ [b; a]).
  { rewrite <- (rev_involutive l), Hr. cbn [rev]. by rewrite <- app_assoc. }
  destruct (is_equals_sign a) eqn:Ha; [|done].
  assert (Hin : c ∈ rev r ++ [b] \/ c = a).
  { rewrite Hl in Hc. apply elem_of_app in Hc as [Hc|Hc].
    - left. apply elem_of_app. by left.
    - apply elem_of_cons in Hc as [->|Hc]; [left; apply elem_of_app; right; apply list_elem_of_here|].
      apply list_elem_of_singleton in Hc. by right. }
  destruct Hin as [Hin| ->]; [|congruence].
  destruct (is_equals_sign b) eqn:Hb; [|by cbn [rev]].
  apply elem_of_app in Hin as [Hin|Hin]; [done|].
  apply list_elem_of_singleton in Hin. congruence.
Qed.

(** X22.  A payload that holds a character outside the base64 alphabet,
    other than ASCII white space and the equals sign (for one, the [-] and
    [_] of the URL-safe alphabet), makes [decode] throw atob's
    InvalidCharacterError, and [generateSpeech] throws it in turn: no buffer
    is built from part of the payload. *)
Theorem payload_with_foreign_character
    (pf : Platform) (API_KEY : option string) (resp : GenerateContentResponse)
    (payload : string) (c : ascii) :
  truthy API_KEY = true ->
  inlineAudio resp = Some payload ->
  c ∈ list_ascii_of_string payload ->
  base64_value c = None ->
  is_ascii_whitespace c = false ->
  is_equals_sign c = false ->
  decode pf payload = Throw (InvalidCharacterError pf) /\
  generateSpeech pf API_KEY (Fulfilled resp) = Throw (InvalidCharacterError pf).
Proof.
  intros Hkey Hp Hc Hv Hw He.
  assert (Hd : decode pf payload = Throw (InvalidCharacterError pf)).
  { unfold decode, atob. cbv zeta.
    destruct (_ =? 1)%nat; [done|].
    destruct (mapM base64_value _) as [sx|] eqn:Hm; [|done].
    exfalso. assert (Hs : is_Some (mapM base64_value
      (strip_padding (filter (fun c => is_ascii_whitespace c = false)
                             (list_ascii_of_string payload))))) by (by eexists).
    apply mapM_is_Some in Hs. rewrite Forall_forall in Hs.
    destruct (Hs c) as [v Hv']; [|congruence].
    apply strip_padding_keeps; [|done]. by apply list_elem_of_filter. }
  split; [done|].
  unfold generateSpeech, getAIClient. rewrite Hkey. cbn [mbind result_bind await].
  rewrite Hp. destruct payload as [|ch rest]; [by apply elem_of_nil in Hc|].
  change (default EmptyString (Some (String ch rest))) with (String ch rest).
  cbn [truthy negb]. by rewrite Hd.
Qed.

Lemma payload_with_foreign_character_witness :
  decode examplePlatform "AAD_fwCA" = Throw (InvalidCharacterError examplePlatform) /\
  generateSpeech examplePlatform (Some "key"%string) (audioReplyOf "AAD_fwCA")
    = Throw (InvalidCharacterError examplePlatform).
Proof.
  apply (payload_with_foreign_character examplePlatform (Some "key"%string)
           (mkResponse None
              (Some [mkCandidate (Some (mkContent (Some
                 [mkPart (Some (mkBlob (Some "AAD_fwCA"%string)))])))]))
           "AAD_fwCA" "_"%char); try reflexivity.
  vm_compute. do 3 apply list_elem_of_further. apply list_elem_of_here.
Defined.

End GeminiServiceMore.

(* ===================================================================== *)
(** * More about the orchestrator *)
(* ===================================================================== *)

Module AppMore.
Import Js GeminiService App JsFacts GeminiServiceFacts GeminiServiceMore AppFacts.

(** ** getFriendlyErrorMessage *)

Lemma has_includes m kws :
  Exists (mentions m) kws <-> existsb (includes (toLowerCase m)) kws = true.
Proof.
  induction kws as [|kw kws IH]; simpl.
  - split; [by intros H%Exists_nil|done].
  - rewrite Exists_cons, orb_true_iff, IH, includes_toLowerCase. done.
Qed.

Lemma hasnt_includes m kws :
  ~ Exists (mentions m) kws <-> existsb (includes (toLowerCase m)) kws = false.
Proof. rewrite has_includes. by destruct (existsb _ _). Qed.

Lemma orElse_some_empty m : orElse (Some m) EmptyString = m.
Proof. by destruct m. Qed.

Ltac keywords :=
  repeat match goal with
  | H : Exists (mentions _) _ |- _ => apply has_includes in H; cbn [existsb] in H
  | H : ~ Exists (mentions _) _ |- _ => apply hasnt_includes in H; cbn [existsb] in H
  | H : _ || _ = false |- _ => apply orb_false_iff in H; destruct H
  | H : includes _ _ = false |- _ => rewrite H; clear H
  | H : false = false |- _ => clear H
  end;
  cbn [orb].

(** X6.  [getFriendlyErrorMessage] classifies by keyword, whatever the case
    of the letters in the message, and the first matching group in the order
    of the source wins: API key, quota, safety, network, overload, missing
    audio.  A message that mentions no keyword is shown as it is. *)
Theorem friendly_message_by_keyword (m : string) :
  let shown := getFriendlyErrorMessage (newError m) in
  let has := Exists (mentions m) in
  (has ["api_key"; "apikey"]%string ->
     shown = "API Key is missing or invalid. Please check your settings."%string) /\
  (~ has ["api_key"; "apikey"]%string -> has ["quota"; "429"]%string ->
     shown = "API usage limit exceeded. Please try again later."%string) /\
  (~ has ["api_key"; "apikey"; "quota"; "429"]%string ->
   has ["safety"; "blocked"; "harmful"]%string ->
     shown = "Content was flagged by safety filters. Please review and edit your articles."%string) /\
  (~ has ["api_key"; "apikey"; "quota"; "429"; "safety"; "blocked"; "harmful"]%string ->
   has ["network"; "fetch"; "connection"]%string ->
     shown = "Network connection error. Please check your internet and try again."%string) /\
  (~ has ["api_key"; "apikey"; "quota"; "429"; "safety"; "blocked"; "harmful";
          "network"; "fetch"; "connection"]%string ->
   has ["503"; "overloaded"; "service unavailable"]%string ->
     shown = "The AI service is currently overloaded. Please wait a moment and try again."%string) /\
  (~ has ["api_key"; "apikey"; "quota"; "429"; "safety"; "blocked"; "harmful";
          "network"; "fetch"; "connection"; "503"; "overloaded";
          "service unavailable"]%string ->
   has ["no audio data"]%string ->
     shown = "Audio generation failed to return data. Please try again."%string) /\
  (~ has ["api_key"; "apikey"; "quota"; "429"; "safety"; "blocked"; "harmful";
          "network"; "fetch"; "connection"; "503"; "overloaded";
          "service unavailable"; "no audio data"]%string ->
   m <> EmptyString -> shown = m).
Proof.
  intros shown has. unfold shown, has, getFriendlyErrorMessage.
  cbn [message newError]. rewrite orElse_some_empty.
  repeat split.
  - intros H. keywords.
    by destruct (includes _ "api_key"), (includes _ "apikey").
  - intros N H. keywords.
    by destruct (includes _ "quota"), (includes _ "429").
  - intros N H. keywords.
    by destruct (includes _ "safety"), (includes _ "blocked"), (includes _ "harmful").
  - intros N H. keywords.
    by destruct (includes _ "network"), (includes _ "fetch"), (includes _ "connection").
  - intros N H. keywords.
    by destruct (includes _ "503"), (includes _ "overloaded"),
         (includes _ "service unavailable").
  - intros N H. keywords.
    by destruct (includes _ "no audio data").
  - intros N Hm. keywords. by destruct m.
Qed.

(** The classification at work on messages in mixed case. *)
Example friendly_message_samples :
  getFriendlyErrorMessage (newError "Resource exhausted: QUOTA exceeded (apiKey rejected)")
    = "API Key is missing or invalid. Please check your settings."%string /\
  getFriendlyErrorMessage (newError "HTTP 429: Quota exceeded; Failed to fetch")
    = "API usage limit exceeded. Please try again later."%string /\
  getFriendlyErrorMessage (newError "TypeError: Failed to FETCH")
    = "Network connection error. Please check your internet and try again."%string /\
  getFriendlyErrorMessage (newError "Invalid voice name")
    = "Invalid voice name"%string.
Proof. by vm_compute. Qed.

Lemma getFriendlyErrorMessage_nonempty e : getFriendlyErrorMessage e <> EmptyString.
Proof.
  unfold getFriendlyErrorMessage.
  repeat match goal with
  | |- (if ?b then _ else _) <> _ => destruct b; [done|]
  end.
  by destruct (message e) as [[|c r]|].
Qed.

(** ** A missing API key *)

(** X7.  Without an API key (absent or empty) both remote operations throw
    before any reply is looked at, and a generate call that is still current
    ends in the error state with the API-key message; what was published
    of summary and audio stays as it was. *)
Theorem missing_api_key_fails_generation
    (pf : Platform) (API_KEY : option string) (w : World) (rid : nat) (r : Request)
    (reply : Settled GenerateContentResponse) :
  truthy API_KEY = false ->
  requests w !! rid = Some r ->
  stage r = AwaitSummarize ->
  stale r (app w) = false ->
  (forall reply',
     summarizeArticles API_KEY reply'
       = Throw (newError "API_KEY environment variable is missing.") /\
     generateSpeech pf API_KEY reply'
       = Throw (newError "API_KEY environment variable is missing.")) /\
  let w' := step pf API_KEY (Summarized rid reply) w in
  generationState (app w')
    = mkGenerationState error
        (Some "API Key is missing or invalid. Please check your settings."%string) /\
  summaryText (app w') = summaryText (app w) /\
  audioBuffer (app w') = audioBuffer (app w) /\
  stage <$> requests w' !! rid = Some Returned.
Proof.
  intros Hkey Hr Hst Hlive.
  assert (Hs : forall reply',
    summarizeArticles API_KEY reply'
    = Throw (newError "API_KEY environment variable is missing.")).
  { intros reply'. unfold summarizeArticles, getAIClient. by rewrite Hkey. }
  split.
  - intros reply'. split; [apply Hs|].
    unfold generateSpeech, getAIClient. by rewrite Hkey.
  - cbn [step]. rewrite Hr, Hst, Hs.
    cbn [handleGenerate_summarized]. unfold handleGenerate_catch. rewrite Hlive.
    cbn [app requests]. repeat split.
    rewrite list_lookup_insert_eq by (by eapply lookup_lt_Some). done.
Qed.

Lemma missing_api_key_fails_generation_witness :
  let w := step examplePlatform None (Generate 1000)
             (step examplePlatform None (SetArticles [sampleArticle]) initialWorld) in
  (forall reply',
     summarizeArticles None reply'
       = Throw (newError "API_KEY environment variable is missing.") /\
     generateSpeech examplePlatform None reply'
       = Throw (newError "API_KEY environment variable is missing.")) /\
  let w' := step examplePlatform None (Summarized 0 (textReply "Good morning.")) w in
  generationState (app w')
    = mkGenerationState error
        (Some "API Key is missing or invalid. Please check your settings."%string) /\
  summaryText (app w') = summaryText (app w) /\
  audioBuffer (app w') = audioBuffer (app w) /\
  stage <$> requests w' !! 0%nat = Some Returned.
Proof.
  apply (missing_api_key_fails_generation examplePlatform None
           (step examplePlatform None (Generate 1000)
              (step examplePlatform None (SetArticles [sampleArticle]) initialWorld))
           0 (mkRequest 1000 [describe sampleArticle] Kore AwaitSummarize)
           (textReply "Good morning."));
    reflexivity.
Defined.

(** ** The whole of a generation *)

Lemma step_Generate pf API_KEY now w :
  articles (app w) <> [] ->
  is_Some (audioContextRef (app w)) ->
  step pf API_KEY (Generate now) w
  = mkWorld
      (setGenerationState (state_of summarizing)
         (setAudioBuffer None (setSummaryText None
            (set_lastGenRequestRef now (app w)))))
      (requests w ++ [mkRequest now (map describe (articles (app w)))
                        (selectedVoice (app w)) AwaitSummarize]).
Proof.
  intros Hq [ctx Hctx]. cbn [step]. unfold handleGenerate_call.
  destruct (articles (app w)) as [|a l] eqn:Ha; [done|].
  cbn [length Nat.eqb]. by rewrite Hctx.
Qed.

(** X8.  From any state with a non-empty queue and an audio context, a
    generate call whose two remote operations return goes through
    summarizing and generating_audio to ready, and publishes exactly the
    summary and the buffer they returned; the queue is untouched. *)
Theorem generation_succeeds_end_to_end
    (pf : Platform) (API_KEY : option string) (w : World) (now : Z)
    (textReply0 audioReply0 : Settled GenerateContentResponse)
    (summary : string) (buffer : AudioBuffer) :
  articles (app w) <> [] ->
  is_Some (audioContextRef (app w)) ->
  summarizeArticles API_KEY textReply0 = Ok summary ->
  generateSpeech pf API_KEY audioReply0 = Ok buffer ->
  let rid := length (requests w) in
  let w1 := step pf API_KEY (Generate now) w in
  let w2 := step pf API_KEY (Summarized rid textReply0) w1 in
  let w3 := step pf API_KEY (Synthesized rid audioReply0) w2 in
  published (app w1) = (state_of summarizing, None, None) /\
  published (app w2) = (state_of generating_audio, Some summary, None) /\
  published (app w3) = (state_of ready, Some summary, Some buffer) /\
  articles (app w3) = articles (app w) /\
  w3 = run pf API_KEY
         [Generate now; Summarized rid textReply0; Synthesized rid audioReply0] w.
Proof.
  intros Hq [ctx Hctx] Hsum Hsp rid w1 w2 w3.
  assert (E1 : w1 = mkWorld
            (setGenerationState (state_of summarizing)
               (setAudioBuffer None (setSummaryText None
                  (set_lastGenRequestRef now (app w)))))
            (requests w ++ [mkRequest now (map describe (articles (app w)))
                              (selectedVoice (app w)) AwaitSummarize])).
  { unfold w1. apply step_Generate; [done|by exists ctx]. }
  assert (E2 : w2 = mkWorld
            (setGenerationState (state_of generating_audio)
               (setSummaryText (Some summary) (app w1)))
            (<[rid := mkRequest now (map describe (articles (app w)))
                        (selectedVoice (app w)) (AwaitSpeech summary)]> (requests w1))).
  { unfold w2. cbn [step]. rewrite E1 at 1. cbn [requests].
    unfold rid. rewrite lookup_app_r, Nat.sub_diag by lia. cbn [lookup list_lookup stage].
    rewrite Hsum. cbn [handleGenerate_summarized].
    unfold stale. rewrite E1. cbn [app lastGenRequestRef setGenerationState
      setAudioBuffer setSummaryText set_lastGenRequestRef currentRequestTime].
    rewrite Z.eqb_refl. cbn [negb]. done. }
  assert (E3 : w3 = mkWorld
            (setGenerationState (state_of ready)
               (setAudioBuffer (Some buffer) (app w2)))
            (<[rid := mkRequest now (map describe (articles (app w)))
                        (selectedVoice (app w)) Returned]> (requests w2))).
  { unfold w3. cbn [step]. rewrite E2 at 1. cbn [requests].
    rewrite list_lookup_insert_eq
      by (rewrite E1; cbn [requests]; rewrite length_app; cbn [length]; unfold rid; lia).
    cbn [stage]. rewrite Hsp. cbn [handleGenerate_synthesized].
    unfold stale. rewrite E2, E1. cbn [app lastGenRequestRef setGenerationState
      setAudioBuffer setSummaryText set_lastGenRequestRef currentRequestTime].
    rewrite Z.eqb_refl. cbn [negb]. done. }
  split; [by rewrite E1|]. split; [by rewrite E2, E1|].
  split; [by rewrite E3, E2, E1|]. split; [by rewrite E3, E2, E1|].
  done.
Qed.

Lemma generation_succeeds_end_to_end_witness :
  let pf := examplePlatform in
  let key := Some "key"%string in
  let w := step pf key (SetArticles [sampleArticle]) initialWorld in
  let buffer := mkAudioBuffer 1 4 24000
                  [[0 # 32768; 32767 # 32768; -32768 # 32768; -1 # 32768]%Q] in
  let w1 := step pf key (Generate 1000) w in
  let w2 := step pf key (Summarized 0 (textReply "Good morning.")) w1 in
  let w3 := step pf key (Synthesized 0 (audioReply "AAD/fwCA//8=")) w2 in
  published (app w1) = (state_of summarizing, None, None) /\
  published (app w2) = (state_of generating_audio, Some "Good morning."%string, None) /\
  published (app w3) = (state_of ready, Some "Good morning."%string, Some buffer) /\
  articles (app w3) = articles (app w) /\
  w3 = run pf key
         [Generate 1000; Summarized 0 (textReply "Good morning.");
          Synthesized 0 (audioReply "AAD/fwCA//8=")] w.
Proof.
  apply (generation_succeeds_end_to_end examplePlatform (Some "key"%string)
           (step examplePlatform (Some "key"%string) (SetArticles [sampleArticle])
              initialWorld)
           1000 (textReply "Good morning.") (audioReply "AAD/fwCA//8=")).
  - discriminate.
  - by eexists.
  - reflexivity.
  - reflexivity.
Defined.

(** ** What every reachable state satisfies *)

Lemma run_invariant (P : World -> Prop) pf API_KEY :
  (forall ev w, P w -> P (step pf API_KEY ev w)) ->
  forall evs w, P w -> P (run pf API_KEY evs w).
Proof.
  intros Hstep evs. induction evs as [|ev evs IH]; intros w Hw; [done|].
  simpl. apply IH. by apply Hstep.
Qed.

Ltac coherence :=
  split; cbn;
  try done;
  try (split; [done | by intros [? ?]]).

Lemma coherent_initial : coherent initial.
Proof. coherence. Qed.

Lemma coherent_setArticles l s : coherent s -> coherent (setArticles l s).
Proof.
  intros [H1 H2 H3 H4 H5]. unfold setArticles, queueEmptyEffect.
  destruct (length l =? length (articles s))%nat; [by split|].
  cbn [articles]. destruct (length l =? 0)%nat; [|by split].
  coherence.
Qed.

Lemma coherent_handleGenerate_call now s :
  coherent s -> coherent (handleGenerate_call now s).1.
Proof.
  intros Hs. unfold handleGenerate_call.
  destruct (length (articles s) =? 0)%nat; [done|].
  destruct (audioContextRef s) eqn:Hctx; [|done].
  destruct Hs as [H1 H2 H3 H4 H5]. coherence.
Qed.

Lemma coherent_catch r e s : coherent s -> coherent (handleGenerate_catch r e s).
Proof.
  intros Hs. unfold handleGenerate_catch. destruct (stale r s); [done|].
  destruct Hs as [H1 H2 H3 H4 H5]. coherence.
  intros m [= <-]. apply getFriendlyErrorMessage_nonempty.
Qed.

Lemma coherent_summarized r res s :
  coherent s -> coherent (handleGenerate_summarized r res s).1.
Proof.
  intros Hs. destruct res as [summary|e]; cbn [handleGenerate_summarized fst].
  - destruct (stale r s); [done|]. cbn [fst].
    destruct Hs as [H1 H2 H3 H4 H5]. coherence.
  - by apply coherent_catch.
Qed.

Lemma coherent_synthesized r res s :
  (forall b, res = Ok b -> speechBuffer b) ->
  coherent s -> coherent (handleGenerate_synthesized r res s).
Proof.
  intros Hb Hs. destruct res as [b|e]; cbn [handleGenerate_synthesized].
  - destruct (stale r s); [done|].
    destruct Hs as [H1 H2 H3 H4 H5]. coherence.
    intros b' [= <-]. by apply Hb.
  - by apply coherent_catch.
Qed.

Lemma coherent_step pf API_KEY ev w :
  coherent (app w) -> coherent (app (step pf API_KEY ev w)).
Proof.
  intros Hw. destruct ev as [l|i|c|v|now|rid reply|rid reply]; cbn [step].
  - by apply coherent_setArticles.
  - by apply coherent_setArticles.
  - cbn [app]. unfold handleClearAll.
    destruct (length (articles (app w)) =? 0)%nat; [done|].
    destruct c; [by apply coherent_setArticles|done].
  - by destruct Hw.
  - pose proof (coherent_handleGenerate_call now (app w) Hw) as H.
    by destruct (handleGenerate_call now (app w)) as [s [r|]].
  - destruct (requests w !! rid) as [r|]; [|done].
    destruct (stage r); try done.
    pose proof (coherent_summarized r (summarizeArticles API_KEY reply) (app w) Hw) as H.
    by destruct (handleGenerate_summarized _ _ _).
  - destruct (requests w !! rid) as [r|]; [|done].
    destruct (stage r); try done. cbn [app].
    apply coherent_synthesized; [|done].
    intros b Hb. by destruct (generateSpeech_inversion _ _ _ _ Hb) as (_ & _ & ?).
Qed.

(** X9.  After every sequence of events on the mounted component: a ready
    state has an audio buffer; every published buffer is mono, at 24000 Hz,
    with at least one frame and a positive duration; the status is error
    exactly when an error text is present, and that text is never empty; and
    the audio context is still there. *)
Theorem published_state_is_coherent
    (pf : Platform) (API_KEY : option string) (evs : list Event) :
  let s := app (run pf API_KEY evs initialWorld) in
  (status (generationState s) = ready -> exists b, audioBuffer s = Some b) /\
  (forall b, audioBuffer s = Some b ->
     numberOfChannels b = 1%nat /\ sampleRate b = 24000%Z /\
     (1 <= frames b)%nat /\ (0 < duration b)%Q) /\
  (status (generationState s) = error
   <-> exists m, error_message (generationState s) = Some m /\ m <> EmptyString) /\
  audioContextRef s = Some (mkAudioContext 24000).
Proof.
  intros s.
  assert (Hs : coherent s).
  { apply (run_invariant (fun w => coherent (app w))); [|apply coherent_initial].
    intros ev w. apply coherent_step. }
  destruct Hs as [H1 H2 H3 H4 H5]. repeat split; try done.
  - by apply H2.
  - by apply H2.
  - by apply H2.
  - by apply H2.
  - intros He. apply H3 in He as [m Hm]. exists m. split; [done|by apply H4].
  - intros (m & Hm & _). apply H3. by exists m.
Qed.

(** ** Loading states *)







(** ** What a call sends to be summarized *)

Lemma includes_describe a :
  includes (describe a) (title a) = true /\ includes (describe a) (content a) = true.
Proof.
  unfold describe. split; apply includes_spec.
  - by exists "Title: "%string, (newline +:+ "Content: " +:+ content a)%string.
  - exists ("Title: " +:+ title a +:+ newline +:+ "Content: ")%string, EmptyString.
    by rewrite ?append_assoc_s, append_nil_r.
Qed.

(** X11.  The prompt built for a generate call covers the whole queue: for
    every queued article, at its position, it holds the heading with that
    position counted from 1, followed by the article's title and content. *)
Theorem generate_prompt_covers_queue
    (now : Z) (s s' : State) (r : Request) (i : nat) (a : Article) :
  handleGenerate_call now s = (s', Some r) ->
  articles s !! i = Some a ->
  length (contentList r) = length (articles s) /\
  includes (prompt (contentList r))
    ("--- ARTICLE " +:+ pretty (i + 1)%nat +:+ " ---" +:+ line_feed
     +:+ "Title: " +:+ title a +:+ line_feed +:+ "Content: " +:+ content a
     +:+ line_feed) = true /\
  includes (prompt (contentList r)) (title a) = true /\
  includes (prompt (contentList r)) (content a) = true.
Proof.
  intros Hcall Hi. unfold handleGenerate_call in Hcall.
  destruct (length (articles s) =? 0)%nat; [done|].
  destruct (audioContextRef s); [|done].
  injection Hcall as _ <-. cbn [contentList].
  assert (Hd : map describe (articles s) !! i = Some (describe a)).
  { by rewrite list_lookup_fmap, Hi. }
  pose proof (prompt_includes_labelled _ _ _ Hd) as Hp.
  destruct (includes_describe a) as [Ht Hc].
  split; [by rewrite length_map|]. split; [|split].
  - replace (_ +:+ _)%string with (labelled i (describe a)); [done|].
    unfold labelled, describe, newline, line_feed. by rewrite !append_assoc_s.
  - eapply includes_trans; [exact Hp|].
    eapply includes_trans; [apply includes_labelled|done].
  - eapply includes_trans; [exact Hp|].
    eapply includes_trans; [apply includes_labelled|done].
Qed.

Lemma generate_prompt_covers_queue_witness :
  let s := setArticles [sampleArticle] initial in
  length [describe sampleArticle] = length (articles s) /\
  includes (prompt [describe sampleArticle])
    ("--- ARTICLE " +:+ pretty (0 + 1)%nat +:+ " ---" +:+ line_feed
     +:+ "Title: " +:+ title sampleArticle +:+ line_feed
     +:+ "Content: " +:+ content sampleArticle +:+ line_feed) = true /\
  includes (prompt [describe sampleArticle]) (title sampleArticle) = true /\
  includes (prompt [describe sampleArticle]) (content sampleArticle) = true.
Proof.
  apply (generate_prompt_covers_queue 1000 (setArticles [sampleArticle] initial)
           (handleGenerate_call 1000 (setArticles [sampleArticle] initial)).1
           (mkRequest 1000 [describe sampleArticle] Kore AwaitSummarize)
           0 sampleArticle); reflexivity.
Defined.

End AppMore.

(* ===================================================================== *)
(** * Facts about the component as a whole *)
(* ===================================================================== *)

Module ComponentFacts.
Import Js GeminiService App JsFacts GeminiServiceFacts AppFacts AppMore.
Import Component.

(** ** trim *)

Lemma trimStart_length s : (String.length (trimStart s) <= String.length s)%nat.
Proof.
  induction s as [|c r IH]; simpl; [done|].
  destruct (is_white_space c); simpl; lia.
Qed.

Lemma trimEnd_length s : (String.length (trimEnd s) <= String.length s)%nat.
Proof.
  induction s as [|c r IH]; simpl; [done|].
  destruct (trimEnd r); [destruct (is_white_space c)|]; simpl in *; lia.
Qed.

Lemma trim_length s : (String.length (trim s) <= String.length s)%nat.
Proof.
  unfold trim. pose proof (trimEnd_length (trimStart s)).
  pose proof (trimStart_length s). lia.
Qed.

Lemma trimStart_head s :
  trimStart s = EmptyString \/
  exists c r, trimStart s = String c r /\ is_white_space c = false.
Proof.
  induction s as [|c r IH]; simpl; [by left|].
  destruct (is_white_space c) eqn:Hc; [done|]. right. by exists c, r.
Qed.

Lemma trimEnd_head c r :
  is_white_space c = false -> exists r', trimEnd (String c r) = String c r'.
Proof.
  intros Hc. simpl. destruct (trimEnd r); [|by eexists].
  rewrite Hc. by eexists.
Qed.

Lemma trimEnd_idem s : trimEnd (trimEnd s) = trimEnd s.
Proof.
  induction s as [|c r IH]; simpl; [done|].
  destruct (trimEnd r) as [|d r'] eqn:Hr.
  - destruct (is_white_space c) eqn:Hc; simpl; [done|]. by rewrite Hc.
  - cbn [trimEnd] in *. fold trimEnd in *. by rewrite IH.
Qed.

Lemma trim_idem s : trim (trim s) = trim s.
Proof.
  unfold trim. destruct (trimStart_head s) as [->|(c & r & -> & Hc)]; [done|].
  destruct (trimEnd_head c r Hc) as [r' Hr']. rewrite Hr' at 1.
  cbn [trimStart]. rewrite Hc, <- Hr'. apply trimEnd_idem.
Qed.

(** The characters [trim] removes, on a sample. *)
Example trim_sample :
  trim (String (ascii_of_N 9) "  Stocks rose.  " +:+ line_feed) = "Stocks rose."%string /\
  trim (" " +:+ line_feed +:+ String (ascii_of_N 13) " ") = EmptyString.
Proof. by vm_compute. Qed.

(** ** The component only does what the orchestrator does *)

Section WithEnvironment.
Variable pf : Platform.
Variable API_KEY : option string.

Lemma world_step ev s :
  world (Component.step pf API_KEY ev s) = world s \/
  exists ev', world (Component.step pf API_KEY ev s) = App.step pf API_KEY ev' (world s).
Proof.
  destruct ev as [v|v|newId now|k|c|v|b|now|now|rid reply|rid reply]; cbn [Component.step].
  - left. by destruct (_ <=? _)%nat.
  - by left.
  - unfold handleAddArticle. destruct (negb _); [by left|].
    right. by eexists (SetArticles _).
  - destruct (queue s !! k); [|by left]. right. by eexists (SetArticles _).
  - unfold handleClearAll. destruct (_ =? _)%nat; [by left|].
    destruct c; [|by left]. right. by exists (SetArticles []).
  - unfold setSelectedVoice. destruct (bool_decide _); [by left|].
    right. by exists (SelectVoice v).
  - left. unfold setAutoGenerate. by destruct (Bool.eqb _ _).
  - destruct (generateButton s); [|by left]. right. by exists (Generate now).
  - destruct (timer s); [|by left]. right. by exists (Generate now).
  - right. by exists (Summarized rid reply).
  - right. by exists (Synthesized rid reply).
Qed.

Lemma app_run_snoc evs ev w :
  App.run pf API_KEY (evs ++ [ev]) w = App.step pf API_KEY ev (App.run pf API_KEY evs w).
Proof. unfold App.run. by rewrite fold_left_app. Qed.

Lemma run_snoc evs ev s :
  Component.run pf API_KEY (evs ++ [ev]) s
  = Component.step pf API_KEY ev (Component.run pf API_KEY evs s).
Proof. unfold Component.run. by rewrite fold_left_app. Qed.

Lemma world_run evs :
  exists evs', world (Component.run pf API_KEY evs initial) = App.run pf API_KEY evs' initialWorld.
Proof.
  induction evs as [|ev evs IH] using rev_ind; [by exists []|].
  destruct IH as [evs' IH]. rewrite run_snoc.
  destruct (world_step ev (Component.run pf API_KEY evs initial)) as [E|[ev' E]]; rewrite E, IH.
  - by exists evs'.
  - exists (evs' ++ [ev']). by rewrite app_run_snoc.
Qed.

Lemma component_invariant (P : State -> Prop) :
  P initial -> (forall ev s, P s -> P (Component.step pf API_KEY ev s)) -> forall evs, P (Component.run pf API_KEY evs initial).
Proof.
  intros H0 Hstep evs. induction evs as [|ev evs IH] using rev_ind; [done|].
  rewrite run_snoc. by apply Hstep.
Qed.

(** ** The queue *)

Lemma articles_generation ev w :
  match ev with Generate _ | Summarized _ _ | Synthesized _ _ | SelectVoice _ => True
              | _ => False end ->
  articles (app (App.step pf API_KEY ev w)) = articles (app w).
Proof.
  destruct ev as [l|i|c|v|now|rid reply|rid reply]; try done; intros _; cbn [App.step].
  - unfold handleGenerate_call.
    destruct (_ =? _)%nat; [done|]. by destruct (audioContextRef _).
  - destruct (requests w !! rid) as [r|]; [|done].
    destruct (stage r); try done.
    unfold handleGenerate_summarized, handleGenerate_catch.
    by destruct (summarizeArticles _ _), (stale _ _).
  - destruct (requests w !! rid) as [r|]; [|done].
    destruct (stage r); try done.
    unfold handleGenerate_synthesized, handleGenerate_catch.
    by destruct (generateSpeech _ _ _), (stale _ _).
Qed.

Lemma articles_setArticles l s : articles (App.setArticles l s) = l.
Proof.
  unfold App.setArticles, queueEmptyEffect.
  destruct (_ =? _)%nat; [done|]. cbn [articles]. by destruct (_ =? _)%nat.
Qed.

Lemma queue_setArticles l s : queue (setArticles l s) = l.
Proof. unfold setArticles, queue. cbn. apply articles_setArticles. Qed.

Lemma timer_setArticles l s :
  timer (setArticles l s) = autoGenerate s && (0 <? length l)%nat.
Proof.
  unfold setArticles, autoGenerateEffect. cbn [timer with_timer].
  unfold queue, on_app, on_world. cbn [world app autoGenerate].
  by rewrite articles_setArticles.
Qed.

(** The queue after each event: nothing new, or one article more. *)
Lemma queue_step ev s :
  (forall a, a ∈ queue (Component.step pf API_KEY ev s) -> a ∈ queue s) \/
  (exists newId now,
     ev = AddClick newId now /\ trim (inputText s) <> EmptyString /\
     queue (Component.step pf API_KEY ev s)
     = queue s ++ [mkArticle newId
                     (orElse (Some (trim (inputTitle s)))
                        ("Article " +:+ pretty (length (queue s) + 1)%nat))
                     (trim (inputText s)) now]).
Proof.
  assert (Hsame : forall s', queue s' = queue s ->
            forall a, a ∈ queue s' -> a ∈ queue s).
  { by intros s' ->. }
  destruct ev as [v|v|newId now|k|c|v|b|now|now|rid reply|rid reply]; cbn [Component.step].
  - left. by destruct (_ <=? _)%nat.
  - by left.
  - unfold handleAddArticle.
    destruct (trim (inputText s)) as [|ch rest] eqn:Ht; [by left|].
    right. exists newId, now. split; [done|]. split; [done|].
    cbn [truthy negb]. unfold setInputTitle, setInputText, queue at 1. cbn [world].
    apply queue_setArticles.
  - destruct (queue s !! k) as [a|]; [|by left]. left.
    unfold handleRemoveArticle. rewrite queue_setArticles.
    intros x Hx. by apply list_elem_of_filter in Hx as [_ Hx].
  - unfold handleClearAll. left.
    destruct (_ =? _)%nat; [done|]. destruct c; [|done].
    rewrite queue_setArticles. by intros x Hx%elem_of_nil.
  - left. apply Hsame. unfold setSelectedVoice. destruct (bool_decide _); [done|].
    unfold queue. by apply (articles_generation (SelectVoice v)).
  - left. apply Hsame. unfold setAutoGenerate. by destruct (Bool.eqb _ _).
  - left. apply Hsame. destruct (generateButton s); [|done].
    unfold queue. by apply (articles_generation (Generate now)).
  - left. apply Hsame. destruct (timer s); [|done].
    unfold queue. by apply (articles_generation (Generate now)).
  - left. apply Hsame. unfold queue. by apply (articles_generation (Summarized rid reply)).
  - left. apply Hsame. unfold queue. by apply (articles_generation (Synthesized rid reply)).
Qed.

Lemma published_setArticles_nonempty l s :
  l <> [] -> published (App.setArticles l s) = published s.
Proof.
  intros Hl. unfold App.setArticles, queueEmptyEffect.
  destruct (_ =? _)%nat; [done|]. cbn [articles]. by destruct l.
Qed.

Lemma published_setArticles_emptied s :
  articles s <> [] -> published (App.setArticles [] s) = (state_of idle, None, None).
Proof.
  intros Hq. unfold App.setArticles, queueEmptyEffect.
  by destruct (articles s).
Qed.

Lemma default_title_nonempty (t d : string) :
  orElse (Some t) ("Article " +:+ d) <> EmptyString.
Proof. destruct t; [|done]. cbn [orElse]. by unfold_app. Qed.

(** ** handleAddArticle *)

(** X12.  [handleAddArticle] with a text field that is blank (empty or
    white space only) changes nothing.  Otherwise it appends exactly one
    article to the end of the queue, holding the given id and timestamp, the
    trimmed text, and as title the trimmed title field or, when that is
    blank, "Article n" with n the new length of the queue; it clears both
    fields and leaves the published briefing and the pending calls alone. *)
Theorem handleAddArticle_appends (newId : string) (now : Z) (s : State) :
  (trim (inputText s) = EmptyString -> handleAddArticle newId now s = s) /\
  (trim (inputText s) <> EmptyString ->
   let s' := handleAddArticle newId now s in
   exists t,
     queue s' = queue s ++ [mkArticle newId t (trim (inputText s)) now] /\
     (trim (inputTitle s) <> EmptyString -> t = trim (inputTitle s)) /\
     (trim (inputTitle s) = EmptyString ->
        t = ("Article " +:+ pretty (length (queue s) + 1)%nat)%string) /\
     inputText s' = EmptyString /\ inputTitle s' = EmptyString /\
     published (app (world s')) = published (app (world s)) /\
     requests (world s') = requests (world s) /\
     timer s' = autoGenerate s).
Proof.
  unfold handleAddArticle. split.
  - by intros ->.
  - intros Ht. destruct (trim (inputText s)) as [|c r] eqn:E; [done|].
    cbn [truthy negb]. eexists. split.
    { unfold setInputTitle, setInputText, queue at 1. cbn [world].
      apply queue_setArticles. }
    split; [by destruct (trim (inputTitle s))|].
    split; [by intros ->|].
    split; [done|]. split; [done|]. split.
    { cbn. apply published_setArticles_nonempty. by destruct (queue s). }
    split; [done|].
    unfold setInputTitle, setInputText. cbn [timer].
    rewrite timer_setArticles, length_app. cbn [length].
    replace (0 <? length (queue s) + 1)%nat with true; [by rewrite andb_true_r|].
    symmetry. apply Nat.ltb_lt. lia.
Qed.

(** ** The queue *)

Lemma clean_new newId now text ttl (d : string) :
  (String.length text <= MAX_CHARS)%nat ->
  trim text <> EmptyString ->
  clean (mkArticle newId (orElse (Some (trim ttl)) ("Article " +:+ d))
                   (trim text) now).
Proof.
  intros Hlen Hne. split; cbn [content title]; [done|apply trim_idem| |].
  - pose proof (trim_length text). lia.
  - apply default_title_nonempty.
Qed.

Lemma inputText_step ev s :
  (String.length (inputText s) <= MAX_CHARS)%nat ->
  (String.length (inputText (Component.step pf API_KEY ev s)) <= MAX_CHARS)%nat.
Proof.
  intros Hs.
  destruct ev as [v|v|newId now|k|c|v|b|now|now|rid reply|rid reply];
    cbn [Component.step]; try done.
  - destruct (Nat.leb_spec (String.length v) MAX_CHARS); [done|done].
  - unfold handleAddArticle. destruct (negb _); [done|]. cbn. unfold MAX_CHARS. lia.
  - by destruct (queue s !! k).
  - unfold handleClearAll. destruct (_ =? _)%nat; [done|]. by destruct c.
  - unfold setSelectedVoice. by destruct (bool_decide _).
  - unfold setAutoGenerate. by destruct (Bool.eqb _ _).
  - by destruct (generateButton s).
  - by destruct (timer s).
Qed.

(** X13.  After every sequence of events, every article in the queue has a
    non-empty text without white space at either end, of at most 5000
    characters, and a non-empty title. *)
Theorem queued_articles_are_clean (evs : list Event) (a : Article) :
  a ∈ queue (Component.run pf API_KEY evs initial) ->
  content a <> EmptyString /\
  trim (content a) = content a /\
  (String.length (content a) <= 5000)%nat /\
  title a <> EmptyString.
Proof.
  intros Ha.
  assert (H : Forall clean (queue (Component.run pf API_KEY evs initial)) /\
              (String.length (inputText (Component.run pf API_KEY evs initial))
               <= MAX_CHARS)%nat).
  { apply (component_invariant
             (fun s => Forall clean (queue s) /\
                       (String.length (inputText s) <= MAX_CHARS)%nat)).
    - split; [by apply Forall_nil|]. cbn. unfold MAX_CHARS. lia.
    - intros ev s [Hq Hi]. split; [|by apply inputText_step].
      destruct (queue_step ev s) as [Hsub|(newId & now & -> & Ht & ->)].
      + apply Forall_forall. intros x Hx. rewrite Forall_forall in Hq.
        by apply Hq, Hsub.
      + apply Forall_app. split; [done|].
        apply Forall_cons. split; [by apply clean_new|by apply Forall_nil]. }
  destruct H as [Hq _]. rewrite Forall_forall in Hq.
  by destruct (Hq a Ha).
Qed.

(** ** The remove and clear buttons *)

Lemma filter_others (i : string) (l : list Article) :
  i ∉ map id l -> filter (fun x => id x <> i) l = l.
Proof.
  induction l as [|x l IH]; [done|]. cbn [map]. intros Hx.
  apply not_elem_of_cons in Hx as [Hne Hx].
  rewrite filter_cons_True by done. by rewrite IH.
Qed.

Lemma filter_id_delete (l : list Article) : forall k a,
  NoDup (map id l) -> l !! k = Some a ->
  filter (fun x => id x <> id a) l = delete k l.
Proof.
  induction l as [|x l IH]; intros k a Hnd Hk; [done|].
  cbn [map] in Hnd. apply NoDup_cons in Hnd as [Hx Hnd].
  destruct k as [|k]; cbn in Hk.
  - injection Hk as ->. rewrite filter_cons_False by (by intros H; apply H).
    by rewrite filter_others.
  - rewrite filter_cons_True.
    + cbn [delete list_delete]. f_equal. by apply IH.
    + intros E. apply Hx. rewrite E. apply list_elem_of_fmap. exists a.
      split; [done|]. by eapply list_elem_of_lookup_2.
Qed.

(** X14.  With distinct ids in the queue, the remove button of the article
    shown at position [k] removes that article and no other, keeping the
    order.  The published briefing stays unless the queue became empty, in
    which case the state is idle with no summary and no audio; the pending
    calls and the request ref are untouched either way. *)
Theorem remove_button_removes_that_article (s : State) (k : nat) (a : Article) :
  NoDup (map id (queue s)) ->
  queue s !! k = Some a ->
  let s' := Component.step pf API_KEY (RemoveClick k) s in
  queue s' = delete k (queue s) /\
  (queue s' <> [] -> published (app (world s')) = published (app (world s))) /\
  (queue s' = [] -> published (app (world s')) = (state_of idle, None, None)) /\
  requests (world s') = requests (world s) /\
  lastGenRequestRef (app (world s')) = lastGenRequestRef (app (world s)).
Proof.
  intros Hnd Hk. cbn [Component.step]. rewrite Hk.
  unfold handleRemoveArticle. rewrite queue_setArticles.
  rewrite (filter_id_delete _ _ _ Hnd Hk).
  split; [done|]. split; [|split; [|split]].
  - intros Hne. cbn. by apply published_setArticles_nonempty.
  - intros He. cbn. rewrite He. apply published_setArticles_emptied.
    fold (queue s). intros E. by rewrite E in Hk.
  - done.
  - cbn. apply lastGenRequestRef_setArticles.
Qed.

End WithEnvironment.

Lemma queued_articles_are_clean_witness :
  let a := mkArticle "k3x9" "Article 1" "Stocks rose." 1700000000000 in
  content a <> EmptyString /\
  trim (content a) = content a /\
  (String.length (content a) <= 5000)%nat /\
  title a <> EmptyString.
Proof.
  apply (queued_articles_are_clean examplePlatform None
           [InputTitle "  "; InputText "  Stocks rose.  "; AddClick "k3x9" 1700000000000]
           (mkArticle "k3x9" "Article 1" "Stocks rose." 1700000000000)).
  vm_compute. apply list_elem_of_here.
Defined.

Lemma remove_button_removes_that_article_witness :
  let pf := examplePlatform in
  let key := Some "key"%string in
  let s := Component.run pf key
             [InputText "Stocks rose."; AddClick "k3x9" 1700000000000;
              InputText "Rain tomorrow."; AddClick "p0q7" 1700000000500]
             initial in
  let s' := Component.step pf key (RemoveClick 0) s in
  queue s' = delete 0%nat (queue s) /\
  (queue s' <> [] -> published (app (world s')) = published (app (world s))) /\
  (queue s' = [] -> published (app (world s')) = (state_of idle, None, None)) /\
  requests (world s') = requests (world s) /\
  lastGenRequestRef (app (world s')) = lastGenRequestRef (app (world s)).
Proof.
  apply (remove_button_removes_that_article examplePlatform (Some "key"%string)
           (Component.run examplePlatform (Some "key"%string)
              [InputText "Stocks rose."; AddClick "k3x9" 1700000000000;
               InputText "Rain tomorrow."; AddClick "p0q7" 1700000000500]
              initial)
           0 (mkArticle "k3x9" "Article 1" "Stocks rose." 1700000000000)).
  - vm_compute. apply NoDup_cons. split; [|apply NoDup_singleton].
    rewrite list_elem_of_singleton. discriminate.
  - reflexivity.
Defined.

(** generateId() is random: when it returns the same id twice, one click
    removes both articles. *)
Example remove_button_with_equal_ids :
  let s := Component.run examplePlatform None
             [InputText "Stocks rose."; AddClick "k3x9" 1700000000000;
              InputText "Rain tomorrow."; AddClick "k3x9" 1700000000500]
             initial in
  length (queue s) = 2%nat /\
  queue (Component.step examplePlatform None (RemoveClick 0) s) = [].
Proof. by vm_compute. Qed.

(** X15.  "Clear All": declining the dialog changes nothing, and so does
    the handler on an empty queue.  Confirming on a non-empty queue empties
    it, resets the state to idle with no summary and no audio and leaves no
    auto-generate timer pending, but does not touch the pending calls or the
    request ref. *)
Theorem clear_all_button (s : State) :
  handleClearAll false s = s /\
  (queue s = [] -> handleClearAll true s = s) /\
  (queue s <> [] ->
   let s' := handleClearAll true s in
   queue s' = [] /\
   published (app (world s')) = (state_of idle, None, None) /\
   timer s' = false /\
   requests (world s') = requests (world s) /\
   lastGenRequestRef (app (world s')) = lastGenRequestRef (app (world s))).
Proof.
  unfold handleClearAll. split; [by destruct (_ =? _)%nat|]. split.
  - by intros ->.
  - intros Hq. destruct (queue s) as [|a l] eqn:E; [done|]. cbn [length Nat.eqb].
    split; [apply queue_setArticles|]. split.
    { cbn. apply published_setArticles_emptied. fold (queue s). by rewrite E. }
    split; [rewrite timer_setArticles; apply andb_false_r|].
    split; [done|]. cbn. apply lastGenRequestRef_setArticles.
Qed.



(** ** The auto-generate timer *)

Section Timer.
Variable pf : Platform.
Variable API_KEY : option string.

Lemma armed_effect s : armed (autoGenerateEffect s).
Proof.
  unfold armed, autoGenerateEffect, with_timer, queue.
  cbn [timer autoGenerate world].
  intros [Ha Hq%Nat.ltb_lt]%andb_true_iff. split; [done|].
  destruct (articles (app (world s))); [cbn in Hq; lia|done].
Qed.

Lemma armed_on_world f s :
  articles (app (f (world s))) = articles (app (world s)) ->
  armed s -> armed (on_world f s).
Proof.
  unfold armed, queue. cbn [timer on_world autoGenerate world]. by intros ->.
Qed.

Lemma armed_step ev s : armed s -> armed (Component.step pf API_KEY ev s).
Proof.
  intros Hs.
  destruct ev as [v|v|newId now|k|c|v|b|now|now|rid reply|rid reply];
    cbn [Component.step].
  - by destruct (_ <=? _)%nat.
  - done.
  - unfold handleAddArticle. destruct (negb _); [done|].
    apply (armed_effect (on_app _ s)).
  - destruct (queue s !! k); [|done]. apply armed_effect.
  - unfold handleClearAll. destruct (_ =? _)%nat; [done|].
    destruct c; [apply armed_effect|done].
  - unfold setSelectedVoice. destruct (bool_decide _); [done|apply armed_effect].
  - unfold setAutoGenerate. destruct (Bool.eqb _ _); [done|apply armed_effect].
  - destruct (generateButton s); [|done].
    apply armed_on_world; [|done]. by apply (articles_generation pf API_KEY (Generate now)).
  - destruct (timer s); [|done]. by intros H.
  - apply armed_on_world; [|done].
    by apply (articles_generation pf API_KEY (Summarized rid reply)).
  - apply armed_on_world; [|done].
    by apply (articles_generation pf API_KEY (Synthesized rid reply)).
Qed.

Lemma context_run evs :
  audioContextRef (app (world (Component.run pf API_KEY evs initial)))
  = Some (mkAudioContext 24000).
Proof.
  destruct (world_run pf API_KEY evs) as [evs' ->].
  apply (AppMore.run_invariant (fun w => coherent (app w))).
  - intros ev w. apply coherent_step.
  - apply coherent_initial.
Qed.

(** X16.  The auto-generate timer.  After every sequence of events, a
    timer is pending only while auto-update is on and the queue is not
    empty.  When it fires it always issues a generate call for the whole
    current queue with the selected voice: the state becomes summarizing,
    the previous summary and audio are cleared, and no timer is left.  And
    while auto-update is on the generate button is disabled, and adding an
    article leaves a timer pending. *)
Theorem auto_generate_timer (evs : list Event) :
  let s := Component.run pf API_KEY evs initial in
  (timer s = true -> autoGenerate s = true /\ queue s <> []) /\
  (timer s = true -> forall now,
     let s' := Component.step pf API_KEY (TimerFired now) s in
     timer s' = false /\
     requests (world s')
     = requests (world s)
       ++ [mkRequest now (map describe (queue s)) (selectedVoice (app (world s)))
                     AwaitSummarize] /\
     published (app (world s')) = (state_of summarizing, None, None) /\
     lastGenRequestRef (app (world s')) = now /\
     queue s' = queue s) /\
  (autoGenerate s = true ->
     generateButton s = false /\
     forall newId now, trim (inputText s) <> EmptyString ->
       timer (Component.step pf API_KEY (AddClick newId now) s) = true).
Proof.
  intros s.
  assert (Hs : armed s).
  { apply (component_invariant pf API_KEY armed); [done|]. intros ev s0. apply armed_step. }
  split; [exact Hs|]. split.
  - intros Ht now. destruct (Hs Ht) as [Ha Hq].
    cbn [Component.step]. rewrite Ht.
    unfold on_world, with_timer, queue. cbn [timer world].
    rewrite step_Generate; [done|exact Hq|].
    unfold s. rewrite context_run. by eexists.
  - intros Ha. split.
    + unfold generateButton. rewrite Ha. apply andb_false_r.
    + intros newId now Hne. cbn [Component.step]. unfold handleAddArticle.
      destruct (trim (inputText s)); [done|]. cbn [truthy negb].
      unfold setInputTitle, setInputText. cbn [timer].
      rewrite timer_setArticles, length_app, Ha. cbn [length andb].
      apply Nat.ltb_lt. lia.
Qed.

End Timer.

(** The debounce at work: with auto-update on, two articles added in a row
    leave one timer, and its firing issues one call for both. *)
Example auto_generate_sample :
  let s := Component.run examplePlatform (Some "key"%string)
             [AutoToggle true;
              InputText "Stocks rose."; AddClick "k3x9" 1700000000000;
              InputText "Rain tomorrow."; AddClick "p0q7" 1700000000500;
              TimerFired 1700000002000; TimerFired 1700000002001]
             initial in
  timer s = false /\
  map currentRequestTime (requests (world s)) = [1700000002000%Z] /\
  map contentList (requests (world s))
  = [[describe (mkArticle "k3x9" "Article 1" "Stocks rose." 1700000000000);
      describe (mkArticle "p0q7" "Article 2" "Rain tomorrow." 1700000000500)]].
Proof. by vm_compute. Qed.

End ComponentFacts.

(* ===================================================================== *)
(** * More about the Player component *)
(* ===================================================================== *)

Module PlayerMore.
Import Player PlayerFacts.

(** ** The play / pause button *)

Lemma Inv_run_initial duration evs : Inv (run duration evs initial).
Proof. apply Inv_run, Inv_initial. Qed.

Lemma Inv_idle s : Inv s -> isPlaying s = false -> sourceNodeRef s = None.
Proof.
  intros [Hp _ _ _] Hi. rewrite Hi in Hp.
  destruct (sourceNodeRef s) as [k|]; [|done].
  by rewrite bool_decide_true in Hp.
Qed.

Lemma Inv_playing s : Inv s -> isPlaying s = true -> exists k, sourceNodeRef s = Some k.
Proof.
  intros [Hp _ _ _] Hi. rewrite Hi in Hp.
  destruct (sourceNodeRef s) as [k|]; [by exists k|].
  rewrite bool_decide_false in Hp; [done|]. by intros [k Hk].
Qed.

Lemma isPlaying_playAudio now s : isPlaying (playAudio now s) = true.
Proof.
  unfold playAudio. cbv zeta.
  match goal with |- context [setIsPlaying true ?x] =>
    by destruct (setIsPlaying_fields true x) as (-> & _) end.
Qed.

(** X17.  The play / pause button always toggles.  After every sequence
    of events the transport flag is set exactly when a source is attached,
    and a click turns playing into paused and paused into playing; a click
    that starts playback attaches a fresh source with the current pitch, the
    handler installed, and as offset the paused position, or 0 when the
    progress had reached 100. *)
Theorem togglePlay_flips_transport (duration : Q) (evs : list Event) (now : Q) :
  let s := run duration evs initial in
  (isPlaying s = true <-> exists k, sourceNodeRef s = Some k) /\
  isPlaying (togglePlay now s) = negb (isPlaying s) /\
  (isPlaying s = false ->
     currentSource (togglePlay now s)
     = Some (mkSource (pitch s) true
               (if Qle_bool 100 (progress s) then 0%Q else pauseTimeRef s) false) /\
     sourceNodeRef (togglePlay now s) = Some (length (nodes s))).
Proof.
  intros s. pose proof (Inv_run_initial duration evs) as HI. fold s in HI.
  split; [|split].
  - split; [by apply Inv_playing|].
    intros [k Hk]. destruct HI as [Hp _ _ _]. rewrite Hp, Hk.
    by rewrite bool_decide_true.
  - unfold togglePlay. destruct (isPlaying s) eqn:Hp.
    + destruct (Inv_playing s HI Hp) as [k Hk].
      by destruct (pauseAudio_fields now k s Hk) as (_ & -> & _).
    + apply isPlaying_playAudio.
  - intros Hp. unfold togglePlay. rewrite Hp.
    destruct (Qle_bool 100 (progress s)); split;
      first [apply currentSource_playAudio | idtac].
    all: unfold playAudio; cbv zeta.
    all: match goal with |- context [setIsPlaying true ?x] =>
           by destruct (setIsPlaying_fields true x) as (_ & _ & _ & -> & _) end.
Qed.

(** ** An idle player *)

Lemma ended_detached k n s :
  nodes s !! k = Some n -> onended n = false -> ended k s = s.
Proof. intros Hk Hn. unfold ended. by rewrite Hk, Hn. Qed.

(** X18.  Nothing moves while the player is not playing.  After every
    sequence of events that leaves the transport paused or stopped, an
    animation frame and an [ended] event on any node change nothing: the
    progress, the offset and the refs keep their values until the next click
    or pitch change. *)
Theorem idle_player_is_stable (duration : Q) (evs : list Event) :
  let s := run duration evs initial in
  isPlaying s = false ->
  (forall now, step duration (Frame now) s = s) /\
  (forall k, step duration (Ended k) s = s) /\
  sourceNodeRef s = None /\ animationFrameRef s = false.
Proof.
  intros s Hp. pose proof (Inv_run_initial duration evs) as HI. fold s in HI.
  pose proof (Inv_idle s HI Hp) as Hs.
  assert (Hf : animationFrameRef s = false).
  { destruct HI as [_ _ _ Hf]. destruct (animationFrameRef s); [|done].
    rewrite Hf in Hp; done. }
  split; [|split; [|done]].
  - intros now. cbn [step]. unfold animationFrame. by rewrite Hf.
  - intros k. cbn [step]. unfold dispatchable.
    destruct (nodes s !! k) as [n|] eqn:Hk; [|done].
    rewrite Hs. rewrite bool_decide_false by done. rewrite orb_false_r.
    destruct (stopped n) eqn:Hn; [|done].
    apply (ended_detached k n); [done|].
    destruct HI as [_ _ Hd _]. by apply (Hd k).
Qed.

Lemma idle_player_is_stable_witness :
  let s := run 10 [TogglePlay 1; Frame 2; TogglePlay 4] initial in
  (forall now, step 10 (Frame now) s = s) /\
  (forall k, step 10 (Ended k) s = s) /\
  sourceNodeRef s = None /\ animationFrameRef s = false.
Proof.
  apply (idle_player_is_stable 10 [TogglePlay 1; Frame 2; TogglePlay 4]).
  reflexivity.
Defined.

(** ** The time display *)

Lemma Qfloor_div60 (x : Q) : Qfloor (x / 60) = (Qfloor x / 60)%Z.
Proof.
  destruct x as [n d]. unfold Qdiv, Qmult, Qinv, Qfloor. cbn [Qnum Qden].
  rewrite Z.mul_1_r, Pos2Z.inj_mul, Z.div_div by lia. done.
Qed.

Lemma Qfloor_minus_Z (x : Q) (z : Z) :
  Qfloor (x - inject_Z z) = (Qfloor x - z)%Z.
Proof.
  destruct x as [n d]. unfold Qminus, Qplus, Qopp, inject_Z, Qfloor. cbn [Qnum Qden].
  rewrite Z.mul_1_r, Pos.mul_1_r.
  replace (n + - z * Z.pos d)%Z with (n + (- z) * Z.pos d)%Z by lia.
  rewrite Z.div_add by lia. lia.
Qed.

Lemma Qrem60_nonneg (x : Q) :
  (0 <= x)%Q -> Qfloor (Qrem x 60) = (Qfloor x mod 60)%Z.
Proof.
  intros Hx. unfold Qrem, Qtrunc.
  assert (H0 : (0 <= x / 60)%Q).
  { unfold Qdiv. apply Qmult_le_0_compat; [done|]. by vm_compute. }
  apply Qle_bool_iff in H0. rewrite H0, Qfloor_div60.
  assert (E : (60 * inject_Z (Qfloor x / 60) == inject_Z (60 * (Qfloor x / 60)))%Q).
  { rewrite inject_Z_mult. reflexivity. }
  rewrite E, Qfloor_minus_Z, Z.mod_eq by lia. done.
Qed.

Lemma two_digits (z : Z) :
  (0 <= z < 60)%Z ->
  padStart 2 "0" (pretty z) = pretty (z / 10)%Z +:+ pretty (z mod 10)%Z.
Proof.
  intros Hz.
  assert (H : forallb (fun n =>
              String.eqb (padStart 2 "0" (pretty (Z.of_nat n)))
                         (pretty (Z.of_nat n / 10)%Z +:+ pretty (Z.of_nat n mod 10)%Z))
              (seq 0 60) = true) by (by vm_compute).
  rewrite forallb_forall in H.
  specialize (H (Z.to_nat z)). rewrite Z2Nat.id in H by lia.
  apply String.eqb_eq, H, in_seq. lia.
Qed.

(** X19.  The time display.  For a non-negative number of seconds,
    [formatTime] shows the whole minutes, a colon, and the remaining whole
    seconds as exactly two digits between 00 and 59; minutes and seconds
    together make up the whole number of seconds. *)
Theorem formatTime_minutes_seconds (seconds : Q) :
  (0 <= seconds)%Q ->
  let whole := Qfloor seconds in
  let m := (whole / 60)%Z in
  let d1 := (whole mod 60 / 10)%Z in
  let d0 := (whole mod 60 mod 10)%Z in
  formatTime seconds = pretty m +:+ ":" +:+ pretty d1 +:+ pretty d0 /\
  (0 <= m)%Z /\ (0 <= d1 < 6)%Z /\ (0 <= d0 < 10)%Z /\
  whole = (60 * m + 10 * d1 + d0)%Z.
Proof.
  intros Hs whole m d1 d0.
  assert (Hw : (0 <= whole)%Z).
  { unfold whole. change 0%Z with (Qfloor 0). by apply Qfloor_resp_le. }
  split.
  - unfold formatTime. cbv zeta.
    rewrite Qfloor_div60, Qrem60_nonneg by done.
    rewrite two_digits by (apply Z.mod_pos_bound; lia). done.
  - unfold m, d1, d0. clear m d1 d0. revert Hw. generalize whole. intros w Hw.
    repeat split; Z.div_mod_to_equations; lia.
Qed.

Lemma formatTime_minutes_seconds_witness :
  let whole := Qfloor (1257 # 10) in
  let m := (whole / 60)%Z in
  let d1 := (whole mod 60 / 10)%Z in
  let d0 := (whole mod 60 mod 10)%Z in
  formatTime (1257 # 10) = pretty m +:+ ":" +:+ pretty d1 +:+ pretty d0 /\
  (0 <= m)%Z /\ (0 <= d1 < 6)%Z /\ (0 <= d0 < 10)%Z /\
  whole = (60 * m + 10 * d1 + d0)%Z.
Proof.
  apply (formatTime_minutes_seconds (1257 # 10)). by vm_compute.
Defined.

(** What the display shows, also outside the range of the theorem. *)
Example formatTime_samples :
  formatTime (1257 # 10) = "2:05"%string /\
  formatTime 0 = "0:00"%string /\
  formatTime (5999 # 100) = "0:59"%string /\
  formatTime 3600 = "60:00"%string /\
  formatTime (-1 # 2) = "-1:-1"%string.
Proof. by vm_compute. Qed.

(** ** One source at a time *)

Lemma current_alive s k :
  Inv s -> sourceNodeRef s = Some k -> halted s k = false.
Proof.
  intros [_ Hc _ _] Hk. destruct (Hc k Hk) as (n & Hn & _ & _ & Hst).
  unfold halted. by rewrite Hn.
Qed.

Lemma started_none s s' : length (nodes s') = length (nodes s) -> started s s' = [].
Proof. intros E. unfold started. by rewrite E, Nat.sub_diag. Qed.

Lemma filter_singleton (P : nat -> Prop) `{!forall k, Decision (P k)} (k : nat) :
  filter P [k] = if decide (P k) then [k] else [].
Proof. by rewrite filter_cons, filter_nil. Qed.

(** A step that creates no node, halts none and keeps the ref. *)
Lemma sounding_quiet s s' :
  Inv s ->
  sourceNodeRef s' = sourceNodeRef s ->
  length (nodes s') = length (nodes s) ->
  (forall k, halted s' k = halted s k) ->
  filter (fun k => halted s' k = false) (current s ++ started s s') = current s'.
Proof.
  intros HI Hs Hl Hh. rewrite started_none, app_nil_r by done.
  unfold current. rewrite Hs. destruct (sourceNodeRef s) as [k|] eqn:Hk; [|done].
  rewrite filter_singleton, Hh, (current_alive s k HI Hk). by rewrite decide_True.
Qed.

(** A step that halts the current source and detaches the ref. *)
Lemma sounding_halt s s' k n :
  sourceNodeRef s = Some k -> nodes s !! k = Some n ->
  nodes s' = <[k := detach_and_stop n]> (nodes s) ->
  sourceNodeRef s' = None ->
  filter (fun k => halted s' k = false) (current s ++ started s s') = current s'.
Proof.
  intros Hk Hn Hns Hs'.
  rewrite started_none, app_nil_r by (by rewrite Hns, length_insert).
  unfold current. rewrite Hk, Hs', filter_singleton.
  unfold halted. rewrite Hns, list_lookup_insert_eq by (by eapply lookup_lt_Some).
  cbn [stopped detach_and_stop]. by rewrite decide_False.
Qed.

(** A step that starts a fresh source while none is attached. *)
Lemma sounding_start s s' n :
  sourceNodeRef s = None ->
  nodes s' = nodes s ++ [n] -> stopped n = false ->
  sourceNodeRef s' = Some (length (nodes s)) ->
  filter (fun k => halted s' k = false) (current s ++ started s s') = current s'.
Proof.
  intros Hs Hns Hn Hs'. unfold current, started. rewrite Hs, Hs', Hns, length_app.
  cbn [length app]. replace (length (nodes s) + 1 - length (nodes s))%nat with 1%nat by lia.
  cbn [seq]. rewrite filter_singleton. unfold halted.
  rewrite Hns, lookup_app_r, Nat.sub_diag by lia. cbn [lookup list_lookup].
  rewrite Hn. by rewrite decide_True.
Qed.

Lemma pauseAudio_nodes now k n s :
  sourceNodeRef s = Some k -> nodes s !! k = Some n ->
  nodes (pauseAudio now s) = <[k := detach_and_stop n]> (nodes s).
Proof.
  intros Hk Hn. unfold pauseAudio. rewrite Hk. cbv zeta.
  match goal with |- context [setIsPlaying false ?x] =>
    destruct (setIsPlaying_fields false x) as (_ & _ & _ & _ & _ & _ & ->) end.
  cbn. unfold update_node. by rewrite Hn.
Qed.

Lemma stopAudio_nodes k n s :
  sourceNodeRef s = Some k -> nodes s !! k = Some n ->
  nodes (stopAudio s) = <[k := detach_and_stop n]> (nodes s).
Proof.
  intros Hk Hn. unfold stopAudio, setProgress. rewrite Hk. cbv zeta. cbn.
  match goal with |- context [setIsPlaying false ?x] =>
    destruct (setIsPlaying_fields false x) as (_ & _ & _ & _ & _ & _ & ->) end.
  cbn. unfold update_node. by rewrite Hn.
Qed.

Lemma stopAudio_idle_nodes s :
  sourceNodeRef s = None -> nodes (stopAudio s) = nodes s.
Proof.
  intros Hk. unfold stopAudio, setProgress. rewrite Hk. cbv zeta. cbn.
  match goal with |- context [setIsPlaying false ?x] =>
    by destruct (setIsPlaying_fields false x) as (_ & _ & _ & _ & _ & _ & ->) end.
Qed.

Lemma playAudio_nodes now s :
  nodes (playAudio now s) = nodes s ++ [mkSource (pitch s) true (pauseTimeRef s) false] /\
  sourceNodeRef (playAudio now s) = Some (length (nodes s)).
Proof.
  unfold playAudio. cbv zeta.
  match goal with |- context [setIsPlaying true ?x] =>
    by destruct (setIsPlaying_fields true x) as (_ & _ & _ & -> & _ & _ & ->) end.
Qed.

Lemma setPitch_quiet v s :
  sourceNodeRef (setPitch v s) = sourceNodeRef s /\
  length (nodes (setPitch v s)) = length (nodes s) /\
  forall k, halted (setPitch v s) k = halted s k.
Proof.
  unfold setPitch. destruct (pitch s =? v)%Z; [done|]. cbv zeta. cbn.
  destruct (sourceNodeRef s) as [j|] eqn:Hj; [|done].
  unfold update_node. cbn. destruct (nodes s !! j) as [n|] eqn:Hn; [|done].
  cbn. rewrite length_insert. split; [done|]. split; [done|].
  intros k. unfold halted. cbn.
  destruct (decide (j = k)) as [<-|Hne].
  - rewrite list_lookup_insert_eq by (by eapply lookup_lt_Some). by rewrite Hn.
  - by rewrite list_lookup_insert_ne.
Qed.

Lemma animationFrame_quiet duration now s :
  sourceNodeRef (animationFrame duration now s) = sourceNodeRef s /\
  nodes (animationFrame duration now s) = nodes s.
Proof.
  unfold animationFrame, updateProgress, setProgress.
  destruct (animationFrameRef s); [|done]. cbv zeta.
  by destruct (_ && _).
Qed.

Lemma onended_handler_nodes s :
  nodes (onended_handler s) = nodes s /\ sourceNodeRef (onended_handler s) = None.
Proof.
  unfold onended_handler, setProgress.
  destruct (sourceNodeRef s) as [k|] eqn:Hk; [|done]. cbv zeta. cbn.
  match goal with |- context [setIsPlaying false ?x] =>
    by destruct (setIsPlaying_fields false x) as (_ & _ & _ & _ & _ & _ & ->) end.
Qed.

Lemma halted_same_nodes s s' : nodes s' = nodes s -> forall k, halted s' k = halted s k.
Proof. intros E k. unfold halted. by rewrite E. Qed.

Lemma sounding_step_current duration ev s :
  Inv s -> sounding_step duration ev s (current s) = current (step duration ev s).
Proof.
  intros HI. unfold sounding_step. cbv zeta.
  destruct ev as [now| |v|now|k]; cbn [step].
  - unfold togglePlay. destruct (isPlaying s) eqn:Hp.
    + destruct (Inv_playing s HI Hp) as [k Hk].
      destruct HI as [_ Hc _ _]. destruct (Hc k Hk) as (n & Hn & _).
      apply (sounding_halt s _ k n); [done|done|by apply pauseAudio_nodes|].
      by destruct (pauseAudio_fields now k s Hk) as (_ & _ & -> & _).
    + pose proof (Inv_idle s HI Hp) as Hs.
      destruct (Qle_bool 100 (progress s)).
      * destruct (playAudio_nodes now (with_pauseTimeRef 0 s)) as [Hn Hr].
        by eapply sounding_start.
      * destruct (playAudio_nodes now s) as [Hn Hr].
        by eapply sounding_start.
  - destruct (stopAudio_fields s) as (_ & _ & _ & Hr & _).
    destruct (sourceNodeRef s) as [k|] eqn:Hk.
    + destruct HI as [_ Hc _ _]. destruct (Hc k Hk) as (n & Hn & _).
      apply (sounding_halt s _ k n); [done|done|by apply stopAudio_nodes|done].
    + pose proof (stopAudio_idle_nodes s Hk) as Hn.
      apply sounding_quiet; [done|by rewrite Hr|by rewrite Hn|by apply halted_same_nodes].
  - destruct (setPitch_quiet v s) as (Hr & Hl & Hh). by apply sounding_quiet.
  - destruct (animationFrame_quiet duration now s) as [Hr Hn].
    apply sounding_quiet; [done|done|by rewrite Hn|by apply halted_same_nodes].
  - unfold dispatchable.
    destruct (nodes s !! k) as [n|] eqn:Hk.
    2:{ apply sounding_quiet; done. }
    destruct (stopped n || bool_decide (sourceNodeRef s = Some k)) eqn:Hd.
    2:{ apply sounding_quiet; done. }
    unfold ended. rewrite Hk.
    destruct (onended n) eqn:Ho.
    + (* the node carries the handler: it is the current source *)
      assert (Hst : stopped n = false).
      { destruct (stopped n) eqn:Hst; [|done].
        destruct HI as [_ _ Hdet _]. by rewrite (Hdet k n Hk Hst) in Ho. }
      rewrite Hst in Hd. cbn in Hd. apply bool_decide_eq_true in Hd.
      destruct (onended_handler_nodes s) as [Hn Hr].
      unfold current at 1. rewrite Hd, started_none, app_nil_r by (by rewrite Hn).
      rewrite filter_singleton, (halted_same_nodes _ _ Hn), (current_alive s k HI Hd).
      rewrite decide_True by done. rewrite filter_singleton, decide_False by (by intros H; apply H).
      unfold current. by rewrite Hr.
    + (* a halted node: nothing runs *)
      rewrite sounding_quiet by done.
      unfold current. destruct (sourceNodeRef s) as [j|] eqn:Hj; [|done].
      rewrite filter_singleton. rewrite decide_True; [done|].
      intros ->. destruct HI as [_ Hc _ _].
      destruct (Hc k Hj) as (n' & Hn' & Ho' & _). rewrite Hk in Hn'.
      injection Hn' as <-. by rewrite Ho in Ho'.
Qed.

Lemma sounding_current duration evs : forall s,
  Inv s -> sounding duration evs s (current s) = current (run duration evs s).
Proof.
  induction evs as [|ev evs IH]; intros s HI; [done|].
  cbn [sounding run fold_left]. rewrite sounding_step_current by done.
  apply IH. by apply Inv_step.
Qed.

(** X20.  One source at a time.  After every sequence of events the
    sources that have been started and have neither been stopped nor ended
    are the source the ref points to, or none when it is null: two sources
    never sound together.  After a click on restart, none sounds. *)
Theorem one_source_at_a_time (duration : Q) (evs : list Event) :
  sounding duration evs initial [] = current (run duration evs initial) /\
  (length (sounding duration evs initial []) <= 1)%nat /\
  sounding duration (evs ++ [StopClick]) initial [] = [].
Proof.
  pose proof (sounding_current duration evs initial Inv_initial) as H.
  change (current initial) with (@nil nat) in H.
  split; [done|]. split.
  - rewrite H. unfold current. destruct (sourceNodeRef _); cbn; lia.
  - pose proof (sounding_current duration (evs ++ [StopClick]) initial Inv_initial) as H2.
    change (current initial) with (@nil nat) in H2. rewrite H2.
    unfold run. rewrite fold_left_app. cbn [fold_left step].
    unfold current.
    match goal with |- context [stopAudio ?x] =>
      by destruct (stopAudio_fields x) as (_ & _ & _ & -> & _) end.
Qed.

(** A run with two plays, a pause and a natural end. *)
Example sounding_sample :
  sounding 10 [TogglePlay 1] initial [] = [0%nat] /\
  sounding 10 [TogglePlay 1; TogglePlay 3] initial [] = [] /\
  sounding 10 [TogglePlay 1; TogglePlay 3; TogglePlay 4; PitchInput 200] initial []
    = [1%nat] /\
  sounding 10 [TogglePlay 1; TogglePlay 3; TogglePlay 4; Ended 0] initial [] = [1%nat] /\
  sounding 10 [TogglePlay 1; TogglePlay 3; TogglePlay 4; Ended 1] initial [] = [].
Proof. by vm_compute. Qed.

(** ** Progress and offsets stay within bounds *)

Lemma inBounds_weaken t t' s : (t <= t')%Q -> inBounds t s -> inBounds t' s.
Proof.
  intros Ht [H1 H2 H3 H4]. split; try done.
  intros Hp. specialize (H3 Hp). lra.
Qed.

Lemma playAudio_fields now s :
  isPlaying (playAudio now s) = true /\
  progress (playAudio now s) = progress s /\
  pauseTimeRef (playAudio now s) = pauseTimeRef s /\
  startTimeRef (playAudio now s) = now.
Proof.
  unfold playAudio. cbv zeta.
  match goal with |- context [setIsPlaying true ?x] =>
    by destruct (setIsPlaying_fields true x) as (-> & -> & _ & _ & -> & -> & _) end.
Qed.

Lemma inBounds_playAudio now s :
  (0 <= progress s <= 100)%Q -> (0 <= pauseTimeRef s)%Q ->
  Forall (fun n => (0 <= startOffset n)%Q) (nodes s) ->
  inBounds now (playAudio now s).
Proof.
  intros H1 H2 H4.
  destruct (playAudio_fields now s) as (Hp & Hpr & Hpt & Hst).
  destruct (playAudio_nodes now s) as [Hn _].
  split; rewrite ?Hpr, ?Hpt, ?Hst, ?Hn; try done.
  - intros _. lra.
  - apply Forall_app. split; [done|].
    apply Forall_cons. split; [done|by apply Forall_nil].
Qed.

Lemma offsets_halt k n (l : list AudioBufferSourceNode) :
  l !! k = Some n ->
  Forall (fun n => (0 <= startOffset n)%Q) l ->
  Forall (fun n => (0 <= startOffset n)%Q) (<[k := detach_and_stop n]> l).
Proof.
  intros Hk Hl. apply Forall_insert; [done|].
  by apply (Forall_lookup_1 _ _ _ _ Hl Hk).
Qed.

Lemma inBounds_setPitch t v s : inBounds t s -> inBounds t (setPitch v s).
Proof.
  intros [H1 H2 H3 H4]. unfold setPitch. destruct (pitch s =? v)%Z; [done|].
  cbv zeta. cbn. destruct (sourceNodeRef s) as [j|]; [|done].
  unfold update_node. cbn. destruct (nodes s !! j) as [n|] eqn:Hn; [|done].
  split; cbn; try done.
  apply Forall_insert; [done|]. by apply (Forall_lookup_1 _ _ _ _ H4 Hn).
Qed.

Section Bounds.
Variable duration : Q.
Hypothesis duration_pos : (0 < duration)%Q.

Lemma progressAt_bounds now s :
  (0 <= elapsedAt now s)%Q -> (0 <= progressAt duration now s <= 100)%Q.
Proof.
  intros He. unfold progressAt. split.
  - apply Q.min_glb; [|lra].
    apply Qmult_le_0_compat; [|lra].
    unfold Qdiv. apply Qmult_le_0_compat; [done|].
    apply Qinv_le_0_compat. lra.
  - apply Q.le_min_r.
Qed.

Lemma inBounds_step ev t s :
  Inv s -> inBounds t s -> clockMonotone t [ev] ->
  inBounds (clockAfter t [ev]) (step duration ev s).
Proof.
  intros HI HB Hc. pose proof HB as [H1 H2 H3 H4].
  destruct ev as [now| |v|now|k]; cbn [step clockAfter]; cbn in Hc.
  - destruct Hc as [Hc _]. unfold togglePlay. destruct (isPlaying s) eqn:Hp.
    + destruct (Inv_playing s HI Hp) as [k Hk].
      destruct HI as [_ Hcur _ _]. destruct (Hcur k Hk) as (n & Hn & _).
      destruct (pauseAudio_fields now k s Hk) as (Hpt & Hip & _ & Hpr & _).
      split; rewrite ?Hpt, ?Hip, ?Hpr, ?(pauseAudio_nodes now k n s Hk Hn); try done.
      * specialize (H3 eq_refl). lra.
      * by apply offsets_halt.
    + destruct (Qle_bool 100 (progress s)).
      * apply inBounds_playAudio; cbn; [done|lra|done].
      * by apply inBounds_playAudio.
  - destruct (stopAudio_fields s) as (Hpt & Hpr & Hip & _).
    split; rewrite ?Hpt, ?Hpr, ?Hip; try done; try lra.
    destruct (sourceNodeRef s) as [k|] eqn:Hk.
    + destruct HI as [_ Hcur _ _]. destruct (Hcur k Hk) as (n & Hn & _).
      rewrite (stopAudio_nodes k n s Hk Hn). by apply offsets_halt.
    + by rewrite stopAudio_idle_nodes.
  - by apply inBounds_setPitch.
  - destruct Hc as [Hc _]. unfold animationFrame.
    destruct (animationFrameRef s) eqn:Hf; [|by apply (inBounds_weaken t)].
    assert (Hp : isPlaying s = true) by (destruct HI as [_ _ _ Hfr]; by apply Hfr).
    specialize (H3 Hp).
    destruct (refs_updateProgress duration now s) as (Hst & Hpt & Hip).
    split; rewrite ?progress_updateProgress, ?Hst, ?Hpt, ?Hip; try done.
    + apply progressAt_bounds. unfold elapsedAt. lra.
    + intros _. lra.
    + replace (nodes (updateProgress duration now s)) with (nodes s); [done|].
      unfold updateProgress, setProgress. cbv zeta. by destruct (_ && _).
  - destruct (dispatchable k s); [|done]. unfold ended.
    destruct (nodes s !! k) as [n|]; [|done]. destruct (onended n); [|done].
    unfold onended_handler. destruct (sourceNodeRef s) as [j|]; [|done].
    cbv zeta. unfold setProgress.
    match goal with |- context [setIsPlaying false ?x] =>
      destruct (setIsPlaying_fields false x) as (Hip & _ & _ & _ & _ & _ & Hn) end.
    split; cbn; rewrite ?Hip, ?Hn; try done; lra.
Qed.

Lemma clockMonotone_cons t ev evs :
  clockMonotone t (ev :: evs) ->
  clockMonotone t [ev] /\ clockMonotone (clockAfter t [ev]) evs.
Proof. destruct ev; cbn; tauto. Qed.

Lemma inBounds_run evs : forall t s,
  Inv s -> inBounds t s -> clockMonotone t evs ->
  inBounds (clockAfter t evs) (run duration evs s).
Proof.
  induction evs as [|ev evs IH]; intros t s HI HB Hc; [done|].
  apply clockMonotone_cons in Hc as [Hc1 Hc2].
  replace (clockAfter t (ev :: evs)) with (clockAfter (clockAfter t [ev]) evs)
    by (by destruct ev).
  cbn [run fold_left]. apply IH; [by apply Inv_step|by apply inBounds_step|done].
Qed.

End Bounds.

Lemma inBounds_initial t : inBounds t initial.
Proof. split; cbn; try done; try lra. Qed.

(** X21.  For a buffer of positive duration and a context clock that
    never runs backwards, after every sequence of events the progress lies
    between 0 and 100, the displayed position between 0 and the duration,
    and the paused offset is not negative; so no source is ever started
    with a negative offset. *)
Theorem progress_and_offsets_in_bounds (duration t : Q) (evs : list Event) :
  (0 < duration)%Q ->
  clockMonotone t evs ->
  let s := run duration evs initial in
  (0 <= progress s <= 100)%Q /\
  (0 <= currentSeconds duration s <= duration)%Q /\
  (0 <= pauseTimeRef s)%Q /\
  Forall (fun n => (0 <= startOffset n)%Q) (nodes s).
Proof.
  intros Hd Hc s.
  destruct (inBounds_run duration Hd evs t initial Inv_initial (inBounds_initial t) Hc)
    as [H1 H2 _ H4].
  fold s in H1, H2, H4. split; [done|]. split; [|done].
  unfold currentSeconds. split.
  - apply Qmult_le_0_compat; [|lra]. unfold Qdiv. apply Qmult_le_0_compat; [lra|].
    by vm_compute.
  - rewrite <- (Qmult_1_l duration) at 2. apply Qmult_le_compat_r; [|lra].
    apply Qle_shift_div_r; lra.
Qed.

Lemma progress_and_offsets_in_bounds_witness :
  let s := run 10 [TogglePlay 1; Frame 2; TogglePlay 4; TogglePlay 6; Frame 20] initial in
  (0 <= progress s <= 100)%Q /\
  (0 <= currentSeconds 10 s <= 10)%Q /\
  (0 <= pauseTimeRef s)%Q /\
  Forall (fun n => (0 <= startOffset n)%Q) (nodes s).
Proof.
  apply (progress_and_offsets_in_bounds 10 0
           [TogglePlay 1; Frame 2; TogglePlay 4; TogglePlay 6; Frame 20]).
  - reflexivity.
  - cbn. repeat split; by vm_compute.
Defined.

(** With a clock that runs backwards the offset does become negative. *)
Example backwards_clock_negative_offset :
  pauseTimeRef (run 10 [TogglePlay 5; TogglePlay 2] initial) == -3.
Proof. by vm_compute. Qed.

End PlayerMore.

